(** * Horizon planning of the gen4 planner (go/vt/vtgate/planbuilder/horizon_planning.go)

    A shallow embedding of the horizon planner: the projection pusher, the
    aggregation, group-by, order-by, distinct and having planners, the driver
    [planHorizon] and the final column truncation, followed by the properties
    established about them.

    Conventions.
    - Go pointers to plan nodes are modelled by explicit state passing: a
      function that mutates a plan returns the mutated plan.  The identity of
      an operator is its position and variant in the returned tree.
    - Go [int] values here are slice lengths, slice indices and column
      offsets, all far below 2^63; they are modelled in [Z] and no wrap-around
      is written out for [offset + 1] and [-(offset + 1)].
    - A Go function returning [(T, error)] returns a [result T]; a failed type
      assertion, a nil dereference or an index out of range is [Panic].
    - Collaborators that live outside this file (semantic table services,
      sqlparser and evalengine helpers, methods of plan nodes) are the fields
      of the record [Lib].  The types of packages sqlparser, abstract, engine
      and semantics and their small accessors (ColIdent.Equal, GetFirstSelect,
      AddOrder, GetColumnCount, ...) are declared outside this file as well;
      they are modelled here from the way the planner uses them, with the
      fields it reads and writes.
    - pushProjection rewrites the expression it is given in place (keyspace
      qualifiers, derived tables, bind variables), and the select expression
      it appends to a route is that same object.  Expressions are values
      here: [pushProjection] returns the offset, the flag and the plan, in
      which the rewritten expression is installed, and [pushedExpr] is the
      expression that the caller holds after the call.  The planners that
      push the expressions held by the query projection (pushProjections,
      planAggregations) return the plan and the fields of the driver's
      record that this file assigns; the select expressions listed in the
      record, and the function expression recorded with an aggregate, are
      those handed to the pushes.
    - pushProjection and planGroupByGen4 call themselves on a child as an
      earlier call left it, so they are defined by recursion on a fuel that
      bounds the nesting depth; [pushProjection_unfold] and
      [planGroupByGen4_unfold] show that they satisfy the equations of the Go
      functions. *)

From Stdlib Require Import ZArith List Bool Lia.
From stdpp Require Import base gmap strings list.

Set Warnings "-register-all".

Local Open Scope string_scope.
Local Open Scope list_scope.
Local Open Scope Z_scope.

(** ** Errors and results *)

Inductive Code : Type :=
| Code_OK
| Code_INVALID_ARGUMENT
| Code_UNIMPLEMENTED
| Code_INTERNAL
| Code_UNKNOWN.

Inductive ErrState : Type :=
| Undefined
| BadFieldError.

(** A vterrors error: its code, its MySQL state and its message. *)
Record error : Type := mkError {
  errCode : Code;
  errState : ErrState;
  errMsg : string
}.

(** vterrors.New / vterrors.Errorf *)
Definition vterrors_New (c : Code) (msg : string) : error := mkError c Undefined msg.
(** vterrors.NewErrorf *)
Definition vterrors_NewErrorf (c : Code) (s : ErrState) (msg : string) : error := mkError c s msg.
(** vterrors.Code *)
Definition vterrors_Code (e : error) : Code := errCode e.

Inductive result (A : Type) : Type :=
| OK (a : A)
| Err (e : error)
| Panic (why : string)
| Diverge.

Arguments OK {A} a.
Arguments Err {A} e.
Arguments Panic {A} why.
Arguments Diverge {A}.

Definition bind {A B : Type} (k : A -> result B) (r : result A) : result B :=
  match r with
  | OK a => k a
  | Err e => Err e
  | Panic w => Panic w
  | Diverge => Diverge
  end.

(** [x ← r; k] runs [r] and continues with [k] on success: Go's
    [x, err := r; if err != nil { return err }]. *)
Instance result_bind : MBind result := @bind.
Instance result_ret : MRet result := @OK.

Instance Code_eq_dec : EqDecision Code.
Proof. solve_decision. Defined.
Instance ErrState_eq_dec : EqDecision ErrState.
Proof. solve_decision. Defined.
Instance error_eq_dec : EqDecision error.
Proof. solve_decision. Defined.

(** ** The SQL syntax tree (package sqlparser), as far as the planner inspects it *)

(** Modelled from the spec: sqlparser.ColIdent is declared outside this file.
    A case-insensitive SQL identifier, kept as written. *)
Definition ColIdent : Type := string.

Definition lower_ascii (c : Ascii.ascii) : Ascii.ascii :=
  let n := Ascii.nat_of_ascii c in
  if (Nat.leb 65 n && Nat.leb n 90)%bool then Ascii.ascii_of_nat (n + 32) else c.

Fixpoint to_lower (s : string) : string :=
  match s with
  | EmptyString => EmptyString
  | String c s' => String (lower_ascii c) (to_lower s')
  end.

Definition ColIdent_IsEmpty (c : ColIdent) : bool := String.eqb c "".
Definition ColIdent_String (c : ColIdent) : string := c.
Definition ColIdent_Lowered (c : ColIdent) : string := to_lower c.
(** ColIdent.Equal compares the lowered forms. *)
Definition ColIdent_Equal (a b : ColIdent) : bool :=
  String.eqb (ColIdent_Lowered a) (ColIdent_Lowered b).
(** ColIdent.EqualString *)
Definition ColIdent_EqualString (a : ColIdent) (s : string) : bool :=
  String.eqb (ColIdent_Lowered a) (to_lower s).
Definition NewColIdent (s : string) : ColIdent := s.

(** TableName: table identifier and keyspace qualifier. *)
Record TableName : Type := mkTableName {
  tnName : string;
  tnQualifier : string
}.

Inductive OrderDirection : Type := AscOrder | DescOrder.

Inductive Expr : Type :=
| ColName (Name : ColIdent) (Qualifier : TableName)
| FuncExpr (Name : ColIdent) (Distinct : bool) (Exprs : list SelectExpr)
| UnaryExpr (Operator : string) (e : Expr)
| BinaryExpr (Operator : string) (l r : Expr)
| AndExpr (l r : Expr)
| Literal (val : string)
| Argument (name : string)
| NullVal
with SelectExpr : Type :=
| SelAliased (e : Expr) (As : ColIdent)
| SelStar (table : TableName)
| SelNextval (e : Expr).

(** *sqlparser.AliasedExpr *)
Record AliasedExpr : Type := mkAliased {
  aExpr : Expr;
  aAs : ColIdent
}.

Definition AliasedOf (e : Expr) : AliasedExpr := mkAliased e "".
Definition SelOfAliased (a : AliasedExpr) : SelectExpr := SelAliased (aExpr a) (aAs a).

(** *sqlparser.Order *)
Record Order : Type := mkOrder {
  oExpr : Expr;
  oDirection : OrderDirection
}.

Definition TableName_eqb (a b : TableName) : bool :=
  String.eqb (tnName a) (tnName b) && String.eqb (tnQualifier a) (tnQualifier b).

(** Modelled from the spec: sqlparser.EqualsExpr is defined outside this file;
    "structurally equal expressions". *)
Fixpoint EqualsExpr (a b : Expr) {struct a} : bool :=
  match a, b with
  | ColName n1 q1, ColName n2 q2 => String.eqb n1 n2 && TableName_eqb q1 q2
  | FuncExpr n1 d1 es1, FuncExpr n2 d2 es2 =>
      String.eqb n1 n2 && Bool.eqb d1 d2 &&
      (fix eqs (xs ys : list SelectExpr) {struct xs} : bool :=
         match xs, ys with
         | [], [] => true
         | x :: xs', y :: ys' => EqualsSelectExpr x y && eqs xs' ys'
         | _, _ => false
         end) es1 es2
  | UnaryExpr o1 e1, UnaryExpr o2 e2 => String.eqb o1 o2 && EqualsExpr e1 e2
  | BinaryExpr o1 l1 r1, BinaryExpr o2 l2 r2 =>
      String.eqb o1 o2 && EqualsExpr l1 l2 && EqualsExpr r1 r2
  | AndExpr l1 r1, AndExpr l2 r2 => EqualsExpr l1 l2 && EqualsExpr r1 r2
  | Literal v1, Literal v2 => String.eqb v1 v2
  | Argument v1, Argument v2 => String.eqb v1 v2
  | NullVal, NullVal => true
  | _, _ => false
  end
with EqualsSelectExpr (a b : SelectExpr) {struct a} : bool :=
  match a, b with
  | SelAliased e1 a1, SelAliased e2 a2 => EqualsExpr e1 e2 && String.eqb a1 a2
  | SelStar t1, SelStar t2 => TableName_eqb t1 t2
  | SelNextval e1, SelNextval e2 => EqualsExpr e1 e2
  | _, _ => false
  end.

(** EqualsExpr on possibly nil interface values. *)
Definition EqualsExprOpt (a b : option Expr) : bool :=
  match a, b with
  | None, None => true
  | Some x, Some y => EqualsExpr x y
  | _, _ => false
  end.

(** sqlparser.IsColName *)
Definition IsColName (e : Expr) : bool :=
  match e with ColName _ _ => true | _ => false end.

(** sqlparser.IsNull *)
Definition IsNull (e : Expr) : bool :=
  match e with NullVal => true | _ => false end.

(** A SELECT as the planner mutates it.  [sRest] stands for the clauses the
    horizon planner never inspects (FROM, WHERE, comments). *)
Record Select : Type := mkSelect {
  SelectExprs : list SelectExpr;
  GroupBy : list Expr;
  sOrderBy : list Order;
  Having : option Expr;
  sDistinct : bool;
  sLimit : option Expr;
  sRest : string
}.

(** sqlparser.SelectStatement: a plain SELECT or a UNION. *)
Inductive SelectStatement : Type :=
| StmtSelect (s : Select)
| StmtUnion (l r : SelectStatement) (uDistinct : bool) (uOrderBy : list Order).

(** Modelled from the spec: sqlparser.GetFirstSelect, "the first embedded
    SELECT" of a statement. *)
Fixpoint GetFirstSelect (st : SelectStatement) : Select :=
  match st with
  | StmtSelect s => s
  | StmtUnion l _ _ _ => GetFirstSelect l
  end.

(** Writing through the pointer returned by GetFirstSelect. *)
Fixpoint SetFirstSelect (st : SelectStatement) (s' : Select) : SelectStatement :=
  match st with
  | StmtSelect _ => StmtSelect s'
  | StmtUnion l r d o => StmtUnion (SetFirstSelect l s') r d o
  end.

(** Modelled from the spec: GetColumnCount, "the SELECT's original column
    count", the length of the select list. *)
Definition Select_GetColumnCount (s : Select) : Z := Z.of_nat (length (SelectExprs s)).
Definition GetColumnCount (st : SelectStatement) : Z := Select_GetColumnCount (GetFirstSelect st).

(** Modelled from the spec: SelectStatement.AddOrder, "append to the embedded
    SELECT's ORDER BY". *)
Definition AddOrder (st : SelectStatement) (o : Order) : SelectStatement :=
  match st with
  | StmtSelect s =>
      StmtSelect (mkSelect (SelectExprs s) (GroupBy s) (sOrderBy s ++ [o]) (Having s) (sDistinct s) (sLimit s) (sRest s))
  | StmtUnion l r d os => StmtUnion l r d (os ++ [o])
  end.

(** Modelled from the spec: SelectStatement.MakeDistinct, "mark the embedded
    SELECT DISTINCT". *)
Definition MakeDistinct (st : SelectStatement) : SelectStatement :=
  match st with
  | StmtSelect s =>
      StmtSelect (mkSelect (SelectExprs s) (GroupBy s) (sOrderBy s) (Having s) true (sLimit s) (sRest s))
  | StmtUnion l r _ os => StmtUnion l r true os
  end.

(** Modelled from the spec: Select.AddHaving, "add expr to the first embedded
    SELECT's HAVING": the first predicate becomes the HAVING clause, later
    ones are conjoined to it. *)
Definition AddHaving (s : Select) (e : Expr) : Select :=
  mkSelect (SelectExprs s) (GroupBy s) (sOrderBy s)
    (match Having s with
     | None => Some e
     | Some h => Some (AndExpr h e)
     end) (sDistinct s) (sLimit s) (sRest s).

Definition Select_setSelectExprs (s : Select) (l : list SelectExpr) : Select :=
  mkSelect l (GroupBy s) (sOrderBy s) (Having s) (sDistinct s) (sLimit s) (sRest s).
Definition Select_setGroupBy (s : Select) (g : list Expr) : Select :=
  mkSelect (SelectExprs s) g (sOrderBy s) (Having s) (sDistinct s) (sLimit s) (sRest s).

(** Nodes that sqlparser.String prints in error messages and aliases. *)
Inductive SQLNode : Type :=
| NodeExpr (e : Expr)
| NodeAliased (a : AliasedExpr)
| NodeOrder (o : Order)
| NodeSelectExpr (s : SelectExpr)
| NodeColIdent (c : ColIdent).

(** sqlparser.NewColName *)
Definition NewColName (s : string) : Expr := ColName (NewColIdent s) (mkTableName "" "").

(** weightStringFor *)
Definition weightStringFor (expr : Expr) : Expr :=
  FuncExpr (NewColIdent "weight_string") false [SelOfAliased (AliasedOf expr)].

(** ** The semantic table (package semantics) *)

(** semantics.TableSet: a set of tables, as a bit set. *)
Definition TableSet : Type := N.

Inductive TableInfo : Type :=
| DerivedTable (id : nat)
| OtherTable (id : nat).

Definition querypb_Type : Type := Z.
Definition CollationID : Type := Z.

(** The services of *semantics.SemTable that the planner reads.
    [TableInfoForExpr] returns Go's pair (info, err). *)
Record SemTable : Type := mkSemTable {
  RecursiveDeps : Expr -> TableSet;
  TypeFor : Expr -> option querypb_Type;
  CollationFor : Expr -> CollationID;
  TableInfoForExpr : Expr -> option TableInfo * option error;
  ShardedError : option error
}.

Inductive ContextVSchema : Type := VSchema (id : nat).

Record planningContext : Type := mkCtx {
  semTable : SemTable;
  vschema : ContextVSchema
}.

(** ** Engine primitives (package engine) *)

Inductive JoinOpcode : Type := InnerJoin | LeftJoin.

Inductive AggregateOpcode : Type :=
| AggregateUnassigned
| AggregateCount
| AggregateSum
| AggregateMin
| AggregateMax
| AggregateCountDistinct
| AggregateSumDistinct
| AggregateOther (n : nat).

Instance JoinOpcode_eq_dec : EqDecision JoinOpcode.
Proof. solve_decision. Defined.
Instance AggregateOpcode_eq_dec : EqDecision AggregateOpcode.
Proof. solve_decision. Defined.

Record OrderByParams : Type := mkOrderByParams {
  obCol : Z;
  obWeightStringCol : Z;
  obDesc : bool;
  obStarColFixedIndex : Z;
  obCollationID : CollationID
}.

Record AggregateParams : Type := mkAggregateParams {
  agOpcode : AggregateOpcode;
  agCol : Z;
  agAlias : string;
  agExpr : option Expr;
  agWAssigned : bool;
  agWCol : Z
}.

Record GroupByParams : Type := mkGroupByParams {
  KeyCol : Z;
  WeightStringCol : Z;
  gbExpr : option Expr;
  gbCollationID : CollationID
}.

(** engine.Route, as far as the horizon planner writes it. *)
Record engine_Route : Type := mkERoute {
  rOpcode : Z;
  rOrderBy : list OrderByParams;
  rTruncateColumnCount : Z
}.

Record engine_OrderedAggregate : Type := mkEAggr {
  PreProcess : bool;
  Aggregates : list AggregateParams;
  GroupByKeys : list GroupByParams;
  aTruncateColumnCount : Z
}.

Record engine_MemorySort : Type := mkEMemorySort {
  mOrderBy : list OrderByParams;
  mTruncateColumnCount : Z
}.

(** &engine.OrderedAggregate{} and &engine.MemorySort{} *)
Definition empty_OrderedAggregate : engine_OrderedAggregate := mkEAggr false [] [] 0.
Definition empty_MemorySort : engine_MemorySort := mkEMemorySort [] 0.

(** ** Logical plans (package planbuilder) *)

Record routeGen4 : Type := mkRoute {
  rSelect : SelectStatement;
  tables : TableSet;
  eroute : engine_Route
}.

Definition route_setSelect (r : routeGen4) (st : SelectStatement) : routeGen4 :=
  mkRoute st (tables r) (eroute r).
Definition route_setEroute (r : routeGen4) (e : engine_Route) : routeGen4 :=
  mkRoute (rSelect r) (tables r) e.

Record joinGen4 : Type := mkJoin {
  jOpcode : JoinOpcode;
  jCols : list Z;
  jVars : gmap string Z
}.

Record hashJoin : Type := mkHashJoin {
  hOpcode : JoinOpcode;
  hCols : list Z
}.

Record vindexFunc : Type := mkVindexFunc {
  vfCols : list Z;
  vfFields : list string
}.

(** The logical plan tree.  Children are constructor arguments, the node's
    own payload is a record.  For memorySort and orderedAggregate the
    [truncater] of the resultsBuilder is the node's own primitive.  [POther]
    is any logicalPlan implementation this file has no case for. *)
Inductive logicalPlan : Type :=
| PRoute (node : routeGen4)
| PJoin (Left Right : logicalPlan) (node : joinGen4)
| PHashJoin (Left Right : logicalPlan) (node : hashJoin)
| PSemiJoin (lhs rhs : logicalPlan) (cols : list Z)
| POrderedAggregate (input : logicalPlan) (eaggr : engine_OrderedAggregate)
| PMemorySort (input : logicalPlan) (eMemorySort : engine_MemorySort)
| PSimpleProjection (input : logicalPlan) (eSimpleProjCols : list Z)
| PVindexFunc (node : vindexFunc)
| PPulloutSubquery (subquery underlying : logicalPlan)
| PFilter (input : logicalPlan) (predicate : Expr)
| PLimit (input : logicalPlan)
| PDistinct (input : logicalPlan)
| PConcatenate (sources : list logicalPlan)
| POther (goType : string).

(** The %T of a plan in error messages. *)
Definition typeName (p : logicalPlan) : string :=
  match p with
  | PRoute _ => "*planbuilder.routeGen4"
  | PJoin _ _ _ => "*planbuilder.joinGen4"
  | PHashJoin _ _ _ => "*planbuilder.hashJoin"
  | PSemiJoin _ _ _ => "*planbuilder.semiJoin"
  | POrderedAggregate _ _ => "*planbuilder.orderedAggregate"
  | PMemorySort _ _ => "*planbuilder.memorySort"
  | PSimpleProjection _ _ => "*planbuilder.simpleProjection"
  | PVindexFunc _ => "*planbuilder.vindexFunc"
  | PPulloutSubquery _ _ => "*planbuilder.pulloutSubquery"
  | PFilter _ _ => "*planbuilder.filter"
  | PLimit _ => "*planbuilder.limit"
  | PDistinct _ => "*planbuilder.distinct"
  | PConcatenate _ => "*planbuilder.concatenateGen4"
  | POther t => t
  end.

(** Nesting depth of a plan: the measure of the recursive planners. *)
Fixpoint depth (p : logicalPlan) : nat :=
  match p with
  | PRoute _ | PVindexFunc _ | POther _ => 0
  | PJoin l r _ | PHashJoin l r _ | PSemiJoin l r _ | PPulloutSubquery l r =>
      S (Nat.max (depth l) (depth r))
  | POrderedAggregate i _ | PMemorySort i _ | PSimpleProjection i _
  | PFilter i _ | PLimit i | PDistinct i => S (depth i)
  | PConcatenate srcs => S (fold_right (fun s n => Nat.max (depth s) n) 0%nat srcs)
  end.

(** The operators of a plan and how they are nested, without their payloads. *)
Inductive planShape : Type :=
| ShRoute
| ShJoin (l r : planShape)
| ShHashJoin (l r : planShape)
| ShSemiJoin (l r : planShape)
| ShOrderedAggregate (i : planShape)
| ShMemorySort (i : planShape)
| ShSimpleProjection (i : planShape)
| ShVindexFunc
| ShPulloutSubquery (s u : planShape)
| ShFilter (i : planShape)
| ShLimit (i : planShape)
| ShDistinct (i : planShape)
| ShConcatenate (srcs : list planShape)
| ShOther (goType : string).

Fixpoint shape (p : logicalPlan) : planShape :=
  match p with
  | PRoute _ => ShRoute
  | PJoin l r _ => ShJoin (shape l) (shape r)
  | PHashJoin l r _ => ShHashJoin (shape l) (shape r)
  | PSemiJoin l r _ => ShSemiJoin (shape l) (shape r)
  | POrderedAggregate i _ => ShOrderedAggregate (shape i)
  | PMemorySort i _ => ShMemorySort (shape i)
  | PSimpleProjection i _ => ShSimpleProjection (shape i)
  | PVindexFunc _ => ShVindexFunc
  | PPulloutSubquery s u => ShPulloutSubquery (shape s) (shape u)
  | PFilter i _ => ShFilter (shape i)
  | PLimit i => ShLimit (shape i)
  | PDistinct i => ShDistinct (shape i)
  | PConcatenate srcs => ShConcatenate (map shape srcs)
  | POther t => ShOther t
  end.

Fixpoint shapeDepth (s : planShape) : nat :=
  match s with
  | ShRoute | ShVindexFunc | ShOther _ => 0
  | ShJoin l r | ShHashJoin l r | ShSemiJoin l r | ShPulloutSubquery l r =>
      S (Nat.max (shapeDepth l) (shapeDepth r))
  | ShOrderedAggregate i | ShMemorySort i | ShSimpleProjection i
  | ShFilter i | ShLimit i | ShDistinct i => S (shapeDepth i)
  | ShConcatenate srcs => S (fold_right (fun s n => Nat.max (shapeDepth s) n) 0%nat srcs)
  end.

(** ** The query projection (package abstract) *)

Record SelectExprQP : Type := mkSelectExprQP {
  Col : SelectExpr;
  Aggr : bool
}.

Record GroupByQP : Type := mkGroupBy {
  gInner : Expr;
  gWeightStrExpr : Expr;
  DistinctAggrIndex : Z
}.

Record OrderByQP : Type := mkOrderBy {
  Inner : Order;
  WeightStrExpr : Expr
}.

Record QueryProjection : Type := mkQP {
  qSelectExprs : list SelectExprQP;
  HasAggr : bool;
  qDistinct : bool;
  GroupByExprs : list GroupByQP;
  OrderExprs : list OrderByQP;
  CanPushDownSorting : bool;
  HasStar : bool;
  ProjectionError : option error
}.

Definition QP_setGroupByExprs (q : QueryProjection) (g : list GroupByQP) : QueryProjection :=
  mkQP (qSelectExprs q) (HasAggr q) (qDistinct q) g (OrderExprs q)
       (CanPushDownSorting q) (HasStar q) (ProjectionError q).

(** ** Collaborators defined outside horizon_planning.go *)

Record Lib : Type := mkLib {
  (* evalengine.Convert: only its error is used *)
  evalengine_Convert : Expr -> SemTable -> option error;
  (* sqlparser *)
  RemoveKeyspaceFromColName : Expr -> Expr;
  sqlparser_String : SQLNode -> string;
  IsAggregation : Expr -> bool;
  ContainsAggregation : Expr -> bool;
  (* sqltypes, collations *)
  IsNumber : querypb_Type -> bool;
  collations_Unknown : CollationID;
  (* semantics *)
  ErrMultipleTables : error;
  RewriteDerivedExpression : Expr -> TableInfo -> result Expr;
  CopyDependencies : SemTable -> Expr -> Expr -> SemTable;
  IsSolvedBy : TableSet -> TableSet -> bool;
  (* abstract *)
  CreateQPFromSelect : Select -> SemTable -> result QueryProjection;
  NeedsAggregation : QueryProjection -> bool;
  NeedsDistinct : QueryProjection -> bool;
  notAliasedError : SelectExpr -> error;
  notAliasExprError : SelectExpr -> error;
  (* engine.SupportedAggregates *)
  SupportedAggregates : string -> option AggregateOpcode;
  (* planbuilder, other files *)
  planSingleShardRoutePlan : Select -> routeGen4 -> result routeGen4;
  isSingleShard : routeGen4 -> bool;
  ContainsTables : logicalPlan -> TableSet;
  breakExpressionInLHSandRHS :
    Expr -> SemTable -> TableSet -> result (list string * list Expr * Expr);
  SupplyProjection : vindexFunc -> AliasedExpr -> bool -> result (Z * vindexFunc);
  newFilter : SemTable -> logicalPlan -> Expr -> result logicalPlan;
  exprHasUniqueVindex : ContextVSchema -> SemTable -> Expr -> bool
}.

(** ** The driver's record *)

Record horizonPlanning : Type := mkHP {
  sel : Select;
  qp : option QueryProjection;
  needsTruncation : bool;
  vtgateGrouping : bool
}.

Definition hp_setQP (hp : horizonPlanning) (q : QueryProjection) : horizonPlanning :=
  mkHP (sel hp) (Some q) (needsTruncation hp) (vtgateGrouping hp).
Definition hp_setVtgateGrouping (hp : horizonPlanning) (b : bool) : horizonPlanning :=
  mkHP (sel hp) (qp hp) (needsTruncation hp) b.
Definition hp_setNeedsTruncation (hp : horizonPlanning) (b : bool) : horizonPlanning :=
  mkHP (sel hp) (qp hp) b (vtgateGrouping hp).

(** Reading through hp.qp: a nil pointer panics. *)
Definition hp_qp (hp : horizonPlanning) : result QueryProjection :=
  match qp hp with
  | Some q => OK q
  | None => Panic "nil pointer dereference"
  end.

(** func (hp *horizonPlanning) haveToTruncate(v bool) *)
Definition haveToTruncate (hp : horizonPlanning) (v : bool) : horizonPlanning :=
  hp_setNeedsTruncation hp (needsTruncation hp || v).

(** ** The planner *)

Section Planner.

Variable L : Lib.

(** Modelled from the spec: abstract.SelectExpr.GetAliasedExpr, the
    "canonical aliased form" of a select item: the item's aliased expression, an
    error for any other kind of select expression. *)
Definition GetAliasedExpr (e : SelectExprQP) : result AliasedExpr :=
  match Col e with
  | SelAliased ex al => OK (mkAliased ex al)
  | other => Err (notAliasedError L other)
  end.

(** Modelled from the spec: abstract.SelectExpr.GetExpr, the expression of
    the item's aliased form. *)
Definition GetExpr (e : SelectExprQP) : result Expr :=
  match Col e with
  | SelAliased ex _ => OK ex
  | other => Err (notAliasExprError L other)
  end.

(** The loop [for idx, col := range cols { if column == col { return idx } }]. *)
Fixpoint findCol (column : Z) (idx : Z) (cols : list Z) : option Z :=
  match cols with
  | [] => None
  | col :: rest => if column =? col then Some idx else findCol column (idx + 1) rest
  end.

Definition len {A : Type} (l : list A) : Z := Z.of_nat (length l).

(** rewriteProjectionOfDerivedTable, after the test of the error: the
    expression is rewritten when the table is a derived table. *)
Definition rewriteIfDerivedTable (expr : AliasedExpr) (ti : option TableInfo)
  : result AliasedExpr :=
  match ti with
  | Some (DerivedTable id) =>
      e' ← RewriteDerivedExpression L (aExpr expr) (DerivedTable id);
      OK (mkAliased e' (aAs expr))
  | _ => OK expr
  end.

(** func rewriteProjectionOfDerivedTable *)
Definition rewriteProjectionOfDerivedTable (expr : AliasedExpr) (semTable : SemTable)
  : result AliasedExpr :=
  let '(ti, err) := TableInfoForExpr semTable (aExpr expr) in
  match err with
  | Some e =>
      if negb (bool_decide (e = ErrMultipleTables L)) then Err e
      else rewriteIfDerivedTable expr ti
  | None => rewriteIfDerivedTable expr ti
  end.

(** The body of the loop of checkIfAlreadyExists at index [i]; [rest] are the
    select expressions from [i] on. *)
Fixpoint checkIfAlreadyExists_from (expr : AliasedExpr) (exprDep : TableSet)
    (semTable : SemTable) (i : Z) (rest : list SelectExpr) : Z :=
  match rest with
  | [] => -1
  | selectExpr :: rest' =>
      match selectExpr with
      | SelAliased se sas =>
          let selectExprDep := RecursiveDeps semTable se in
          if negb (N.eqb selectExprDep exprDep) then
            checkIfAlreadyExists_from expr exprDep semTable (i + 1) rest'
          else if ColIdent_IsEmpty sas then
            match se, aExpr expr with
            | ColName sn _, ColName en _ =>
                if ColIdent_Equal en sn then i
                else if EqualsExpr se (aExpr expr) then i
                else checkIfAlreadyExists_from expr exprDep semTable (i + 1) rest'
            | _, _ =>
                if EqualsExpr se (aExpr expr) then i
                else checkIfAlreadyExists_from expr exprDep semTable (i + 1) rest'
            end
          else
            match aExpr expr with
            | ColName en _ =>
                if ColIdent_Equal sas en then i
                else checkIfAlreadyExists_from expr exprDep semTable (i + 1) rest'
            | _ => checkIfAlreadyExists_from expr exprDep semTable (i + 1) rest'
            end
      | _ => checkIfAlreadyExists_from expr exprDep semTable (i + 1) rest'
      end
  end.

(** func checkIfAlreadyExists *)
Definition checkIfAlreadyExists (expr : AliasedExpr) (node : SelectStatement)
    (semTable : SemTable) : Z :=
  let exprDep := RecursiveDeps semTable (aExpr expr) in
  let sel := GetFirstSelect node in
  checkIfAlreadyExists_from expr exprDep semTable 0 (SelectExprs sel).

(** The error of the non-preserved side of an outer join. *)
Definition errLeftJoinColumnExpr : error :=
  vterrors_New Code_UNIMPLEMENTED "unsupported: cross-shard left join and column expressions".

(** pushProjection, case *routeGen4: the pre-validation by evalengine.Convert. *)
Definition routeConvertCheck (expr : AliasedExpr) (semTable : SemTable) (inner : bool)
  : result unit :=
  if IsColName (aExpr expr) then OK tt
  else
    match evalengine_Convert L (aExpr expr) semTable with
    | None => OK tt
    | Some err =>
        if negb (bool_decide (vterrors_Code err = Code_UNIMPLEMENTED)) then Err err
        else if negb inner then Err errLeftJoinColumnExpr
        else OK tt
    end.

(** pushProjection, case *routeGen4, after the pre-validation: reuse or append. *)
Definition routeReuseOrAppend (expr : AliasedExpr) (node : routeGen4) (semTable : SemTable)
    (reuseCol : bool) : result (Z * bool * routeGen4) :=
  let i := if reuseCol then checkIfAlreadyExists expr (rSelect node) semTable else -1 in
  if reuseCol && negb (i =? -1) then OK (i, false, node)
  else
    let expr1 := mkAliased (RemoveKeyspaceFromColName L (aExpr expr)) (aAs expr) in
    match rSelect node with
    | StmtSelect sel =>
        expr2 ← rewriteProjectionOfDerivedTable expr1 semTable;
        let offset := len (SelectExprs sel) in
        OK (offset, true,
            route_setSelect node
              (StmtSelect (Select_setSelectExprs sel (SelectExprs sel ++ [SelOfAliased expr2]))))
    | StmtUnion _ _ _ _ =>
        Err (vterrors_NewErrorf Code_INVALID_ARGUMENT BadFieldError
               ("Unknown column '" +:+ sqlparser_String L (NodeAliased expr1) +:+ "' in 'order clause'"))
    end.

(** pushProjection, case *routeGen4 *)
Definition pushProjection_route (expr : AliasedExpr) (node : routeGen4) (semTable : SemTable)
    (inner reuseCol : bool) : result (Z * bool * routeGen4) :=
  _ ← routeConvertCheck expr semTable inner;
  routeReuseOrAppend expr node semTable reuseCol.

(** The tail shared by the join cases: reuse an existing entry of Cols when
    nothing was appended below, else append the signed column. *)
Definition joinColumn (reuseCol appended : bool) (column : Z) (cols : list Z)
  : Z * bool * list Z :=
  match (if reuseCol && negb appended then findCol column 0 cols else None) with
  | Some idx => (idx, false, cols)
  | None => (len (cols ++ [column]) - 1, true, cols ++ [column])
  end.

(** pushProjection, case *orderedAggregate: the loop over the aggregates. *)
Fixpoint findAggregate (expr : AliasedExpr) (aggrs : list AggregateParams) : option Z :=
  match aggrs with
  | [] => None
  | aggregate :: rest =>
      if EqualsExprOpt (agExpr aggregate) (Some (aExpr expr)) then Some (agCol aggregate)
      else
        match aExpr expr with
        | ColName name _ =>
            if ColIdent_EqualString name (agAlias aggregate) then Some (agCol aggregate)
            else findAggregate expr rest
        | _ => findAggregate expr rest
        end
  end.

Definition pushSig : Type :=
  AliasedExpr -> logicalPlan -> SemTable -> bool -> bool -> bool ->
  result (Z * bool * logicalPlan).

(** pushProjection, case *joinGen4, default branch: the loop pushing the
    left-hand columns and recording their offsets in node.Vars. *)
Fixpoint pushLHSColumns (self : pushSig) (bvName : list string) (cols : list Expr)
    (left : logicalPlan) (vars : gmap string Z) (semTable : SemTable) (inner : bool)
    {struct cols} : result (logicalPlan * gmap string Z) :=
  match cols with
  | [] => OK (left, vars)
  | col :: cols' =>
      '(colOffset, _, left') ← self (AliasedOf col) left semTable inner true false;
      match bvName with
      | [] => Panic "index out of range"
      | bv :: bvName' =>
          pushLHSColumns self bvName' cols' left' (<[bv := colOffset]> vars) semTable inner
      end
  end.

Definition passDown (expr : AliasedExpr) (reuseCol : bool) : bool :=
  if negb reuseCol then ColIdent_IsEmpty (aAs expr) else reuseCol.

(** pushProjection, case *routeGen4: the expression that the case leaves in
    the AliasedExpr of the caller.  A reused column returns before any
    assignment; otherwise [expr.Expr] is assigned the expression without
    keyspace qualifier and then, on a plain SELECT, the expression rewritten
    for a derived table. *)
Definition pushedExpr_route (expr : AliasedExpr) (node : routeGen4) (semTable : SemTable)
    (inner reuseCol : bool) : AliasedExpr :=
  match routeConvertCheck expr semTable inner with
  | OK _ =>
      if reuseCol && negb (checkIfAlreadyExists expr (rSelect node) semTable =? -1) then expr
      else
        let expr1 := mkAliased (RemoveKeyspaceFromColName L (aExpr expr)) (aAs expr) in
        match rSelect node with
        | StmtSelect _ =>
            match rewriteProjectionOfDerivedTable expr1 semTable with
            | OK expr2 => expr2
            | _ => expr1
            end
        | StmtUnion _ _ _ _ => expr1
        end
  | _ => expr
  end.

(** func pushProjection, the effect on its argument: pushProjection assigns
    [expr.Expr] in place, so that after the call the caller holds the
    expression as the route that received it installed it.  [pushedExpr] is
    that expression; it follows the cases of pushProjection down to the route
    that the expression reaches.  In the default branch of the join case the
    left-hand columns are pushed in AliasedExprs of their own, and [expr.Expr]
    is assigned the rewritten expression before the push to the right.  The
    cases of the ordered aggregate and of the vindex function assign nothing
    in this file. *)
Fixpoint pushedExpr (expr : AliasedExpr) (plan : logicalPlan) (semTable : SemTable)
    (inner reuseCol hasAggregation : bool) {struct plan} : AliasedExpr :=
  match plan with
  | PRoute node => pushedExpr_route expr node semTable inner reuseCol
  | PHashJoin Left Right node =>
      let deps := RecursiveDeps semTable (aExpr expr) in
      let passDownReuseCol := passDown expr reuseCol in
      if IsSolvedBy L deps (ContainsTables L Left) then
        pushedExpr expr Left semTable inner passDownReuseCol hasAggregation
      else if IsSolvedBy L deps (ContainsTables L Right) then
        pushedExpr expr Right semTable
          (inner && negb (bool_decide (hOpcode node = LeftJoin)))
          passDownReuseCol hasAggregation
      else expr
  | PJoin Left Right node =>
      let deps := RecursiveDeps semTable (aExpr expr) in
      let passDownReuseCol := passDown expr reuseCol in
      if IsSolvedBy L deps (ContainsTables L Left) then
        pushedExpr expr Left semTable inner passDownReuseCol hasAggregation
      else if IsSolvedBy L deps (ContainsTables L Right) then
        pushedExpr expr Right semTable
          (inner && negb (bool_decide (jOpcode node = LeftJoin)))
          passDownReuseCol hasAggregation
      else if hasAggregation then expr
      else
        match breakExpressionInLHSandRHS L (aExpr expr) semTable (ContainsTables L Left) with
        | OK (_, _, rewrittenExpr) =>
            pushedExpr (mkAliased rewrittenExpr (aAs expr)) Right semTable
              (inner && negb (bool_decide (jOpcode node = LeftJoin)))
              passDownReuseCol false
        | _ => expr
        end
  | PPulloutSubquery _ underlying =>
      pushedExpr expr underlying semTable inner reuseCol hasAggregation
  | PSimpleProjection input _ => pushedExpr expr input semTable inner true hasAggregation
  | PLimit input | PDistinct input =>
      pushedExpr expr input semTable inner reuseCol hasAggregation
  | PSemiJoin lhs _ _ =>
      pushedExpr expr lhs semTable inner (passDown expr reuseCol) hasAggregation
  | PConcatenate (source0 :: _) =>
      if hasAggregation then expr
      else pushedExpr expr source0 semTable inner reuseCol hasAggregation
  | _ => expr
  end.

(** func pushProjection: one unfolding of the function, recursive calls going
    through [self]. *)
Definition pushProjection_body (self : pushSig) (expr : AliasedExpr) (plan : logicalPlan)
    (semTable : SemTable) (inner reuseCol hasAggregation : bool)
  : result (Z * bool * logicalPlan) :=
  match plan with
  | PRoute node =>
      '(offset, added, node') ← pushProjection_route expr node semTable inner reuseCol;
      OK (offset, added, PRoute node')
  | PHashJoin Left Right node =>
      let lhsSolves := ContainsTables L Left in
      let rhsSolves := ContainsTables L Right in
      let deps := RecursiveDeps semTable (aExpr expr) in
      let passDownReuseCol := passDown expr reuseCol in
      '(column, appended, Left', Right') ←
        (if IsSolvedBy L deps lhsSolves then
           '(offset, added, Left') ←
             self expr Left semTable inner passDownReuseCol hasAggregation;
           OK (- (offset + 1), added, Left', Right)
         else if IsSolvedBy L deps rhsSolves then
           '(offset, added, Right') ←
             self expr Right semTable
                  (inner && negb (bool_decide (hOpcode node = LeftJoin)))
                  passDownReuseCol hasAggregation;
           OK (offset + 1, added, Left, Right')
         else if hasAggregation then
           Err (vterrors_New Code_UNIMPLEMENTED "unsupported: cross-shard query with aggregates")
         else
           Err (vterrors_New Code_UNIMPLEMENTED
                  "unsupported: hash join with projection from both sides of the join"));
      let '(idx, added, cols') := joinColumn reuseCol appended column (hCols node) in
      OK (idx, added, PHashJoin Left' Right' (mkHashJoin (hOpcode node) cols'))
  | PJoin Left Right node =>
      let lhsSolves := ContainsTables L Left in
      let rhsSolves := ContainsTables L Right in
      let deps := RecursiveDeps semTable (aExpr expr) in
      let passDownReuseCol := passDown expr reuseCol in
      '(column, appended, Left', Right', vars') ←
        (if IsSolvedBy L deps lhsSolves then
           '(offset, added, Left') ←
             self expr Left semTable inner passDownReuseCol hasAggregation;
           OK (- (offset + 1), added, Left', Right, jVars node)
         else if IsSolvedBy L deps rhsSolves then
           '(offset, added, Right') ←
             self expr Right semTable
                  (inner && negb (bool_decide (jOpcode node = LeftJoin)))
                  passDownReuseCol hasAggregation;
           OK (offset + 1, added, Left, Right', jVars node)
         else if hasAggregation then
           Err (vterrors_New Code_UNIMPLEMENTED "unsupported: cross-shard query with aggregates")
         else
           '(bvName, cols, rewrittenExpr) ←
             breakExpressionInLHSandRHS L (aExpr expr) semTable lhsSolves;
           '(Left', vars') ←
             pushLHSColumns self bvName cols Left (jVars node) semTable inner;
           '(offset, added, Right') ←
             self (mkAliased rewrittenExpr (aAs expr)) Right semTable
                  (inner && negb (bool_decide (jOpcode node = LeftJoin)))
                  passDownReuseCol false;
           OK (offset + 1, added, Left', Right', vars'));
      let '(idx, added, cols') := joinColumn reuseCol appended column (jCols node) in
      OK (idx, added, PJoin Left' Right' (mkJoin (jOpcode node) cols' vars'))
  | PPulloutSubquery subquery underlying =>
      '(offset, added, underlying') ←
        self expr underlying semTable inner reuseCol hasAggregation;
      OK (offset, added, PPulloutSubquery subquery underlying')
  | PSimpleProjection input cols =>
      '(offset, _, input') ← self expr input semTable inner true hasAggregation;
      match (if reuseCol then findCol offset 0 cols else None) with
      | Some i => OK (i, false, PSimpleProjection input' cols)
      | None => OK (len (cols ++ [offset]) - 1, true, PSimpleProjection input' (cols ++ [offset]))
      end
  | POrderedAggregate input eaggr =>
      match findAggregate expr (Aggregates eaggr) with
      | Some col => OK (col, false, plan)
      | None =>
          Err (vterrors_New Code_INTERNAL "cannot push projections in ordered aggregates")
      end
  | PVindexFunc node =>
      let colsBefore := len (vfCols node) in
      '(i, node') ← SupplyProjection L node expr reuseCol;
      OK (i, colsBefore <? len (vfCols node'), PVindexFunc node')
  | PLimit input =>
      '(offset, added, input') ← self expr input semTable inner reuseCol hasAggregation;
      OK (offset, added, PLimit input')
  | PDistinct input =>
      '(offset, added, input') ← self expr input semTable inner reuseCol hasAggregation;
      OK (offset, added, PDistinct input')
  | PSemiJoin lhs rhs cols =>
      let passDownReuseCol := passDown expr reuseCol in
      '(offset, added, lhs') ←
        self expr lhs semTable inner passDownReuseCol hasAggregation;
      let column := - (offset + 1) in
      let '(idx, added', cols') := joinColumn reuseCol added column cols in
      OK (idx, added', PSemiJoin lhs' rhs cols')
  | PConcatenate sources =>
      if hasAggregation then
        Err (vterrors_New Code_UNIMPLEMENTED "unsupported: aggregation on unions")
      else
        match sources with
        | [] => Panic "index out of range"
        | source0 :: others =>
            '(offset, added, source0') ←
              self expr source0 semTable inner reuseCol hasAggregation;
            if (added : bool) then
              Err (vterrors_New Code_INTERNAL
                     ("pushing projection "
                      +:+ sqlparser_String L
                            (NodeAliased
                               (pushedExpr expr source0 semTable inner reuseCol hasAggregation))
                      +:+ " on concatenate should reference an existing column"))
            else OK (offset, false, PConcatenate (source0' :: others))
        end
  | _ =>
      Err (vterrors_New Code_UNIMPLEMENTED
             ("[BUG] push projection does not yet support: " +:+ typeName plan))
  end.

(** The recursion of pushProjection descends one level of the plan per call;
    [fuel] bounds the nesting. *)
Fixpoint pushProjection_rec (fuel : nat) : pushSig :=
  match fuel with
  | O => fun _ _ _ _ _ _ => Diverge
  | S n => pushProjection_body (pushProjection_rec n)
  end.

(** func pushProjection *)
Definition pushProjection : pushSig :=
  fun expr plan => pushProjection_rec (S (depth plan)) expr plan.

(** func pushProjections.  The result is the plan: the rewriting that
    pushProjection applies to a pushed expression is visible in the route
    that receives it, and [pushedExpr] gives the expression that the select
    item holds afterwards. *)
Fixpoint pushProjections (ctx : planningContext) (plan : logicalPlan)
    (selectExprs : list SelectExprQP) : result logicalPlan :=
  match selectExprs with
  | [] => OK plan
  | e :: rest =>
      aliasExpr ← GetAliasedExpr e;
      '(_, _, plan') ← pushProjection aliasExpr plan (semTable ctx) true false false;
      pushProjections ctx plan' rest
  end.

(** func (hp *horizonPlanning) truncateColumnsIfNeeded, after the test of
    hp.needsTruncation. *)
Fixpoint truncateColumns (count : Z) (plan : logicalPlan) : result logicalPlan :=
  match plan with
  | PRoute p =>
      OK (PRoute (route_setEroute p
                    (mkERoute (rOpcode (eroute p)) (rOrderBy (eroute p)) count)))
  | PJoin _ _ _ | PSemiJoin _ _ _ | PHashJoin _ _ _ => OK plan
  | POrderedAggregate input eaggr =>
      OK (POrderedAggregate input
            (mkEAggr (PreProcess eaggr) (Aggregates eaggr) (GroupByKeys eaggr) count))
  | PMemorySort input ems =>
      OK (PMemorySort input (mkEMemorySort (mOrderBy ems) count))
  | PPulloutSubquery subquery underlying =>
      underlying' ← truncateColumns count underlying;
      OK (PPulloutSubquery subquery underlying')
  | PFilter input predicate =>
      input' ← truncateColumns count input;
      OK (PFilter input' predicate)
  | _ =>
      Err (vterrors_New Code_INTERNAL
             ("plan type not known for column truncation: " +:+ typeName plan))
  end.

(** func (hp *horizonPlanning) truncateColumnsIfNeeded *)
Definition truncateColumnsIfNeeded (hp : horizonPlanning) (plan : logicalPlan)
  : result logicalPlan :=
  if negb (needsTruncation hp) then OK plan
  else truncateColumns (Select_GetColumnCount (sel hp)) plan.

(** The error of a weight string asked for a complex expression. *)
Definition errComplexOrderBy (expr : Expr) : error :=
  vterrors_New Code_UNIMPLEMENTED
    ("unsupported: in scatter query: complex order by expression: "
     +:+ sqlparser_String L (NodeExpr expr)).

(** wrapAndPushExpr: the expression whose type decides on the weight string:
    the column itself, or the column under a unary operator. *)
Definition weightStringColumn (expr : Expr) : result Expr :=
  if IsColName expr then OK expr
  else
    match expr with
    | UnaryExpr _ inner => if IsColName inner then OK inner else Err (errComplexOrderBy expr)
    | _ => Err (errComplexOrderBy expr)
    end.

(** func wrapAndPushExpr: (expr offset, weight_string offset, column added). *)
Definition wrapAndPushExpr (expr : Expr) (weightStrExpr : option Expr) (plan : logicalPlan)
    (semTable : SemTable) : result (Z * Z * bool * logicalPlan) :=
  '(offset, added, plan1) ← pushProjection (AliasedOf expr) plan semTable true true false;
  match weightStrExpr with
  | None => OK (offset, -1, added, plan1)
  | Some ws =>
      expr' ← weightStringColumn expr;
      let qt := TypeFor semTable expr' in
      let wsNeeded :=
        match qt with
        | Some t => if IsNumber L t then false else true
        | None => true
        end in
      if wsNeeded then
        '(weightStringOffset, wAdded, plan2) ←
          pushProjection (AliasedOf (weightStringFor ws)) plan1 semTable true true false;
        OK (offset, weightStringOffset, added || wAdded, plan2)
      else OK (offset, -1, added || false, plan1)
  end.

(** func hasUniqueVindex *)
Definition hasUniqueVindex (vs : ContextVSchema) (semTable : SemTable)
    (groupByExprs : list GroupByQP) : bool :=
  existsb (fun groupByExpr => exprHasUniqueVindex L vs semTable (gWeightStrExpr groupByExpr))
          groupByExprs.

(** Writing the weight-string column of Aggregates[idx]. *)
Definition setAggregateWCol (aggrs : list AggregateParams) (idx : Z) (wsOffset : Z)
  : result (list AggregateParams) :=
  if idx <? 0 then Panic "index out of range"
  else
    match aggrs !! Z.to_nat idx with
    | None => Panic "index out of range"
    | Some a =>
        OK (<[Z.to_nat idx := mkAggregateParams (agOpcode a) (agCol a) (agAlias a)
                                 (agExpr a) true wsOffset]> aggrs)
    end.

Definition groupBySig : Type :=
  GroupByQP -> logicalPlan -> SemTable -> bool -> result (bool * logicalPlan).

(** func planGroupByGen4: one unfolding, recursive calls through [self]. *)
Definition planGroupByGen4_body (self : groupBySig) (groupExpr : GroupByQP)
    (plan : logicalPlan) (semTable : SemTable) (wsAdded : bool)
  : result (bool * logicalPlan) :=
  match plan with
  | PRoute node =>
      match rSelect node with
      | StmtSelect sel =>
          let groupBy1 := GroupBy sel ++ [gInner groupExpr] in
          let groupBy2 :=
            if wsAdded then groupBy1 ++ [weightStringFor (gWeightStrExpr groupExpr)]
            else groupBy1 in
          OK (false, PRoute (route_setSelect node (StmtSelect (Select_setGroupBy sel groupBy2))))
      | StmtUnion _ _ _ _ => Panic "interface conversion: not *sqlparser.Select"
      end
  | PJoin _ _ _ | PHashJoin _ _ _ =>
      '(_, _, added, plan') ←
        wrapAndPushExpr (gInner groupExpr) (Some (gWeightStrExpr groupExpr)) plan semTable;
      OK (added, plan')
  | POrderedAggregate input eaggr =>
      '(keyCol, wsOffset, colAdded, input1) ←
        wrapAndPushExpr (gInner groupExpr) (Some (gWeightStrExpr groupExpr)) input semTable;
      eaggr' ←
        (if DistinctAggrIndex groupExpr =? 0 then
           OK (mkEAggr (PreProcess eaggr) (Aggregates eaggr)
                 (GroupByKeys eaggr ++
                    [mkGroupByParams keyCol wsOffset (Some (gWeightStrExpr groupExpr))
                       (CollationFor semTable (gInner groupExpr))])
                 (aTruncateColumnCount eaggr))
         else if negb (wsOffset =? -1) then
           aggrs' ← setAggregateWCol (Aggregates eaggr) (DistinctAggrIndex groupExpr - 1) wsOffset;
           OK (mkEAggr (PreProcess eaggr) aggrs' (GroupByKeys eaggr) (aTruncateColumnCount eaggr))
         else OK eaggr);
      '(colAddedRecursively, input2) ← self groupExpr input1 semTable (negb (wsOffset =? -1));
      OK (colAdded || colAddedRecursively, POrderedAggregate input2 eaggr')
  | PPulloutSubquery subquery underlying =>
      '(added, underlying') ← self groupExpr underlying semTable wsAdded;
      OK (added, PPulloutSubquery subquery underlying')
  | PSemiJoin _ _ _ =>
      Err (vterrors_New Code_UNIMPLEMENTED
             "unsupported: group by in a query having a correlated subquery")
  | _ =>
      Err (vterrors_New Code_UNIMPLEMENTED ("unsupported: group by on: " +:+ typeName plan))
  end.

Fixpoint planGroupByGen4_rec (fuel : nat) : groupBySig :=
  match fuel with
  | O => fun _ _ _ _ => Diverge
  | S n => planGroupByGen4_body (planGroupByGen4_rec n)
  end.

(** func planGroupByGen4 *)
Definition planGroupByGen4 : groupBySig :=
  fun groupExpr plan => planGroupByGen4_rec (S (depth plan)) groupExpr plan.

(** func isSpecialOrderBy *)
Definition isSpecialOrderBy (o : OrderByQP) : bool :=
  if IsNull (oExpr (Inner o)) then true
  else
    match oExpr (Inner o) with
    | FuncExpr name _ _ => String.eqb (ColIdent_Lowered name) "rand"
    | _ => false
    end.

(** func checkOrderExprCanBePlannedInScatter *)
Definition checkOrderExprCanBePlannedInScatter (plan : routeGen4) (order : OrderByQP)
    (hasStar : bool) : result unit :=
  if negb hasStar then OK tt
  else
    let sel := GetFirstSelect (rSelect plan) in
    let found :=
      existsb (fun expr =>
                 match expr with
                 | SelAliased e _ => EqualsExpr e (oExpr (Inner order))
                 | _ => false
                 end) (SelectExprs sel) in
    if negb found then
      Err (vterrors_New Code_UNIMPLEMENTED
             ("unsupported: in scatter query: order by must reference a column in the select list: "
              +:+ sqlparser_String L (NodeOrder (Inner order))))
    else OK tt.

(** The route a push onto a route hands back. *)
Definition asRoute (p : logicalPlan) : result routeGen4 :=
  match p with
  | PRoute r => OK r
  | _ => Panic "not a route"
  end.

Definition isDesc (o : Order) : bool :=
  match oDirection o with DescOrder => true | AscOrder => false end.

(** planOrderByForRoute: the loop over the order expressions. *)
Fixpoint planOrderByForRoute_loop (orderExprs : list OrderByQP) (plan : routeGen4)
    (semTable : SemTable) (hasStar : bool) : result routeGen4 :=
  match orderExprs with
  | [] => OK plan
  | order :: rest =>
      _ ← checkOrderExprCanBePlannedInScatter plan order hasStar;
      let plan1 := route_setSelect plan (AddOrder (rSelect plan) (Inner order)) in
      if isSpecialOrderBy order then planOrderByForRoute_loop rest plan1 semTable hasStar
      else
        '(offset, weightStringOffset, _, p2) ←
          wrapAndPushExpr (oExpr (Inner order)) (Some (WeightStrExpr order)) (PRoute plan1) semTable;
        plan2 ← asRoute p2;
        let params :=
          mkOrderByParams offset weightStringOffset (isDesc (Inner order)) 0
            (CollationFor semTable (oExpr (Inner order))) in
        let plan3 :=
          route_setEroute plan2
            (mkERoute (rOpcode (eroute plan2)) (rOrderBy (eroute plan2) ++ [params])
               (rTruncateColumnCount (eroute plan2))) in
        planOrderByForRoute_loop rest plan3 semTable hasStar
  end.

(** func planOrderByForRoute *)
Definition planOrderByForRoute (orderExprs : list OrderByQP) (plan : routeGen4)
    (semTable : SemTable) (hasStar : bool) : result (routeGen4 * bool) :=
  let origColCount := GetColumnCount (rSelect plan) in
  plan' ← planOrderByForRoute_loop orderExprs plan semTable hasStar;
  OK (plan', negb (origColCount =? GetColumnCount (rSelect plan'))).

(** createMemorySortPlan: the loop over the order expressions. *)
Fixpoint createMemorySortPlan_loop (hp : horizonPlanning) (ctx : planningContext)
    (plan : logicalPlan) (orderExprs : list OrderByQP) (useWeightStr : bool)
    (orderBy : list OrderByParams)
  : result (logicalPlan * list OrderByParams * horizonPlanning) :=
  match orderExprs with
  | [] => OK (plan, orderBy, hp)
  | order :: rest =>
      let wsExpr := if negb useWeightStr then None else Some (WeightStrExpr order) in
      '(offset, weightStringOffset, added, plan') ←
        wrapAndPushExpr (oExpr (Inner order)) wsExpr plan (semTable ctx);
      let hp' := haveToTruncate hp added in
      let params :=
        mkOrderByParams offset weightStringOffset (isDesc (Inner order)) offset
          (CollationFor (semTable ctx) (oExpr (Inner order))) in
      createMemorySortPlan_loop hp' ctx plan' rest useWeightStr (orderBy ++ [params])
  end.

(** func (hp *horizonPlanning) createMemorySortPlan *)
Definition createMemorySortPlan (hp : horizonPlanning) (ctx : planningContext)
    (plan : logicalPlan) (orderExprs : list OrderByQP) (useWeightStr : bool)
  : result (logicalPlan * horizonPlanning) :=
  '(plan', orderBy, hp') ←
    createMemorySortPlan_loop hp ctx plan orderExprs useWeightStr (mOrderBy empty_MemorySort);
  OK (PMemorySort plan' (mkEMemorySort orderBy (mTruncateColumnCount empty_MemorySort)), hp').

(** findExprInOrderedAggr: the two loops. *)
Fixpoint findInGroupByKeys (ws : Expr) (idx : Z) (keys : list GroupByParams)
  : option (Z * Z * Z) :=
  match keys with
  | [] => None
  | key :: rest =>
      if EqualsExprOpt (Some ws) (gbExpr key) then Some (KeyCol key, WeightStringCol key, idx)
      else findInGroupByKeys ws (idx + 1) rest
  end.

Fixpoint findInAggregates (ws : Expr) (idx : Z) (aggrs : list AggregateParams)
  : option (Z * Z * Z) :=
  match aggrs with
  | [] => None
  | aggregate :: rest =>
      if EqualsExprOpt (Some ws) (agExpr aggregate) then Some (agCol aggregate, -1, idx)
      else findInAggregates ws (idx + 1) rest
  end.

(** func findExprInOrderedAggr: (keyCol, weightStringCol, index) when found. *)
Definition findExprInOrderedAggr (eaggr : engine_OrderedAggregate) (order : OrderByQP)
  : option (Z * Z * Z) :=
  match findInGroupByKeys (WeightStrExpr order) 0 (GroupByKeys eaggr) with
  | Some r => Some r
  | None => findInAggregates (WeightStrExpr order) 0 (Aggregates eaggr)
  end.

Fixpoint createMemorySortPlanOnAggregation_loop (eaggr : engine_OrderedAggregate)
    (orderExprs : list OrderByQP) (orderBy : list OrderByParams)
  : result (list OrderByParams) :=
  match orderExprs with
  | [] => OK orderBy
  | order :: rest =>
      match findExprInOrderedAggr eaggr order with
      | None =>
          Err (vterrors_New Code_INTERNAL
                 ("expected to find the order by expression ("
                  +:+ sqlparser_String L (NodeOrder (Inner order)) +:+ ") in orderedAggregate"))
      | Some (offset, woffset, idx) =>
          collationID ←
            (if negb (woffset =? -1) then
               match GroupByKeys eaggr !! Z.to_nat idx with
               | Some key => OK (gbCollationID key)
               | None => Panic "index out of range"
               end
             else OK (collations_Unknown L));
          let params :=
            mkOrderByParams offset woffset (isDesc (Inner order)) offset collationID in
          createMemorySortPlanOnAggregation_loop eaggr rest (orderBy ++ [params])
      end
  end.

(** func createMemorySortPlanOnAggregation *)
Definition createMemorySortPlanOnAggregation (input : logicalPlan)
    (eaggr : engine_OrderedAggregate) (orderExprs : list OrderByQP) : result logicalPlan :=
  orderBy ← createMemorySortPlanOnAggregation_loop eaggr orderExprs [];
  OK (PMemorySort (POrderedAggregate input eaggr) (mkEMemorySort orderBy 0)).

(** func orderExprsDependsOnTableSet *)
Definition orderExprsDependsOnTableSet (orderExprs : list OrderByQP) (semTable : SemTable)
    (ts : TableSet) : bool :=
  forallb (fun expr => IsSolvedBy L (RecursiveDeps semTable (oExpr (Inner expr))) ts) orderExprs.

(** [len(orderExprs) == 1 && isSpecialOrderBy(orderExprs[0])] *)
Definition onlySpecialOrderBy (orderExprs : list OrderByQP) : bool :=
  match orderExprs with
  | [o] => isSpecialOrderBy o
  | _ => false
  end.

(** func (hp *horizonPlanning) planOrderBy, with planOrderByForJoin and
    planOrderByForHashJoin in their cases.  For limit, semiJoin, filter and
    pulloutSubquery the first of plan.Inputs() is planned and put back by
    plan.Rewrite. *)
Fixpoint planOrderBy (hp : horizonPlanning) (ctx : planningContext)
    (orderExprs : list OrderByQP) (plan : logicalPlan) {struct plan}
  : result (logicalPlan * horizonPlanning) :=
  match plan with
  | PRoute node =>
      q ← hp_qp hp;
      '(newPlan, truncate) ← planOrderByForRoute orderExprs node (semTable ctx) (HasStar q);
      OK (PRoute newPlan, haveToTruncate hp truncate)
  | PJoin Left Right node =>
      if onlySpecialOrderBy orderExprs then
        '(lhs, hp1) ← planOrderBy hp ctx orderExprs Left;
        '(rhs, hp2) ← planOrderBy hp1 ctx orderExprs Right;
        OK (PJoin lhs rhs node, hp2)
      else if orderExprsDependsOnTableSet orderExprs (semTable ctx) (ContainsTables L Left) then
        '(newLeft, hp1) ← planOrderBy hp ctx orderExprs Left;
        OK (PJoin newLeft Right node, hp1)
      else createMemorySortPlan hp ctx plan orderExprs true
  | PHashJoin Left Right node =>
      if onlySpecialOrderBy orderExprs then
        '(rhs, hp1) ← planOrderBy hp ctx orderExprs Right;
        OK (PHashJoin Left rhs node, hp1)
      else if orderExprsDependsOnTableSet orderExprs (semTable ctx) (ContainsTables L Right) then
        '(newRight, hp1) ← planOrderBy hp ctx orderExprs Right;
        OK (PHashJoin Left newRight node, hp1)
      else createMemorySortPlan hp ctx plan orderExprs true
  | POrderedAggregate input eaggr =>
      let orderExprsWithoutNils :=
        List.filter (fun expr => negb (IsNull (oExpr (Inner expr)))) orderExprs in
      if existsb (fun order => ContainsAggregation L (WeightStrExpr order)) orderExprsWithoutNils
      then
        ms ← createMemorySortPlanOnAggregation input eaggr orderExprsWithoutNils;
        OK (ms, hp)
      else
        '(newInput, hp1) ← planOrderBy hp ctx orderExprsWithoutNils input;
        OK (POrderedAggregate newInput eaggr, hp1)
  | PMemorySort _ _ => OK (plan, hp)
  | PSimpleProjection _ _ => createMemorySortPlan hp ctx plan orderExprs true
  | PVindexFunc _ => createMemorySortPlan hp ctx plan orderExprs false
  | PLimit input =>
      '(newFirstInput, hp1) ← planOrderBy hp ctx orderExprs input;
      OK (PLimit newFirstInput, hp1)
  | PSemiJoin lhs rhs cols =>
      '(newFirstInput, hp1) ← planOrderBy hp ctx orderExprs lhs;
      OK (PSemiJoin newFirstInput rhs cols, hp1)
  | PFilter input predicate =>
      '(newFirstInput, hp1) ← planOrderBy hp ctx orderExprs input;
      OK (PFilter newFirstInput predicate, hp1)
  | PPulloutSubquery subquery underlying =>
      '(newFirstInput, hp1) ← planOrderBy hp ctx orderExprs underlying;
      OK (PPulloutSubquery subquery newFirstInput, hp1)
  | _ =>
      Err (vterrors_New Code_UNIMPLEMENTED ("ordering on complex query " +:+ typeName plan))
  end.

(** func (hp *horizonPlanning) planGroupByUsingOrderBy *)
Definition planGroupByUsingOrderBy (hp : horizonPlanning) (ctx : planningContext)
    (plan : logicalPlan) : result (logicalPlan * horizonPlanning) :=
  q ← hp_qp hp;
  let orderExprs :=
    flat_map (fun groupExpr =>
                if existsb (fun orderExpr => EqualsExpr (gInner groupExpr) (oExpr (Inner orderExpr)))
                           (OrderExprs q)
                then []
                else [mkOrderBy (mkOrder (gInner groupExpr) AscOrder) (gWeightStrExpr groupExpr)])
             (GroupByExprs q) in
  if 0 <? len orderExprs then planOrderBy hp ctx orderExprs plan
  else OK (plan, hp).

(** func isAmbiguousOrderBy: the loop, [i] being the index of the head of [exprs]. *)
Fixpoint isAmbiguousOrderBy_from (index : Z) (col : ColIdent) (i : Z)
    (exprs : list SelectExprQP) : bool :=
  match exprs with
  | [] => false
  | expr :: rest =>
      if i =? index then isAmbiguousOrderBy_from index col (i + 1) rest
      else
        match Col expr with
        | SelAliased e al =>
            let alias :=
              if ColIdent_IsEmpty al then
                match e with
                | ColName name _ => name
                | _ => al
                end
              else al in
            if ColIdent_Equal col alias then true
            else isAmbiguousOrderBy_from index col (i + 1) rest
        | _ => true
        end
  end.

(** func isAmbiguousOrderBy *)
Definition isAmbiguousOrderBy (index : Z) (col : ColIdent) (exprs : list SelectExprQP) : bool :=
  if String.eqb (ColIdent_String col) "" then false
  else isAmbiguousOrderBy_from index col 0 exprs.

(** func selectHasUniqueVindex *)
Fixpoint selectHasUniqueVindex (vs : ContextVSchema) (semTable : SemTable)
    (sel : list SelectExprQP) : bool :=
  match sel with
  | [] => false
  | expr :: rest =>
      match GetExpr expr with
      | OK exp =>
          if exprHasUniqueVindex L vs semTable exp then true
          else selectHasUniqueVindex vs semTable rest
      | _ => false
      end
  end.

Definition errAmbiguous (al : ColIdent) : error :=
  vterrors_New Code_UNIMPLEMENTED
    ("generating order by clause: ambiguous symbol reference: "
     +:+ sqlparser_String L (NodeColIdent al)).

(** The state of the loop of addDistinct. *)
Record distinctState : Type := mkDistinctState {
  dsPlan : logicalPlan;
  dsCtx : planningContext;
  dsNeedsTruncation : bool;
  dsGroupByKeys : list GroupByParams;
  dsOrderExprs : list OrderByQP
}.

(** addDistinct: the body of the loop for the select expression [sExpr] at
    [index]; [all] is hp.qp.SelectExprs. *)
Definition addDistinct_step (all : list SelectExprQP) (index : Z) (sExpr : SelectExprQP)
    (st : distinctState) : result distinctState :=
  aliasExpr ← GetAliasedExpr sExpr;
  if isAmbiguousOrderBy index (aAs aliasExpr) all then Err (errAmbiguous (aAs aliasExpr))
  else
    let '(inner, ctx1) :=
      if ColIdent_IsEmpty (aAs aliasExpr) then (aExpr aliasExpr, dsCtx st)
      else
        let inner := NewColName (ColIdent_String (aAs aliasExpr)) in
        (inner,
         mkCtx (CopyDependencies L (semTable (dsCtx st)) (aExpr aliasExpr) inner)
               (vschema (dsCtx st))) in
    let collation := CollationFor (semTable ctx1) inner in
    '(_, wOffset, added, plan') ←
      wrapAndPushExpr (aExpr aliasExpr) (Some (aExpr aliasExpr)) (dsPlan st) (semTable ctx1);
    let grpParam := mkGroupByParams index wOffset None collation in
    OK (mkDistinctState plan' ctx1 (dsNeedsTruncation st || added)
          (dsGroupByKeys st ++ [grpParam])
          (dsOrderExprs st ++ [mkOrderBy (mkOrder inner AscOrder) (aExpr aliasExpr)])).

Fixpoint addDistinct_loop (all : list SelectExprQP) (index : Z) (rest : list SelectExprQP)
    (st : distinctState) : result distinctState :=
  match rest with
  | [] => OK st
  | sExpr :: rest' =>
      st' ← addDistinct_step all index sExpr st;
      addDistinct_loop all (index + 1) rest' st'
  end.

(** func (hp *horizonPlanning) addDistinct *)
Definition addDistinct (hp : horizonPlanning) (ctx : planningContext) (plan : logicalPlan)
  : result (logicalPlan * horizonPlanning * planningContext) :=
  q ← hp_qp hp;
  st ← addDistinct_loop (qSelectExprs q) 0 (qSelectExprs q)
         (mkDistinctState plan ctx (needsTruncation hp) [] []);
  let hp1 := hp_setNeedsTruncation hp (dsNeedsTruncation st) in
  '(innerPlan, hp2) ← planOrderBy hp1 (dsCtx st) (dsOrderExprs st) (dsPlan st);
  let eaggr :=
    mkEAggr (PreProcess empty_OrderedAggregate) (Aggregates empty_OrderedAggregate)
      (dsGroupByKeys st) (aTruncateColumnCount empty_OrderedAggregate) in
  OK (POrderedAggregate innerPlan eaggr, hp2, dsCtx st).

(** planDistinctOA: the key for one select expression, searched in the group
    keys first and in the aggregates next. *)
Definition planDistinctOA_key (semTable : SemTable) (curr : engine_OrderedAggregate)
    (expr : Expr) : option GroupByParams :=
  match List.find (fun grpParam => EqualsExprOpt (Some expr) (gbExpr grpParam)) (GroupByKeys curr) with
  | Some grpParam => Some grpParam
  | None =>
      match List.find (fun aggrParam => EqualsExprOpt (Some expr) (agExpr aggrParam)) (Aggregates curr) with
      | Some aggrParam =>
          Some (mkGroupByParams (agCol aggrParam) (-1) None (CollationFor semTable expr))
      | None => None
      end
  end.

Fixpoint planDistinctOA_loop (semTable : SemTable) (curr : engine_OrderedAggregate)
    (sExprs : list SelectExprQP) (keys : list GroupByParams) : result (list GroupByParams) :=
  match sExprs with
  | [] => OK keys
  | sExpr :: rest =>
      expr ← GetExpr sExpr;
      match planDistinctOA_key semTable curr expr with
      | Some key => planDistinctOA_loop semTable curr rest (keys ++ [key])
      | None =>
          Err (vterrors_New Code_INTERNAL
                 ("[BUG] unable to plan distinct query as the column is not projected: "
                  +:+ sqlparser_String L (NodeSelectExpr (Col sExpr))))
      end
  end.

(** func (hp *horizonPlanning) planDistinctOA *)
Definition planDistinctOA (hp : horizonPlanning) (semTable : SemTable)
    (input : logicalPlan) (curr : engine_OrderedAggregate) : result logicalPlan :=
  q ← hp_qp hp;
  keys ← planDistinctOA_loop semTable curr (qSelectExprs q) [];
  OK (POrderedAggregate (POrderedAggregate input curr)
        (mkEAggr false [] keys 0)).

(** func (hp *horizonPlanning) planDistinct *)
Definition planDistinct (hp : horizonPlanning) (ctx : planningContext) (plan : logicalPlan)
  : result (logicalPlan * horizonPlanning * planningContext) :=
  q ← hp_qp hp;
  if negb (NeedsDistinct L q) then OK (plan, hp, ctx)
  else
    match plan with
    | PRoute p =>
        let p1 := route_setSelect p (MakeDistinct (rSelect p)) in
        if isSingleShard L p1
           || selectHasUniqueVindex (vschema ctx) (semTable ctx) (qSelectExprs q)
        then OK (PRoute p1, hp, ctx)
        else addDistinct hp ctx (PRoute p1)
    | PJoin _ _ _ | PPulloutSubquery _ _ => addDistinct hp ctx plan
    | POrderedAggregate input eaggr =>
        oa ← planDistinctOA hp (semTable ctx) input eaggr;
        OK (oa, hp, ctx)
    | _ =>
        Err (vterrors_New Code_INTERNAL ("unknown plan type for DISTINCT " +:+ typeName plan))
    end.

(** func pushHaving: the plan as mutated, and the plan returned. *)
Fixpoint pushHaving (expr : Expr) (plan : logicalPlan) (semTable : SemTable)
  : result (logicalPlan * logicalPlan) :=
  match plan with
  | PRoute node =>
      let sel := GetFirstSelect (rSelect node) in
      let plan' := PRoute (route_setSelect node (SetFirstSelect (rSelect node) (AddHaving sel expr))) in
      OK (plan', plan')
  | PPulloutSubquery subquery underlying =>
      '(underlying', ret) ← pushHaving expr underlying semTable;
      OK (PPulloutSubquery subquery underlying', ret)
  | PSimpleProjection _ _ =>
      Err (vterrors_New Code_UNIMPLEMENTED
             "unsupported: filtering on results of cross-shard derived table")
  | POrderedAggregate _ _ =>
      ret ← newFilter L semTable plan expr;
      OK (plan, ret)
  | _ =>
      Err (vterrors_New Code_INTERNAL ("[BUG] unreachable " +:+ typeName plan +:+ ".filtering"))
  end.

(** func (hp *horizonPlanning) planHaving *)
Definition planHaving (hp : horizonPlanning) (ctx : planningContext) (plan : logicalPlan)
  : result (logicalPlan * logicalPlan) :=
  match Having (sel hp) with
  | None => OK (plan, plan)
  | Some expr => pushHaving expr plan (semTable ctx)
  end.

(** func isJoin *)
Definition isJoin (plan : logicalPlan) : bool :=
  match plan with
  | PJoin _ _ _ | PHashJoin _ _ _ => true
  | _ => false
  end.

Definition isRoutePlan (plan : logicalPlan) : bool :=
  match plan with
  | PRoute _ => true
  | _ => false
  end.

(** func (hp *horizonPlanning) needDistinctHandling *)
Definition needDistinctHandling (ctx : planningContext) (funcExpr : Expr)
    (opcode : AggregateOpcode) (input : logicalPlan) : result (bool * option AliasedExpr) :=
  match funcExpr with
  | FuncExpr _ fDistinct fExprs =>
      if negb fDistinct then OK (false, None)
      else if negb (bool_decide (opcode = AggregateCount))
              && negb (bool_decide (opcode = AggregateSum)) then OK (false, None)
      else
        match fExprs with
        | [] => Panic "index out of range"
        | SelAliased ie ia :: _ =>
            let innerAliased := mkAliased ie ia in
            if negb (isRoutePlan input) then OK (true, Some innerAliased)
            else if exprHasUniqueVindex L (vschema ctx) (semTable ctx) (aExpr innerAliased)
            then OK (false, None)
            else OK (true, Some innerAliased)
        | _ :: _ =>
            Err (vterrors_New Code_INVALID_ARGUMENT
                   ("syntax error: " +:+ sqlparser_String L (NodeExpr funcExpr)))
        end
  | _ => Panic "not a *sqlparser.FuncExpr"
  end.

(** The opcode of the distinct variant of an aggregate. *)
Definition distinctOpcode (opcode : AggregateOpcode) : AggregateOpcode :=
  match opcode with
  | AggregateCount => AggregateCountDistinct
  | AggregateSum => AggregateSumDistinct
  | other => other
  end.

(** func (hp *horizonPlanning) createPushExprAndAlias: the expression to push,
    the alias and the opcode, with the ordered aggregate's primitive and the
    driver's record as mutated. *)
Definition createPushExprAndAlias (hp : horizonPlanning) (expr : SelectExprQP)
    (handleDistinct : bool) (innerAliased : option AliasedExpr) (opcode : AggregateOpcode)
    (oa : engine_OrderedAggregate)
  : result (option AliasedExpr * string * AggregateOpcode
            * engine_OrderedAggregate * horizonPlanning) :=
  match Col expr with
  | SelAliased ex al =>
      let aliasExpr := mkAliased ex al in
      let alias :=
        if ColIdent_IsEmpty (aAs aliasExpr) then sqlparser_String L (NodeExpr (aExpr aliasExpr))
        else ColIdent_String (aAs aliasExpr) in
      if handleDistinct then
        match innerAliased with
        | None => Panic "nil pointer dereference"
        | Some ia =>
            let opcode' := distinctOpcode opcode in
            let oa' :=
              mkEAggr true (Aggregates oa) (GroupByKeys oa) (aTruncateColumnCount oa) in
            let hp1 := haveToTruncate hp true in
            q ← hp_qp hp1;
            let by_ := mkGroupBy (aExpr ia) (aExpr ia) (len (Aggregates oa) + 1) in
            OK (Some ia, alias, opcode', oa',
                hp_setQP hp1 (QP_setGroupByExprs q (GroupByExprs q ++ [by_])))
        end
      else OK (Some aliasExpr, alias, opcode, oa, hp)
  | _ => OK (None, "", AggregateUnassigned, oa, hp)
  end.

(** planAggregations keeps two pointers: [plan], the input, and [oa], the
    ordered aggregate built around it when the ordered-aggregate path is taken
    (nil otherwise).  oa.input is that same input object, so the state is the
    input plan and the primitive of [oa]; [newPlan] is [oa] when it exists and
    [plan] otherwise. *)
Definition newPlanOf (plan : logicalPlan) (oa : option engine_OrderedAggregate) : logicalPlan :=
  match oa with
  | Some eaggr => POrderedAggregate plan eaggr
  | None => plan
  end.

(** Reading [plan] and [oa] back after [newPlan] was mutated. *)
Definition splitNewPlan (oa : option engine_OrderedAggregate) (newPlan : logicalPlan)
  : result (logicalPlan * option engine_OrderedAggregate) :=
  match oa, newPlan with
  | None, p => OK (p, None)
  | Some _, POrderedAggregate input eaggr => OK (input, Some eaggr)
  | Some _, _ => Panic "not an ordered aggregate"
  end.

Definition errComplexAggregate : error :=
  vterrors_New Code_UNIMPLEMENTED "unsupported: in scatter query: complex aggregate expression".

(** planAggregations: the body of the loop over hp.qp.SelectExprs. *)
Definition planAggregations_select (ctx : planningContext) (e : SelectExprQP)
    (st : logicalPlan * option engine_OrderedAggregate * horizonPlanning)
  : result (logicalPlan * option engine_OrderedAggregate * horizonPlanning) :=
  let '(plan, oa, hp) := st in
  aliasExpr ← GetAliasedExpr e;
  match (if negb (Aggr e) then None else oa) with
  | None =>
      (* !e.Aggr || oa == nil: an ordinary projection onto the input *)
      '(_, _, plan') ← pushProjection aliasExpr plan (semTable ctx) true false false;
      OK (plan', oa, hp)
  | Some eaggr =>
      (* an aggregate on the ordered-aggregate path *)
      match aExpr aliasExpr with
      | FuncExpr fName _ _ =>
          let fExpr := aExpr aliasExpr in
          let funcName := ColIdent_Lowered fName in
          match SupportedAggregates L funcName with
          | None =>
              Err (vterrors_New Code_UNIMPLEMENTED
                     ("unsupported: in scatter query: aggregation function '"
                      +:+ funcName +:+ "'"))
          | Some opcode =>
              '(handleDistinct, innerAliased) ← needDistinctHandling ctx fExpr opcode plan;
              '(pushExpr, alias, opcode', eaggr1, hp1) ←
                createPushExprAndAlias hp e handleDistinct innerAliased opcode eaggr;
              match pushExpr with
              | None => Panic "nil pointer dereference"
              | Some pe =>
                  '(offset, _, plan') ← pushProjection pe plan (semTable ctx) true false true;
                  let eaggr2 :=
                    mkEAggr (PreProcess eaggr1)
                      (Aggregates eaggr1 ++
                         [mkAggregateParams opcode' offset alias (Some fExpr) false 0])
                      (GroupByKeys eaggr1) (aTruncateColumnCount eaggr1) in
                  OK (plan', Some eaggr2, hp1)
              end
          end
      | _ => Err errComplexAggregate
      end
  end.

Fixpoint planAggregations_selectLoop (ctx : planningContext) (es : list SelectExprQP)
    (st : logicalPlan * option engine_OrderedAggregate * horizonPlanning)
  : result (logicalPlan * option engine_OrderedAggregate * horizonPlanning) :=
  match es with
  | [] => OK st
  | e :: rest =>
      st' ← planAggregations_select ctx e st;
      planAggregations_selectLoop ctx rest st'
  end.

(** planAggregations: the loop over hp.qp.GroupByExprs. *)
Fixpoint planAggregations_groupLoop (ctx : planningContext) (gs : list GroupByQP)
    (st : logicalPlan * option engine_OrderedAggregate * horizonPlanning)
  : result (logicalPlan * option engine_OrderedAggregate * horizonPlanning) :=
  match gs with
  | [] => OK st
  | groupExpr :: rest =>
      let '(plan, oa, hp) := st in
      '(added, newPlan') ← planGroupByGen4 groupExpr (newPlanOf plan oa) (semTable ctx) false;
      '(plan', oa') ← splitNewPlan oa newPlan';
      planAggregations_groupLoop ctx rest (plan', oa', haveToTruncate hp added)
  end.

(** planAggregations: the final check of the select expressions. *)
Fixpoint planAggregations_check (es : list SelectExprQP) : result unit :=
  match es with
  | [] => OK tt
  | expr :: rest =>
      colExpr ← GetExpr expr;
      if negb (IsAggregation L colExpr) && ContainsAggregation L colExpr
      then Err errComplexAggregate
      else planAggregations_check rest
  end.

Definition groupByAsOrderBy (gs : list GroupByQP) : list OrderByQP :=
  map (fun groupExpr => mkOrderBy (mkOrder (gInner groupExpr) AscOrder) (gWeightStrExpr groupExpr)) gs.

(** func (hp *horizonPlanning) planAggregations *)
Definition planAggregations (hp : horizonPlanning) (ctx : planningContext) (plan : logicalPlan)
  : result (logicalPlan * horizonPlanning) :=
  q ← hp_qp hp;
  let uniqVindex := hasUniqueVindex (vschema ctx) (semTable ctx) (GroupByExprs q) in
  let joinPlan := isJoin plan in
  '(oa, hp0) ←
    (if negb uniqVindex || joinPlan then
       match ProjectionError q with
       | Some e => Err e
       | None => OK (Some empty_OrderedAggregate, hp_setVtgateGrouping hp true)
       end
     else OK (None, hp));
  if joinPlan && HasAggr q && (0 <? len (GroupByExprs q)) then
    Err (vterrors_New Code_UNIMPLEMENTED "unsupported: cross-shard query with aggregates")
  else
    '(plan1, oa1, hp1) ← planAggregations_selectLoop ctx (qSelectExprs q) (plan, oa, hp0);
    q1 ← hp_qp hp1;
    '(plan2, oa2, hp2) ← planAggregations_groupLoop ctx (GroupByExprs q1) (plan1, oa1, hp1);
    '(newPlanState, newPlan) ← planHaving hp2 ctx (newPlanOf plan2 oa2);
    '(plan3, oa3) ← splitNewPlan oa2 newPlanState;
    q2 ← hp_qp hp2;
    '(planOut, hp3) ←
      match (if negb (CanPushDownSorting q2) then oa3 else None) with
      | Some eaggr =>
          (* !hp.qp.CanPushDownSorting && oa != nil *)
          let orderExprs := groupByAsOrderBy (GroupByExprs q2) in
          if 0 <? len orderExprs then
            '(newInput, hp3) ← planOrderBy hp2 ctx orderExprs plan3;
            OK (POrderedAggregate newInput eaggr, hp3)
          else OK (plan3, hp2)
      | None =>
          (* plan = newPlan *)
          OK (newPlan, hp2)
      end;
    q3 ← hp_qp hp3;
    _ ← (if negb (isRoutePlan planOut) then planAggregations_check (qSelectExprs q3) else OK tt);
    OK (planOut, hp3).

(** func (hp *horizonPlanning) planHorizon.  The context is returned as well:
    addDistinct records dependencies in its semantic table. *)
Definition planHorizon (hp : horizonPlanning) (ctx : planningContext) (plan : logicalPlan)
  : result (logicalPlan * horizonPlanning * planningContext) :=
  let rb := match plan with PRoute r => Some r | _ => None end in
  let isRoute := isRoutePlan plan in
  match (if negb isRoute then ShardedError (semTable ctx) else None) with
  | Some shardedError => Err shardedError
  | None =>
      match (match rb with Some r => if isSingleShard L r then Some r else None | None => None end) with
      | Some r =>
          (* isRoute && rb.isSingleShard() *)
          r' ← planSingleShardRoutePlan L (sel hp) r;
          OK (PRoute r', hp, ctx)
      | None =>
          q ← CreateQPFromSelect L (sel hp) (semTable ctx);
          let hp1 := hp_setQP hp q in
          let needAggrOrHaving :=
            NeedsAggregation L q || bool_decide (Having (sel hp1) <> None) in
          let canShortcut :=
            isRoute && negb needAggrOrHaving && (len (OrderExprs q) =? 0) in
          '(plan1, hp2) ←
            (if needAggrOrHaving then planAggregations hp1 ctx plan
             else
               let plan0 :=
                 match plan with
                 | POrderedAggregate _ _ => PSimpleProjection plan []
                 | _ => plan
                 end in
               if canShortcut then
                 match rb with
                 | Some r =>
                     r' ← planSingleShardRoutePlan L (sel hp1) r;
                     OK (PRoute r', hp1)
                 | None => Panic "nil pointer dereference"
                 end
               else
                 plan' ← pushProjections ctx plan0 (qSelectExprs q);
                 OK (plan', hp1));
          '(plan2, hp3) ←
            (if negb canShortcut then
               q2 ← hp_qp hp2;
               '(plan', hp') ←
                 (if 0 <? len (OrderExprs q2) then planOrderBy hp2 ctx (OrderExprs q2) plan1
                  else OK (plan1, hp2));
               q3 ← hp_qp hp';
               if CanPushDownSorting q3 && vtgateGrouping hp' then
                 planGroupByUsingOrderBy hp' ctx plan'
               else OK (plan', hp')
             else OK (plan1, hp2));
          '(plan3, hp4, ctx') ← planDistinct hp3 ctx plan2;
          plan4 ← truncateColumnsIfNeeded hp4 plan3;
          OK (plan4, hp4, ctx')
      end
  end.

End Planner.

(** ** A model of the single-shard shortcut *)

(** Modelled from the spec: planSingleShardRoutePlan is defined outside
    horizon_planning.go.  The spec has it "install the full SELECT (projection,
    ORDER BY, GROUP BY, HAVING, LIMIT, DISTINCT) directly into the route's
    SQL": the horizon clauses of the statement replace those of the route's
    SELECT, whose FROM and WHERE stay. *)
Definition installSelect (s : Select) (target : Select) : Select :=
  mkSelect (SelectExprs s) (GroupBy s) (sOrderBy s) (Having s) (sDistinct s) (sLimit s)
           (sRest target).

(** Modelled from the spec: planSingleShardRoutePlan, installing the SELECT
    in the first SELECT of the route's statement. *)
Definition planSingleShardRoutePlan_spec (s : Select) (rb : routeGen4) : result routeGen4 :=
  OK (route_setSelect rb
        (SetFirstSelect (rSelect rb) (installSelect s (GetFirstSelect (rSelect rb))))).

(** The horizon clauses of two SELECTs agree. *)
Definition sameHorizon (a b : Select) : Prop :=
  SelectExprs a = SelectExprs b /\ GroupBy a = GroupBy b /\ sOrderBy a = sOrderBy b /\
  Having a = Having b /\ sDistinct a = sDistinct b /\ sLimit a = sLimit b.

(** ** Concrete collaborators, for running the planner on examples *)

Module Example.

(** Tables are numbered by the first letter of their name: bit 0 for names
    starting with l (and unqualified columns), bit 1 for the others. *)
Definition tableBit (t : TableName) : TableSet :=
  match tnName t with
  | EmptyString => 1%N
  | String c _ => if Ascii.eqb c (Ascii.ascii_of_nat 108) then 1%N else 2%N
  end.

Fixpoint deps (e : Expr) : TableSet :=
  match e with
  | ColName _ q => tableBit q
  | FuncExpr _ _ es =>
      (fix go (l : list SelectExpr) : TableSet :=
         match l with
         | [] => 0%N
         | SelAliased x _ :: l' => N.lor (deps x) (go l')
         | SelNextval x :: l' => N.lor (deps x) (go l')
         | SelStar _ :: l' => go l'
         end) es
  | UnaryExpr _ x => deps x
  | BinaryExpr _ l r | AndExpr l r => N.lor (deps l) (deps r)
  | Literal _ | Argument _ | NullVal => 0%N
  end.

Definition isAggregateName (n : string) : bool :=
  match to_lower n with
  | "count" | "sum" | "min" | "max" => true
  | _ => false
  end.

Definition isAggregation (e : Expr) : bool :=
  match e with
  | FuncExpr n _ _ => isAggregateName n
  | _ => false
  end.

Fixpoint containsAggregation (e : Expr) : bool :=
  match e with
  | FuncExpr n _ _ => isAggregateName n
  | UnaryExpr _ x => containsAggregation x
  | BinaryExpr _ l r | AndExpr l r => containsAggregation l || containsAggregation r
  | _ => false
  end.

Fixpoint removeKeyspace (e : Expr) : Expr :=
  match e with
  | ColName n q => ColName n (mkTableName (tnName q) "")
  | UnaryExpr o x => UnaryExpr o (removeKeyspace x)
  | BinaryExpr o l r => BinaryExpr o (removeKeyspace l) (removeKeyspace r)
  | AndExpr l r => AndExpr (removeKeyspace l) (removeKeyspace r)
  | other => other
  end.

Fixpoint printExpr (e : Expr) : string :=
  match e with
  | ColName n q => if String.eqb (tnName q) "" then n else tnName q +:+ "." +:+ n
  | FuncExpr n _ _ => n +:+ "(...)"
  | UnaryExpr o x => o +:+ printExpr x
  | BinaryExpr o l r => printExpr l +:+ " " +:+ o +:+ " " +:+ printExpr r
  | AndExpr l r => printExpr l +:+ " and " +:+ printExpr r
  | Literal v => v
  | Argument n => ":" +:+ n
  | NullVal => "null"
  end.

Definition printNode (n : SQLNode) : string :=
  match n with
  | NodeExpr e => printExpr e
  | NodeAliased a =>
      if String.eqb (aAs a) "" then printExpr (aExpr a) else printExpr (aExpr a) +:+ " as " +:+ aAs a
  | NodeOrder o => printExpr (oExpr o)
  | NodeSelectExpr (SelAliased e _) => printExpr e
  | NodeSelectExpr _ => "*"
  | NodeColIdent c => c
  end.

(** The evaluation engine of the example converts everything but function calls. *)
Definition convert (e : Expr) (_ : SemTable) : option error :=
  match e with
  | FuncExpr _ _ _ => Some (vterrors_New Code_UNIMPLEMENTED "unsupported: function call")
  | _ => None
  end.

Definition numericType : querypb_Type := 1.

(** Columns named id or n are integers, the type of the others is unknown. *)
Definition typeFor (e : Expr) : option querypb_Type :=
  match e with
  | ColName n _ => if String.eqb n "id" || String.eqb n "n" then Some numericType else None
  | _ => None
  end.

Definition st : SemTable :=
  mkSemTable deps typeFor (fun _ => 0) (fun _ => (None, None)) None.

Definition copyDependencies (s : SemTable) (from to : Expr) : SemTable :=
  mkSemTable (fun e => if EqualsExpr e to then RecursiveDeps s from else RecursiveDeps s e)
             (TypeFor s) (CollationFor s) (TableInfoForExpr s) (ShardedError s).

Definition createQP (s : Select) (_ : SemTable) : result QueryProjection :=
  OK (mkQP (map (fun c => mkSelectExprQP c
                            (match c with SelAliased e _ => isAggregation e | _ => false end))
                (SelectExprs s))
           (existsb (fun c => match c with SelAliased e _ => containsAggregation e | _ => false end)
                    (SelectExprs s))
           (sDistinct s)
           (map (fun g => mkGroupBy g g 0) (GroupBy s))
           (map (fun o => mkOrderBy o (oExpr o)) (sOrderBy s))
           (negb (existsb (fun o => containsAggregation (oExpr o)) (sOrderBy s)))
           (existsb (fun c => match c with SelStar _ => true | _ => false end) (SelectExprs s))
           None).

Definition supportedAggregates (n : string) : option AggregateOpcode :=
  match n with
  | "count" => Some AggregateCount
  | "sum" => Some AggregateSum
  | "min" => Some AggregateMin
  | "max" => Some AggregateMax
  | _ => None
  end.

Fixpoint containsTables (p : logicalPlan) : TableSet :=
  match p with
  | PRoute r => tables r
  | PJoin l r _ | PHashJoin l r _ => N.lor (containsTables l) (containsTables r)
  | PSemiJoin l _ _ => containsTables l
  | POrderedAggregate i _ | PMemorySort i _ | PSimpleProjection i _
  | PFilter i _ | PLimit i | PDistinct i => containsTables i
  | PPulloutSubquery _ u => containsTables u
  | _ => 0%N
  end.

(** An expression [l op r] over both sides of a join sends [l] as a bind variable. *)
Definition breakExpression (e : Expr) (_ : SemTable) (_ : TableSet)
  : result (list string * list Expr * Expr) :=
  match e with
  | BinaryExpr o (ColName n q) r =>
      OK ([n], [ColName n q], BinaryExpr o (Argument n) r)
  | _ => Err (vterrors_New Code_UNIMPLEMENTED "unsupported: expression over both sides")
  end.

Definition supplyProjection (vf : vindexFunc) (a : AliasedExpr) (reuse : bool)
  : result (Z * vindexFunc) :=
  match aExpr a with
  | ColName n _ => OK (len (vfCols vf), mkVindexFunc (vfCols vf ++ [0]) (vfFields vf ++ [n]))
  | _ => Err (vterrors_New Code_UNIMPLEMENTED "unsupported: expression on results of a vindex function")
  end.

Definition lib : Lib :=
  mkLib convert removeKeyspace printNode isAggregation containsAggregation
        (fun t => t =? numericType) 0
        (vterrors_New Code_INTERNAL "[BUG] should only be used for single tables")
        (fun e _ => OK e)
        copyDependencies
        (fun a b => N.eqb (N.land a b) a)
        createQP
        (fun q => HasAggr q || (0 <? len (GroupByExprs q)))
        qDistinct
        (fun _ => vterrors_New Code_UNIMPLEMENTED "unsupported: '*' expression in cross-shard query")
        (fun _ => vterrors_New Code_INTERNAL "[BUG] not an alias expr")
        supportedAggregates
        planSingleShardRoutePlan_spec
        (fun r => rOpcode (eroute r) =? 0)
        containsTables
        breakExpression
        supplyProjection
        (fun _ p e => OK (PFilter p e))
        (fun _ _ e => match e with ColName n _ => String.eqb n "id" | _ => false end).

Definition col (n : string) : Expr := ColName n (mkTableName "" "").
Definition qcol (t n : string) : Expr := ColName n (mkTableName t "").

Definition emptySelect : Select := mkSelect [] [] [] None false None "from t".
Definition selectOf (es : list SelectExpr) : Select :=
  mkSelect es [] [] None false None "from t".

(** A scatter route (opcode 1) and an unsharded route (opcode 0) over table l. *)
Definition scatter (es : list SelectExpr) : routeGen4 :=
  mkRoute (StmtSelect (selectOf es)) 1%N (mkERoute 1 [] 0).
Definition unsharded (es : list SelectExpr) : routeGen4 :=
  mkRoute (StmtSelect (selectOf es)) 1%N (mkERoute 0 [] 0).
(** A scatter route over table r. *)
Definition scatterR (es : list SelectExpr) : routeGen4 :=
  mkRoute (StmtSelect (selectOf es)) 2%N (mkERoute 1 [] 0).

Definition ctx : planningContext := mkCtx st (VSchema 0).

Definition hpOf (s : Select) : horizonPlanning := mkHP s None false false.

End Example.

(** ** Notions used in the properties *)

(** The collaborators that pushProjection calls return. *)
Definition Lib_terminates (L : Lib) : Prop :=
  (forall e ti, RewriteDerivedExpression L e ti <> Diverge) /\
  (forall e st ts, breakExpressionInLHSandRHS L e st ts <> Diverge) /\
  (forall vf a r, SupplyProjection L vf a r <> Diverge).

(** [f] and [g] agree on plans of depth below [d], where [f] keeps the shape
    of the plan and terminates when the collaborators do. *)
Definition sound_below (L : Lib) (d : nat) (f g : pushSig) : Prop :=
  forall e p st i r h,
    (depth p < d)%nat ->
    f e p st i r h = g e p st i r h /\
    (Lib_terminates L -> f e p st i r h <> Diverge) /\
    forall o a p', f e p st i r h = OK (o, a, p') -> shape p' = shape p.

(** The truncate column count held by the root of a plan, when the root has a
    truncation handle. *)
Definition truncateCount (p : logicalPlan) : option Z :=
  match p with
  | PRoute r => Some (rTruncateColumnCount (eroute r))
  | POrderedAggregate _ eaggr => Some (aTruncateColumnCount eaggr)
  | PMemorySort _ ems => Some (mTruncateColumnCount ems)
  | _ => None
  end.

(** The root of a plan with its truncate column count set to [n]. *)
Definition withTruncateCount (n : Z) (p : logicalPlan) : logicalPlan :=
  match p with
  | PRoute r =>
      PRoute (route_setEroute r (mkERoute (rOpcode (eroute r)) (rOrderBy (eroute r)) n))
  | POrderedAggregate i eaggr =>
      POrderedAggregate i (mkEAggr (PreProcess eaggr) (Aggregates eaggr) (GroupByKeys eaggr) n)
  | PMemorySort i ems => PMemorySort i (mkEMemorySort (mOrderBy ems) n)
  | other => other
  end.

Definition isTruncatable (p : logicalPlan) : bool :=
  match p with
  | PRoute _ | POrderedAggregate _ _ | PMemorySort _ _ => true
  | _ => false
  end.

Definition isAnyJoin (p : logicalPlan) : bool :=
  match p with
  | PJoin _ _ _ | PHashJoin _ _ _ | PSemiJoin _ _ _ => true
  | _ => false
  end.

(** The variants truncateColumnsIfNeeded has no case for. *)
Definition noTruncationCase (p : logicalPlan) : bool :=
  match p with
  | PSimpleProjection _ _ | PVindexFunc _ | PLimit _ | PDistinct _
  | PConcatenate _ | POther _ => true
  | _ => false
  end.

(** The message the left-join error of pushProjection would have were it
    tagged "unimplemented:". *)
Definition unimplementedLeftJoinMessage : string :=
  "unimplemented: cross-shard left join and column expressions".

(** [c] is the column a weight string is computed for: [expr] itself when it
    is a column reference, the operand when [expr] is a unary expression over
    a column reference. *)
Definition weightColumn (expr c : Expr) : Prop :=
  (IsColName expr = true /\ c = expr) \/
  (IsColName expr = false /\ exists op, expr = UnaryExpr op c /\ IsColName c = true).

(** [expr] is neither a column reference nor a unary expression over one. *)
Definition complexOrderExpr (expr : Expr) : Prop :=
  IsColName expr = false /\ forall op c, expr = UnaryExpr op c -> IsColName c = false.

(** The semantic type of [c] is numeric. *)
Definition numericColumn (L : Lib) (st : SemTable) (c : Expr) : Prop :=
  exists t, TypeFor st c = Some t /\ IsNumber L t = true.

(** The name under which a select item is known to ORDER BY: its alias, or
    its column name when it is a bare column. *)
Definition itemName (e : SelectExprQP) : option ColIdent :=
  match Col e with
  | SelAliased ex al =>
      Some (if ColIdent_IsEmpty al
            then match ex with ColName name _ => name | _ => al end
            else al)
  | _ => None
  end.

(** The alias [al] of the item at position [k] is non-empty and equals the
    alias or the bare column name of another item. *)
Definition aliasCollides (exprs : list SelectExprQP) (k : nat) (al : ColIdent) : Prop :=
  al <> "" /\
  exists j ej n,
    j <> k /\ exprs !! j = Some ej /\ itemName ej = Some n /\ ColIdent_Equal al n = true.

(** The state in which addDistinct enters its loop. *)
Definition addDistinct_init (hp : horizonPlanning) (ctx : planningContext)
    (plan : logicalPlan) : distinctState :=
  mkDistinctState plan ctx (needsTruncation hp) [] [].

(** The query projection of [hp'] is that of [hp] with group-by expressions
    appended. *)
Definition groupBysAppended (hp hp' : horizonPlanning) : Prop :=
  forall q, qp hp = Some q ->
    exists gs, qp hp' = Some (QP_setGroupByExprs q (GroupByExprs q ++ gs)).

(** The column offsets a push onto [p] can hand out from stored data are not
    negative: those of the aggregates of an ordered aggregate that a push
    reaches.  Plans built by the planner are such, the aggregates recording
    the offsets that pushes returned. *)
Fixpoint offsetsNonneg (p : logicalPlan) : Prop :=
  match p with
  | POrderedAggregate _ eaggr => Forall (fun a => 0 <= agCol a) (Aggregates eaggr)
  | PJoin l r _ | PHashJoin l r _ => offsetsNonneg l /\ offsetsNonneg r
  | PSemiJoin l _ _ => offsetsNonneg l
  | PSimpleProjection i _ | PLimit i | PDistinct i => offsetsNonneg i
  | PPulloutSubquery _ u => offsetsNonneg u
  | PConcatenate (s0 :: _) => offsetsNonneg s0
  | _ => True
  end.

(** vindexFunc.SupplyProjection returns offsets into its column list. *)
Definition supplyNonneg (L : Lib) : Prop :=
  forall vf e r i vf', SupplyProjection L vf e r = OK (i, vf') -> 0 <= i.

(** The entry [c] appended to the Cols of a join for the push of [expr]:
    -(off+1) for the offset [off] returned by the push onto the left child,
    +(off+1) for the one returned by the push onto the right child. *)
Definition colFromChild (L : Lib) (expr : AliasedExpr) (st : SemTable)
    (inner reuseCol hasAggregation : bool) (opcode : JoinOpcode)
    (l r l' r' : logicalPlan) (c : Z) : Prop :=
  exists off,
    0 <= off /\ c <> 0 /\ Z.abs c - 1 = off /\
    ((c < 0 /\ r' = r /\
      exists a,
        pushProjection L expr l st inner (passDown expr reuseCol) hasAggregation
        = OK (off, a, l')) \/
     (c > 0 /\
      exists e' h' a,
        pushProjection L e' r st (inner && negb (bool_decide (opcode = LeftJoin)))
          (passDown expr reuseCol) h'
        = OK (off, a, r'))).

(** What a push does to the Cols vector of a join: nothing when a column is
    reused, one entry appended otherwise. *)
Definition colsAfterPush (L : Lib) (expr : AliasedExpr) (st : SemTable)
    (inner reuseCol hasAggregation : bool) (opcode : JoinOpcode)
    (l r l' r' : logicalPlan) (cols cols' : list Z) (idx : Z) (added : bool) : Prop :=
  (added = false /\ cols' = cols) \/
  (added = true /\ idx = len cols /\
   exists c, cols' = cols ++ [c] /\
             colFromChild L expr st inner reuseCol hasAggregation opcode l r l' r' c).

(** Pushes onto plans of depth below [d] return offsets that are not negative
    and keep the plan such. *)
Definition nonneg_below (L : Lib) (d : nat) : Prop :=
  forall e p st i r h o a p',
    (depth p < d)%nat -> offsetsNonneg p ->
    pushProjection L e p st i r h = OK (o, a, p') -> 0 <= o /\ offsetsNonneg p'.

(** The same for the recursion of planGroupByGen4. *)
Definition groupBy_sound_below (L : Lib) (d : nat) (f g : groupBySig) : Prop :=
  forall ge p st w,
    (depth p < d)%nat ->
    f ge p st w = g ge p st w /\
    (Lib_terminates L -> f ge p st w <> Diverge) /\
    forall a p', f ge p st w = OK (a, p') -> shape p' = shape p.

(** The width of a route: the length of the select list of its first SELECT. *)
Definition routeWidth (r : routeGen4) : Z := len (SelectExprs (GetFirstSelect (rSelect r))).

(** The signed entry [c] stands for the offset returned by a push onto a
    child of a join: -(off+1) for the left child, +(off+1) for the right. *)
Definition signedChildOffset (L : Lib) (expr : AliasedExpr) (st : SemTable)
    (inner reuseCol hasAggregation : bool) (opcode : JoinOpcode)
    (l r l' r' : logicalPlan) (c : Z) : Prop :=
  (exists off a,
     pushProjection L expr l st inner (passDown expr reuseCol) hasAggregation = OK (off, a, l') /\
     r' = r /\ c = - (off + 1)) \/
  (exists e' h' off a,
     pushProjection L e' r st (inner && negb (bool_decide (opcode = LeftJoin)))
       (passDown expr reuseCol) h' = OK (off, a, r') /\
     c = off + 1).

(** The test of the loop over the aggregates of an ordered aggregate: the
    aggregate has the pushed expression, or the pushed expression is a column
    named as the alias of the aggregate. *)
Definition aggregateMatches (expr : AliasedExpr) (a : AggregateParams) : bool :=
  EqualsExprOpt (agExpr a) (Some (aExpr expr)) ||
  match aExpr expr with
  | ColName name _ => ColIdent_EqualString name (agAlias a)
  | _ => false
  end.

(** The index [idx] returned by a push onto a join addresses the entry of
    [cols'] that stands for the column of a child, and [cols'] extends
    [cols]. *)
Definition addressesChildColumn (L : Lib) (expr : AliasedExpr) (st : SemTable)
    (inner reuseCol hasAggregation : bool) (opcode : JoinOpcode)
    (l r l' r' : logicalPlan) (cols cols' : list Z) (idx : Z) : Prop :=
  0 <= idx /\
  (exists tail, cols' = cols ++ tail) /\
  exists c, cols' !! Z.to_nat idx = Some c /\
            signedChildOffset L expr st inner reuseCol hasAggregation opcode l r l' r' c.

(** Plans at which the properties are instantiated. *)
Module Sample.

Definition colA : Expr := Example.col "a".
Definition colB : Expr := Example.col "b".
Definition colRX : Expr := Example.qcol "r" "x".

Definition leftEmpty : logicalPlan := PRoute (Example.scatter []).
Definition leftA : logicalPlan := PRoute (Example.scatter [SelAliased colA ""]).
Definition leftB : logicalPlan := PRoute (Example.scatter [SelAliased colB ""]).
Definition leftBA : logicalPlan :=
  PRoute (Example.scatter [SelAliased colB ""; SelAliased colA ""]).
Definition rightEmpty : logicalPlan := PRoute (Example.scatterR []).
Definition rightX : logicalPlan := PRoute (Example.scatterR [SelAliased colRX ""]).

Definition joinX : logicalPlan := PJoin leftEmpty rightX (mkJoin InnerJoin [1] ∅).
Definition semiA : logicalPlan := PSemiJoin leftA rightEmpty [-1].
Definition unionA : logicalPlan := PConcatenate [leftA; rightEmpty].

End Sample.

(** isAmbiguousOrderBy stops at the item [e]: it is no aliased expression, or
    it is known to ORDER BY under a name equal to [col]. *)
Definition ambiguousWith (col : ColIdent) (e : SelectExprQP) : Prop :=
  itemName e = None \/ exists n, itemName e = Some n /\ ColIdent_Equal col n = true.

(** The sort parameters that createMemorySortPlanOnAggregation records for
    the order expression [o]: the columns that findExprInOrderedAggr found,
    and the collation of the group key found when it has a weight string. *)
Definition sortParamFor (L : Lib) (eaggr : engine_OrderedAggregate) (o : OrderByQP)
    (p : OrderByParams) : Prop :=
  exists idx,
    findExprInOrderedAggr eaggr o = Some (obCol p, obWeightStringCol p, idx) /\
    obDesc p = isDesc (Inner o) /\
    obStarColFixedIndex p = obCol p /\
    (obWeightStringCol p = -1 -> obCollationID p = collations_Unknown L) /\
    (obWeightStringCol p <> -1 ->
     exists key,
       GroupByKeys eaggr !! Z.to_nat idx = Some key /\
       KeyCol key = obCol p /\ WeightStringCol key = obWeightStringCol p /\
       obCollationID p = gbCollationID key).

Definition errOrderNotInAggregate (L : Lib) (order : OrderByQP) : error :=
  vterrors_New Code_INTERNAL
    ("expected to find the order by expression ("
     +:+ sqlparser_String L (NodeOrder (Inner order)) +:+ ") in orderedAggregate").

(** The driver's record [hp'] is [hp] but for needsTruncation, which is not
    reset once set. *)
Definition sameButTruncation (hp hp' : horizonPlanning) : Prop :=
  sel hp' = sel hp /\ qp hp' = qp hp /\ vtgateGrouping hp' = vtgateGrouping hp /\
  (needsTruncation hp = true -> needsTruncation hp' = true).

(** The sort parameters that planOrderByForRoute records for the order
    expression [o]. *)
Definition routeSortParamFor (st : SemTable) (o : OrderByQP) (p : OrderByParams) : Prop :=
  0 <= obCol p /\
  obDesc p = isDesc (Inner o) /\
  obStarColFixedIndex p = 0 /\
  obCollationID p = CollationFor st (oExpr (Inner o)).

(** A query on which the properties of ORDER BY are instantiated:
    select a from t order by a. *)
Module SampleOrder.

Definition ordA : OrderByQP := mkOrderBy (mkOrder Sample.colA AscOrder) Sample.colA.

Definition qpA : QueryProjection :=
  mkQP [mkSelectExprQP (SelAliased Sample.colA "") false] false false [] [ordA] true false None.

Definition hpA : horizonPlanning :=
  mkHP (Example.selectOf [SelAliased Sample.colA ""]) (Some qpA) false false.

Definition projA : logicalPlan := PSimpleProjection Sample.leftA [0].

End SampleOrder.

(** The group-by expression [g] of a distinct aggregate points, through its
    DistinctAggrIndex (counted from one), at a recorded aggregate whose opcode
    is count distinct or sum distinct; an ordinary group-by has index 0. *)
Definition pointsAtDistinctAggregate (ea : engine_OrderedAggregate) (g : GroupByQP) : Prop :=
  DistinctAggrIndex g = 0 \/
  exists a,
    1 <= DistinctAggrIndex g /\
    Aggregates ea !! Z.to_nat (DistinctAggrIndex g - 1) = Some a /\
    (agOpcode a = AggregateCountDistinct \/ agOpcode a = AggregateSumDistinct).

Definition distinctIndexesValid (q : QueryProjection) (ea : engine_OrderedAggregate) : Prop :=
  Forall (pointsAtDistinctAggregate ea) (GroupByExprs q).

(** The plan found under the pullout subqueries at the root of a plan. *)
Fixpoint underPullouts (p : logicalPlan) : logicalPlan :=
  match p with
  | PPulloutSubquery _ underlying => underPullouts underlying
  | _ => p
  end.

(** The key that planDistinctOA records for the expression [expr]: a group
    key of the current ordered aggregate with that expression, or a key on
    the column of an aggregate with that expression, without weight string. *)
Definition distinctKeyFor (st : SemTable) (curr : engine_OrderedAggregate)
    (sExpr : SelectExprQP) (key : GroupByParams) : Prop :=
  exists expr al,
    Col sExpr = SelAliased expr al /\
    ((In key (GroupByKeys curr) /\ EqualsExprOpt (Some expr) (gbExpr key) = true) \/
     (Forall (fun k => EqualsExprOpt (Some expr) (gbExpr k) = false) (GroupByKeys curr) /\
      exists a,
        In a (Aggregates curr) /\ EqualsExprOpt (Some expr) (agExpr a) = true /\
        key = mkGroupByParams (agCol a) (-1) None (CollationFor st expr))).

(** A sample of a distinct aggregate: select count(distinct d) from t. *)
Module SampleDistinct.

Definition countD : Expr := FuncExpr "count" true [SelAliased (Example.col "d") ""].
Definition item : SelectExprQP := mkSelectExprQP (SelAliased countD "") true.
Definition qp0 : QueryProjection := mkQP [item] true false [] [] true false None.
Definition hp0 : horizonPlanning := mkHP Example.emptySelect (Some qp0) false true.

End SampleDistinct.

(** The select expressions before the first one that decides
    selectHasUniqueVindex: aliased expressions without unique vindex. *)
Definition noUniqueVindex (L : Lib) (vs : ContextVSchema) (st : SemTable)
    (e : SelectExprQP) : Prop :=
  exists ex al, Col e = SelAliased ex al /\ exprHasUniqueVindex L vs st ex = false.

(** The select expression appended to a route for the select item [e]: an
    aliased expression under the alias of [e]. *)
Definition pushedItemFor (e : SelectExprQP) (item : SelectExpr) : Prop :=
  exists ex al ex', Col e = SelAliased ex al /\ item = SelAliased ex' al.

(** Every group-by expression has an equal ORDER BY expression. *)
Definition groupBysOrdered (q : QueryProjection) : Prop :=
  Forall (fun g => exists o, In o (OrderExprs q) /\
                             EqualsExpr (gInner g) (oExpr (Inner o)) = true)
         (GroupByExprs q).

(** The driver's records agree on every field. *)
Definition sameRecord (hp hp' : horizonPlanning) : Prop :=
  sel hp' = sel hp /\ qp hp' = qp hp /\ needsTruncation hp' = needsTruncation hp /\
  vtgateGrouping hp' = vtgateGrouping hp.

(** A sample of an ordered aggregate grouped on a: the query
    select distinct a from t group by a. *)
Module SampleGroup.

Definition keyA : GroupByParams := mkGroupByParams 0 1 (Some Sample.colA) 0.
Definition curr : engine_OrderedAggregate := mkEAggr false [] [keyA] 0.
Definition groupA : GroupByQP := mkGroupBy Sample.colA Sample.colA 0.
Definition qpG : QueryProjection :=
  mkQP [mkSelectExprQP (SelAliased Sample.colA "") false] false true [groupA]
       [SampleOrder.ordA] true false None.
Definition hpG : horizonPlanning :=
  mkHP (Example.selectOf [SelAliased Sample.colA ""]) (Some qpG) false false.

End SampleGroup.

(** A sample of a query grouped on a unique vindex: select id from t group by id. *)
Module SampleUnique.

Definition colId : Expr := Example.col "id".
Definition groupId : GroupByQP := mkGroupBy colId colId 0.
Definition qpU : QueryProjection :=
  mkQP [mkSelectExprQP (SelAliased colId "") false] false false [groupId] [] true false None.
Definition hpU : horizonPlanning :=
  mkHP (mkSelect [SelAliased colId ""] [colId] [] None false None "from t") (Some qpU)
       false false.

(** The same query projection carrying a projection error. *)
Definition qpErr : QueryProjection :=
  mkQP [mkSelectExprQP (SelAliased colId "") false] false false [groupId] [] true false
       (Some (vterrors_New Code_UNIMPLEMENTED "unsupported: projection")).
Definition hpErr : horizonPlanning :=
  mkHP (mkSelect [SelAliased colId ""] [colId] [] None false None "from t") (Some qpErr)
       false false.

End SampleUnique.

(** The column that a simple projection over an ordered aggregate records for
    the select item [e]: the column of an aggregate matching [e]. *)
Definition aggregateColumnFor (ea : engine_OrderedAggregate) (e : SelectExprQP) (c : Z) : Prop :=
  exists ex al a,
    Col e = SelAliased ex al /\ In a (Aggregates ea) /\
    aggregateMatches (mkAliased ex al) a = true /\ c = agCol a.






(** A column written with its keyspace, ks.l.a, and as the route installs
    it, l.a. *)
Module SampleReuse.



End SampleReuse.

(** [projectionsOnly p p']: the plan [p'] is [p] but for what a projection
    push writes: select expressions appended to the select list of a route
    holding a plain SELECT, entries appended to the Cols of a join, a hash
    join, a semi join or a simple projection, the bind variables of a join,
    and the node of a vindex function, which SupplyProjection rewrites.  The
    operators, their order, the opcodes, the engine primitives of routes, the
    ordered aggregates and every right-hand side of a semi join, subquery of
    a pullout subquery and later source of a concatenate are the same. *)
Inductive projectionsOnly : logicalPlan -> logicalPlan -> Prop :=
| po_refl p : projectionsOnly p p
| po_trans p q r : projectionsOnly p q -> projectionsOnly q r -> projectionsOnly p r
| po_route node node' sel items :
    eroute node' = eroute node -> tables node' = tables node ->
    rSelect node = StmtSelect sel ->
    rSelect node' = StmtSelect (Select_setSelectExprs sel (SelectExprs sel ++ items)) ->
    projectionsOnly (PRoute node) (PRoute node')
| po_join l r l' r' node tail vars' :
    projectionsOnly l l' -> projectionsOnly r r' ->
    projectionsOnly (PJoin l r node)
                    (PJoin l' r' (mkJoin (jOpcode node) (jCols node ++ tail) vars'))
| po_hashJoin l r l' r' node tail :
    projectionsOnly l l' -> projectionsOnly r r' ->
    projectionsOnly (PHashJoin l r node)
                    (PHashJoin l' r' (mkHashJoin (hOpcode node) (hCols node ++ tail)))
| po_semiJoin lhs lhs' rhs cols tail :
    projectionsOnly lhs lhs' ->
    projectionsOnly (PSemiJoin lhs rhs cols) (PSemiJoin lhs' rhs (cols ++ tail))
| po_simpleProjection input input' cols tail :
    projectionsOnly input input' ->
    projectionsOnly (PSimpleProjection input cols) (PSimpleProjection input' (cols ++ tail))
| po_vindexFunc node node' : projectionsOnly (PVindexFunc node) (PVindexFunc node')
| po_pulloutSubquery subquery underlying underlying' :
    projectionsOnly underlying underlying' ->
    projectionsOnly (PPulloutSubquery subquery underlying)
                    (PPulloutSubquery subquery underlying')
| po_limit input input' :
    projectionsOnly input input' -> projectionsOnly (PLimit input) (PLimit input')
| po_distinct input input' :
    projectionsOnly input input' -> projectionsOnly (PDistinct input) (PDistinct input')
| po_concatenate source0 source0' others :
    projectionsOnly source0 source0' ->
    projectionsOnly (PConcatenate (source0 :: others)) (PConcatenate (source0' :: others)).

(** Pushes onto plans of depth below [d] change projections only. *)
Definition projectionsOnly_below (L : Lib) (d : nat) : Prop :=
  forall e p st i r h o a p',
    (depth p < d)%nat ->
    pushProjection L e p st i r h = OK (o, a, p') -> projectionsOnly p p'.

(** * Properties *)

(** ** The result monad *)

Lemma bind_not_Diverge {A B : Type} (k : A -> result B) (r : result A) :
  r <> Diverge -> (forall a, r = OK a -> k a <> Diverge) -> (r ≫= k) <> Diverge.
Proof. destruct r; simpl; intros H1 H2; try congruence. apply H2; reflexivity. Qed.

(** ** The Cols vector of a join *)

Lemma joinColumn_spec reuseCol appended column cols idx added cols' :
  joinColumn reuseCol appended column cols = (idx, added, cols') ->
  (added = false /\ cols' = cols) \/
  (added = true /\ idx = len cols /\ cols' = cols ++ [column]).
Proof.
  unfold joinColumn.
  destruct (if reuseCol && negb appended then findCol column 0 cols else None);
    intros H; injection H as <- <- <-.
  - left. split; reflexivity.
  - right. split; [reflexivity|]. split; [|reflexivity].
    unfold len. rewrite length_app. simpl. lia.
Qed.

(** ** Termination of the projection pusher

    Every recursive call of pushProjection is on a child of the plan, and a
    push leaves the nesting depth of the plan as it was: the calls inside the
    loop over the left-hand columns are on a plan as deep as the first.  So a
    fuel above the depth is always enough. *)

Section Fuel.

Variable L : Lib.

Lemma depth_shape p : depth p = shapeDepth (shape p).
Proof.
  revert p. fix IH 1. intros p.
  destruct p; simpl; try reflexivity; rewrite ?IH; try reflexivity.
  f_equal. induction sources as [|s0 srcs IHs]; simpl; [reflexivity|].
  rewrite IH, IHs. reflexivity.
Qed.

Lemma shape_depth p p' : shape p' = shape p -> depth p' = depth p.
Proof. intros H. rewrite !depth_shape, H. reflexivity. Qed.

Ltac stop :=
  split; [reflexivity|]; split; [intros _; discriminate|discriminate].

Ltac diverged Hnd :=
  split; [reflexivity|]; split; [intros HT; destruct (Hnd HT); reflexivity|discriminate].

Ltac finish :=
  split; [reflexivity|]; split; [intros _; discriminate|];
  let o := fresh in let a := fresh in let p := fresh in let E := fresh in
  intros o a p E; injection E as <- <- <-; simpl; congruence.

Lemma pushLHSColumns_sound d f g :
  sound_below L d f g ->
  forall cols bv left vars st inner,
    (depth left < d)%nat ->
    pushLHSColumns f bv cols left vars st inner = pushLHSColumns g bv cols left vars st inner /\
    (Lib_terminates L -> pushLHSColumns f bv cols left vars st inner <> Diverge) /\
    forall l' v', pushLHSColumns f bv cols left vars st inner = OK (l', v') ->
                  shape l' = shape left.
Proof.
  intros H cols. induction cols as [|c cols IH]; intros bv left vars st inner Hd; simpl.
  - split; [reflexivity|]. split; [intros _; discriminate|].
    intros l' v' E. injection E as <- _. reflexivity.
  - destruct (H (AliasedOf c) left st inner true false Hd) as (Heq & Hnd & Hdep).
    rewrite <- Heq.
    destruct (f (AliasedOf c) left st inner true false) as [[[o a] l1]| | |] eqn:E; simpl;
      [|stop|stop|diverged Hnd].
    destruct bv as [|b bv]; [stop|].
    specialize (Hdep _ _ _ eq_refl).
    destruct (IH bv l1 (<[b:=o]> vars) st inner
                ltac:(rewrite (shape_depth _ _ Hdep); lia)) as (IH1 & IH2 & IH3).
    split; [exact IH1|]. split; [exact IH2|].
    intros l' v' E'. rewrite (IH3 _ _ E'). exact Hdep.
Qed.

Lemma joinColumn_cases reuseCol appended column cols :
  joinColumn reuseCol appended column cols = (len (cols ++ [column]) - 1, true, cols ++ [column]) \/
  exists idx, joinColumn reuseCol appended column cols = (idx, false, cols).
Proof.
  unfold joinColumn.
  destruct (if reuseCol && negb appended then findCol column 0 cols else None); eauto.
Qed.

Lemma rewriteProjectionOfDerivedTable_terminates e st :
  Lib_terminates L -> rewriteProjectionOfDerivedTable L e st <> Diverge.
Proof.
  intros (T & _ & _). unfold rewriteProjectionOfDerivedTable.
  destruct (TableInfoForExpr st (aExpr e)) as [ti err].
  assert (D : rewriteIfDerivedTable L e ti <> Diverge).
  { unfold rewriteIfDerivedTable. destruct ti as [[id|id]|]; try discriminate.
    specialize (T (aExpr e) (DerivedTable id)).
    destruct (RewriteDerivedExpression L (aExpr e) (DerivedTable id)); simpl; congruence. }
  destruct err as [er|]; [destruct (negb (bool_decide _))|]; try exact D; discriminate.
Qed.

Lemma pushProjection_route_terminates e node st i r :
  Lib_terminates L -> pushProjection_route L e node st i r <> Diverge.
Proof.
  intros T. unfold pushProjection_route.
  apply bind_not_Diverge.
  - unfold routeConvertCheck. destruct (IsColName _); [discriminate|].
    destruct (evalengine_Convert L _ _); [|discriminate].
    destruct (negb (bool_decide _)); [discriminate|]. destruct (negb i); discriminate.
  - intros _ _. unfold routeReuseOrAppend. cbv zeta.
    destruct (r && _); [discriminate|].
    destruct (rSelect node); [|discriminate].
    apply bind_not_Diverge; [apply rewriteProjectionOfDerivedTable_terminates; exact T|].
    discriminate.
Qed.

Ltac use_self H c :=
  match goal with
  | |- context [?f ?e c ?st ?i ?r ?h] =>
      let Heq := fresh "Heq" in
      let Hnd := fresh "Hnd" in
      let Hdep := fresh "Hdep" in
      destruct (H e c st i r h ltac:(simpl in *; lia)) as (Heq & Hnd & Hdep);
      rewrite <- ?Heq;
      let E := fresh "E" in
      destruct (f e c st i r h) as [[[? ?] ?]| | |] eqn:E; simpl;
      [specialize (Hdep _ _ _ eq_refl)|stop|stop|diverged Hnd]
  end.

Lemma pushProjection_body_sound d f g :
  sound_below L d f g -> sound_below L (S d) (pushProjection_body L f) (pushProjection_body L g).
Proof.
  intros H e p st i r h Hd.
  destruct p; simpl in Hd; unfold pushProjection_body.
  - (* route *)
    pose proof (pushProjection_route_terminates e node st i r) as T.
    destruct (pushProjection_route L e node st i r) as [[[o a] n']| | |]; simpl;
      [finish|stop|stop|diverged T].
  - (* join *)
    cbv zeta.
    destruct (IsSolvedBy L (RecursiveDeps st (aExpr e)) (ContainsTables L p1)).
    { use_self H p1.
      destruct (joinColumn_cases r b (- (z + 1)) (jCols node)) as [-> | [idx ->]]; finish. }
    destruct (IsSolvedBy L (RecursiveDeps st (aExpr e)) (ContainsTables L p2)).
    { use_self H p2.
      destruct (joinColumn_cases r b (z + 1) (jCols node)) as [-> | [idx ->]]; finish. }
    destruct h; simpl; [stop|].
    destruct (breakExpressionInLHSandRHS L (aExpr e) st (ContainsTables L p1))
      as [[[bv cols] rw]| | |] eqn:EB; simpl; [|stop|stop|].
    2:{ split; [reflexivity|]. split; [|discriminate].
        intros (_ & T & _). destruct (T _ _ _ EB). }
    destruct (pushLHSColumns_sound d f g H cols bv p1 (jVars node) st i ltac:(lia))
      as (L1 & L2 & L3).
    rewrite <- L1.
    destruct (pushLHSColumns f bv cols p1 (jVars node) st i) as [[l' v']| | |] eqn:EL; simpl;
      [|stop|stop|diverged L2].
    specialize (L3 _ _ eq_refl).
    use_self H p2.
    destruct (joinColumn_cases r b (z + 1) (jCols node)) as [-> | [idx ->]]; finish.
  - (* hash join *)
    cbv zeta.
    destruct (IsSolvedBy L (RecursiveDeps st (aExpr e)) (ContainsTables L p1)).
    { use_self H p1.
      destruct (joinColumn_cases r b (- (z + 1)) (hCols node)) as [-> | [idx ->]]; finish. }
    destruct (IsSolvedBy L (RecursiveDeps st (aExpr e)) (ContainsTables L p2)).
    { use_self H p2.
      destruct (joinColumn_cases r b (z + 1) (hCols node)) as [-> | [idx ->]]; finish. }
    destruct h; simpl; stop.
  - (* semi join *)
    cbv zeta. use_self H p1.
    destruct (joinColumn_cases r b (- (z + 1)) cols) as [-> | [idx ->]]; finish.
  - (* ordered aggregate *)
    destruct (findAggregate e (Aggregates eaggr)); [finish|stop].
  - (* memory sort *)
    stop.
  - (* simple projection *)
    use_self H p.
    destruct (if r then findCol z 0 eSimpleProjCols else None); finish.
  - (* vindex function *)
    cbv zeta.
    destruct (SupplyProjection L node e r) as [[o n']| | |] eqn:ES; simpl;
      [finish|stop|stop|].
    split; [reflexivity|]. split; [|discriminate].
    intros (_ & _ & T). destruct (T _ _ _ ES).
  - (* pullout subquery *)
    use_self H p2. finish.
  - (* filter *)
    stop.
  - (* limit *)
    use_self H p. finish.
  - (* distinct *)
    use_self H p. finish.
  - (* concatenate *)
    destruct h; [stop|].
    destruct sources as [|s0 others]; [stop|].
    use_self H s0.
    destruct b; [stop|finish].
  - (* other *)
    stop.
Qed.

Lemma pushProjection_rec_sound d :
  forall n m, (d <= n)%nat -> (d <= m)%nat ->
    sound_below L d (pushProjection_rec L n) (pushProjection_rec L m).
Proof.
  induction d as [|d IH]; intros n m Hn Hm.
  - intros e p st i r h Hd. lia.
  - destruct n as [|n]; [lia|]. destruct m as [|m]; [lia|].
    simpl. apply pushProjection_body_sound. apply IH; lia.
Qed.

(** With enough fuel the result does not depend on the fuel. *)
Lemma pushProjection_rec_fuel n e p st i r h :
  (depth p < n)%nat ->
  pushProjection_rec L n e p st i r h = pushProjection L e p st i r h.
Proof.
  intros Hd. unfold pushProjection.
  apply (pushProjection_rec_sound (S (depth p)) n (S (depth p))); lia.
Qed.

(** pushProjection terminates when the collaborators do. *)
Lemma pushProjection_terminates e p st i r h :
  Lib_terminates L -> pushProjection L e p st i r h <> Diverge.
Proof.
  unfold pushProjection.
  apply (pushProjection_rec_sound (S (depth p)) (S (depth p)) (S (depth p))); lia.
Qed.

(** A push keeps the operators of the plan and their nesting. *)
Lemma pushProjection_shape e p st i r h o a p' :
  pushProjection L e p st i r h = OK (o, a, p') -> shape p' = shape p.
Proof.
  unfold pushProjection.
  apply (pushProjection_rec_sound (S (depth p)) (S (depth p)) (S (depth p))); lia.
Qed.

Lemma pushProjection_depth e p st i r h o a p' :
  pushProjection L e p st i r h = OK (o, a, p') -> depth p' = depth p.
Proof. intros H. apply shape_depth. exact (pushProjection_shape _ _ _ _ _ _ _ _ _ H). Qed.

(** pushProjection satisfies the equation of its body: the Go function. *)
Lemma pushProjection_unfold e p st i r h :
  pushProjection L e p st i r h = pushProjection_body L (pushProjection L) e p st i r h.
Proof.
  unfold pushProjection at 1. simpl.
  apply (pushProjection_body_sound (depth p)); [|lia].
  intros e' p' st' i' r' h' Hd.
  split; [apply pushProjection_rec_fuel; lia|].
  apply (pushProjection_rec_sound (depth p) (depth p) (depth p)); lia.
Qed.

End Fuel.

(** ** Column truncation *)

Lemma truncateCount_withTruncateCount n p :
  isTruncatable p = true -> truncateCount (withTruncateCount n p) = Some n.
Proof. destruct p; simpl; intros H; try discriminate; reflexivity. Qed.

(** C10.  When needs-truncation was never set, the truncation step succeeds on
    every plan and returns it unchanged, also on the variants it would reject
    (limit, distinct, concatenate, ...). *)
Theorem truncateColumnsIfNeeded_not_needed (hp : horizonPlanning) (plan : logicalPlan) :
  needsTruncation hp = false ->
  truncateColumnsIfNeeded hp plan = OK plan.
Proof. intros H. unfold truncateColumnsIfNeeded. rewrite H. reflexivity. Qed.

Lemma truncateColumnsIfNeeded_not_needed_witness :
  needsTruncation (Example.hpOf Example.emptySelect) = false /\
  truncateColumnsIfNeeded (Example.hpOf Example.emptySelect)
    (PConcatenate [PLimit (PDistinct (PRoute (Example.scatter [])))])
  = OK (PConcatenate [PLimit (PDistinct (PRoute (Example.scatter [])))]).
Proof.
  split; [reflexivity|].
  apply (truncateColumnsIfNeeded_not_needed (Example.hpOf Example.emptySelect)).
  reflexivity.
Defined.

(** C3.  When needs-truncation is set: on a route, an ordered aggregate or a
    memory sort the step sets the truncate column count of that node to
    S.GetColumnCount() and changes nothing else; on a pullout subquery or a
    filter it is the step on the underlying or input plan; on a join, a semi
    join or a hash join it succeeds and changes nothing; on every other
    variant it fails with an internal error. *)
Theorem truncateColumnsIfNeeded_needed (hp : horizonPlanning) :
  needsTruncation hp = true ->
  (forall p, isTruncatable p = true ->
     truncateColumnsIfNeeded hp p = OK (withTruncateCount (Select_GetColumnCount (sel hp)) p) /\
     truncateCount (withTruncateCount (Select_GetColumnCount (sel hp)) p)
       = Some (Select_GetColumnCount (sel hp))) /\
  (forall subquery underlying,
     truncateColumnsIfNeeded hp (PPulloutSubquery subquery underlying)
     = (underlying' ← truncateColumnsIfNeeded hp underlying;
        OK (PPulloutSubquery subquery underlying'))) /\
  (forall input predicate,
     truncateColumnsIfNeeded hp (PFilter input predicate)
     = (input' ← truncateColumnsIfNeeded hp input; OK (PFilter input' predicate))) /\
  (forall p, isAnyJoin p = true -> truncateColumnsIfNeeded hp p = OK p) /\
  (forall p, noTruncationCase p = true ->
     exists msg, truncateColumnsIfNeeded hp p = Err (vterrors_New Code_INTERNAL msg)).
Proof.
  intros H. unfold truncateColumnsIfNeeded. rewrite H. simpl.
  repeat split.
  - destruct p; simpl in *; try discriminate; reflexivity.
  - apply truncateCount_withTruncateCount; assumption.
  - intros p Hp. destruct p; simpl in *; try discriminate; reflexivity.
  - intros p Hp. destruct p; simpl in *; try discriminate; eexists; reflexivity.
Qed.

Lemma truncateColumnsIfNeeded_needed_witness :
  truncateCount
    (withTruncateCount 2 (PMemorySort (PRoute (Example.scatter [])) empty_MemorySort)) = Some 2.
Proof.
  pose (hp := mkHP (Example.selectOf [SelAliased (Example.col "a") ""; SelAliased (Example.col "b") ""])
                   None true false).
  destruct (truncateColumnsIfNeeded_needed hp eq_refl) as [H _].
  exact (proj2 (H (PMemorySort (PRoute (Example.scatter [])) empty_MemorySort) eq_refl)).
Defined.

(** ** The single-shard shortcut *)

(** C1.  On a single-shard route planHorizon hands the statement to
    planSingleShardRoutePlan and returns that same route: the driver's record
    comes back as it was (no query projection, no truncation, no gateway
    grouping) and so does the context, and the result is the route itself, not
    an operator wrapped around it.  With the shortcut installing the SELECT,
    the horizon clauses of the route's SELECT are those of the statement. *)
Theorem planHorizon_single_shard (L : Lib) (hp : horizonPlanning) (ctx : planningContext)
    (rb : routeGen4) :
  isSingleShard L rb = true ->
  planHorizon L hp ctx (PRoute rb)
  = (rb' ← planSingleShardRoutePlan L (sel hp) rb; OK (PRoute rb', hp, ctx)) /\
  (planSingleShardRoutePlan L = planSingleShardRoutePlan_spec ->
   exists rb',
     planHorizon L hp ctx (PRoute rb) = OK (PRoute rb', hp, ctx) /\
     sameHorizon (GetFirstSelect (rSelect rb')) (sel hp) /\
     eroute rb' = eroute rb /\ tables rb' = tables rb).
Proof.
  intros H.
  assert (E : planHorizon L hp ctx (PRoute rb)
              = (rb' ← planSingleShardRoutePlan L (sel hp) rb; OK (PRoute rb', hp, ctx))).
  { unfold planHorizon. simpl. rewrite H. reflexivity. }
  split; [exact E|].
  intros Hs. rewrite E, Hs. unfold planSingleShardRoutePlan_spec. simpl.
  eexists. split; [reflexivity|]. simpl.
  split; [|split; reflexivity].
  assert (G : forall st s, GetFirstSelect (SetFirstSelect st s) = s).
  { induction st; simpl; auto. }
  rewrite G. unfold sameHorizon, installSelect. simpl. repeat split.
Qed.

Lemma planHorizon_single_shard_witness :
  planHorizon Example.lib
    (Example.hpOf (Example.selectOf [SelAliased (Example.col "a") ""])) Example.ctx
    (PRoute (Example.unsharded []))
  = OK (PRoute (Example.unsharded [SelAliased (Example.col "a") ""]),
        Example.hpOf (Example.selectOf [SelAliased (Example.col "a") ""]), Example.ctx) /\
  exists rb',
    planHorizon Example.lib
      (Example.hpOf (Example.selectOf [SelAliased (Example.col "a") ""])) Example.ctx
      (PRoute (Example.unsharded []))
    = OK (PRoute rb', Example.hpOf (Example.selectOf [SelAliased (Example.col "a") ""]),
          Example.ctx) /\
    sameHorizon (GetFirstSelect (rSelect rb'))
                (Example.selectOf [SelAliased (Example.col "a") ""]).
Proof.
  pose proof (planHorizon_single_shard Example.lib
                (Example.hpOf (Example.selectOf [SelAliased (Example.col "a") ""]))
                Example.ctx (Example.unsharded []) eq_refl) as [E S].
  split; [rewrite E; reflexivity|].
  destruct (S eq_refl) as (rb' & H1 & H2 & _). exists rb'. split; assumption.
Defined.

(** ** The projection pusher on a route *)

Lemma pushProjection_route_eq (L : Lib) expr node st inner reuseCol hasAggregation :
  pushProjection L expr (PRoute node) st inner reuseCol hasAggregation
  = ('(offset, added, node') ← pushProjection_route L expr node st inner reuseCol;
     OK (offset, added, PRoute node')).
Proof. reflexivity. Qed.

(** C4, as the code has it.  When evalengine.Convert fails with an
    UNIMPLEMENTED error on a non-column expression pushed onto a route: on the
    non-preserved side (inner = false) the push fails with code UNIMPLEMENTED
    and the message "unsupported: cross-shard left join and column
    expressions"; on the preserved side (inner = true) the push goes on with
    the reuse check and the append, and when nothing is reused on a plain
    SELECT the expression is appended to the route's select list. *)
Theorem pushProjection_route_unimplemented (L : Lib) (expr : AliasedExpr) (node : routeGen4)
    (st : SemTable) (reuseCol hasAggregation : bool) (err : error) :
  IsColName (aExpr expr) = false ->
  evalengine_Convert L (aExpr expr) st = Some err ->
  vterrors_Code err = Code_UNIMPLEMENTED ->
  pushProjection L expr (PRoute node) st false reuseCol hasAggregation
  = Err (mkError Code_UNIMPLEMENTED Undefined
           "unsupported: cross-shard left join and column expressions") /\
  pushProjection L expr (PRoute node) st true reuseCol hasAggregation
  = ('(offset, added, node') ← routeReuseOrAppend L expr node st reuseCol;
     OK (offset, added, PRoute node')) /\
  (forall sel expr2,
     reuseCol = false \/ checkIfAlreadyExists expr (rSelect node) st = -1 ->
     rSelect node = StmtSelect sel ->
     rewriteProjectionOfDerivedTable L
       (mkAliased (RemoveKeyspaceFromColName L (aExpr expr)) (aAs expr)) st = OK expr2 ->
     pushProjection L expr (PRoute node) st true reuseCol hasAggregation
     = OK (len (SelectExprs sel), true,
           PRoute (route_setSelect node
                     (StmtSelect (Select_setSelectExprs sel
                                    (SelectExprs sel ++ [SelOfAliased expr2])))))).
Proof.
  intros Hc Hconv Hcode.
  assert (Ht : pushProjection L expr (PRoute node) st true reuseCol hasAggregation
               = ('(offset, added, node') ← routeReuseOrAppend L expr node st reuseCol;
                  OK (offset, added, PRoute node'))).
  { rewrite pushProjection_route_eq. unfold pushProjection_route, routeConvertCheck.
    rewrite Hc, Hconv, Hcode. reflexivity. }
  split; [|split; [exact Ht|]].
  - rewrite pushProjection_route_eq. unfold pushProjection_route, routeConvertCheck.
    rewrite Hc, Hconv, Hcode. reflexivity.
  - intros sel expr2 Hre Hsel Hrw. rewrite Ht. unfold routeReuseOrAppend. cbv zeta.
    assert (Hb : reuseCol &&
                 negb ((if reuseCol then checkIfAlreadyExists expr (rSelect node) st else -1)
                       =? -1) = false).
    { destruct reuseCol; [|reflexivity]. destruct Hre as [Hre|Hre]; [discriminate|].
      rewrite Hre. reflexivity. }
    rewrite Hb, Hsel, Hrw. reflexivity.
Qed.

Lemma pushProjection_route_unimplemented_witness :
  pushProjection Example.lib
    (AliasedOf (FuncExpr "lower" false [SelAliased (Example.qcol "r" "x") ""]))
    (PRoute (Example.scatterR [])) Example.st false false false
  = Err (mkError Code_UNIMPLEMENTED Undefined
           "unsupported: cross-shard left join and column expressions").
Proof.
  exact (proj1 (pushProjection_route_unimplemented Example.lib
                  (AliasedOf (FuncExpr "lower" false [SelAliased (Example.qcol "r" "x") ""]))
                  (Example.scatterR []) Example.st false false
                  (vterrors_New Code_UNIMPLEMENTED "unsupported: function call")
                  eq_refl eq_refl eq_refl)).
Defined.

(** C4 as stated fails: pushing lower(r.x), which the evaluation engine
    answers with UNIMPLEMENTED, onto the non-preserved side does not give the
    message "unimplemented: cross-shard left join and column expressions". *)
Lemma pushProjection_left_join_message_counterexample :
  IsColName (FuncExpr "lower" false [SelAliased (Example.qcol "r" "x") ""]) = false /\
  (exists err,
     evalengine_Convert Example.lib
       (FuncExpr "lower" false [SelAliased (Example.qcol "r" "x") ""]) Example.st = Some err /\
     vterrors_Code err = Code_UNIMPLEMENTED) /\
  ~ (exists e,
       pushProjection Example.lib
         (AliasedOf (FuncExpr "lower" false [SelAliased (Example.qcol "r" "x") ""]))
         (PRoute (Example.scatterR [])) Example.st false false false = Err e /\
       errCode e = Code_UNIMPLEMENTED /\
       errMsg e = unimplementedLeftJoinMessage).
Proof.
  split; [reflexivity|]. split; [eexists; split; reflexivity|].
  intros (e & He & _ & Hm). vm_compute in He. injection He as <-. discriminate Hm.
Qed.

(** ** wrapAndPushExpr *)

Lemma prefix_append (a b : string) : String.prefix a (a +:+ b) = true.
Proof.
  induction a as [|c a IH]; simpl.
  - destruct b; reflexivity.
  - destruct (Ascii.ascii_dec c c) as [_|N]; [exact IH|destruct (N eq_refl)].
Qed.

Lemma weightStringColumn_ok (L : Lib) expr c :
  weightColumn expr c -> weightStringColumn L expr = OK c.
Proof.
  unfold weightStringColumn. intros [[H ->] | [H (op & -> & Hc)]].
  - rewrite H. reflexivity.
  - simpl. rewrite Hc. reflexivity.
Qed.

Lemma weightStringColumn_complex (L : Lib) expr :
  complexOrderExpr expr -> weightStringColumn L expr = Err (errComplexOrderBy L expr).
Proof.
  unfold weightStringColumn. intros [H1 H2]. rewrite H1.
  destruct expr; try reflexivity. rewrite (H2 _ _ eq_refl). reflexivity.
Qed.

(** C7.  After the push of the expression itself, which gave [offset] and
    [added]: with no weight-string expression, or with a column of numeric
    type, wrapAndPushExpr returns weight-string offset -1 and the plan as the
    first push left it; with a weight-string expression and an expression that
    is neither a column nor a unary expression over a column it fails with
    "unsupported: in scatter query: complex order by expression: ..."; in the
    remaining case it pushes the function call weight_string(weightStrExpr),
    without alias, with reuse, returns its offset, and the added flag is the
    disjunction of the two pushes'. *)
Theorem wrapAndPushExpr_cases (L : Lib) (expr : Expr) (weightStrExpr : option Expr)
    (plan : logicalPlan) (st : SemTable) (offset : Z) (added : bool) (plan1 : logicalPlan) :
  pushProjection L (AliasedOf expr) plan st true true false = OK (offset, added, plan1) ->
  (weightStrExpr = None ->
   wrapAndPushExpr L expr weightStrExpr plan st = OK (offset, -1, added, plan1)) /\
  (forall ws c,
     weightStrExpr = Some ws -> weightColumn expr c -> numericColumn L st c ->
     wrapAndPushExpr L expr weightStrExpr plan st = OK (offset, -1, added, plan1)) /\
  (forall ws,
     weightStrExpr = Some ws -> complexOrderExpr expr ->
     exists e,
       wrapAndPushExpr L expr weightStrExpr plan st = Err e /\
       errCode e = Code_UNIMPLEMENTED /\
       String.prefix "unsupported: in scatter query: complex order by expression" (errMsg e)
       = true) /\
  (forall ws c,
     weightStrExpr = Some ws -> weightColumn expr c -> ~ numericColumn L st c ->
     wrapAndPushExpr L expr weightStrExpr plan st
     = ('(wsOffset, wAdded, plan2) ←
          pushProjection L (mkAliased (FuncExpr "weight_string" false [SelAliased ws ""]) "")
            plan1 st true true false;
        OK (offset, wsOffset, added || wAdded, plan2))).
Proof.
  intros Hpush. unfold wrapAndPushExpr. rewrite Hpush. simpl.
  split; [|split; [|split]].
  - intros ->. reflexivity.
  - intros ws c -> Hc (t & Ht & Hn).
    rewrite (weightStringColumn_ok L _ _ Hc). simpl. rewrite Ht, Hn.
    rewrite orb_false_r. reflexivity.
  - intros ws -> Hc. rewrite (weightStringColumn_complex L _ Hc). simpl.
    eexists. split; [reflexivity|]. split; [reflexivity|].
    unfold errComplexOrderBy. simpl.
    apply (prefix_append "unsupported: in scatter query: complex order by expression"
             (": " +:+ sqlparser_String L (NodeExpr expr))).
  - intros ws c -> Hc Hn.
    rewrite (weightStringColumn_ok L _ _ Hc). simpl.
    destruct (TypeFor st c) as [t|] eqn:Ht; [|reflexivity].
    destruct (IsNumber L t) eqn:Hnum; [|reflexivity].
    exfalso. apply Hn. exists t. split; assumption.
Qed.

Lemma wrapAndPushExpr_cases_witness :
  wrapAndPushExpr Example.lib (Example.col "n") (Some (Example.col "n"))
    (PRoute (Example.scatter [])) Example.st
  = OK (0, -1, true, PRoute (Example.scatter [SelAliased (Example.col "n") ""])) /\
  wrapAndPushExpr Example.lib (Example.col "b") (Some (Example.col "b"))
    (PRoute (Example.scatter [])) Example.st
  = OK (0, 1, true,
        PRoute (Example.scatter
                  [SelAliased (Example.col "b") "";
                   SelAliased (FuncExpr "weight_string" false
                                 [SelAliased (Example.col "b") ""]) ""])).
Proof.
  split.
  - refine (proj1 (proj2 (wrapAndPushExpr_cases Example.lib (Example.col "n")
                            (Some (Example.col "n")) (PRoute (Example.scatter [])) Example.st
                            0 true (PRoute (Example.scatter [SelAliased (Example.col "n") ""]))
                            eq_refl))
                  (Example.col "n") (Example.col "n") eq_refl _ _).
    + left. split; reflexivity.
    + exists Example.numericType. split; reflexivity.
  - rewrite (proj2 (proj2 (proj2 (wrapAndPushExpr_cases Example.lib (Example.col "b")
                            (Some (Example.col "b")) (PRoute (Example.scatter [])) Example.st
                            0 true (PRoute (Example.scatter [SelAliased (Example.col "b") ""]))
                            eq_refl)))
                  (Example.col "b") (Example.col "b") eq_refl).
    + reflexivity.
    + left. split; reflexivity.
    + intros (t & Ht & _). discriminate Ht.
Defined.

(** ** Distinct aggregates *)



(** ** Reuse of a projection on a route *)




(** The search returns -1 or an index from [i] on. *)
Lemma checkIfAlreadyExists_from_range expr dep st i l :
  checkIfAlreadyExists_from expr dep st i l = -1 \/
  i <= checkIfAlreadyExists_from expr dep st i l < i + len l.
Proof.
  revert i. induction l as [|x l IH]; intros i; [left; reflexivity|].
  unfold len in *. simpl length. rewrite Nat2Z.inj_succ.
  assert (C : checkIfAlreadyExists_from expr dep st (i + 1) l = -1 \/
              i <= checkIfAlreadyExists_from expr dep st (i + 1) l
                < i + Z.succ (Z.of_nat (length l))).
  { destruct (IH (i + 1)) as [H|H]; [left; exact H|right; lia]. }
  assert (R : i <= i < i + Z.succ (Z.of_nat (length l))) by lia.
  simpl. destruct x as [se sas| |]; try exact C.
  destruct (negb _); [exact C|].
  destruct (ColIdent_IsEmpty sas).
  - destruct se, (aExpr expr); repeat (match goal with |- context [if ?b then _ else _] =>
      destruct b end); auto.
  - destruct (aExpr expr); try exact C. destruct (ColIdent_Equal _ _); auto.
Qed.


Lemma rewriteProjectionOfDerivedTable_alias (L : Lib) x st y :
  rewriteProjectionOfDerivedTable L x st = OK y -> aAs y = aAs x.
Proof.
  unfold rewriteProjectionOfDerivedTable.
  destruct (TableInfoForExpr st (aExpr x)) as [ti err].
  assert (R : rewriteIfDerivedTable L x ti = OK y -> aAs y = aAs x).
  { unfold rewriteIfDerivedTable. destruct ti as [[id|id]|]; try (intros H; injection H as <-; reflexivity).
    destruct (RewriteDerivedExpression L (aExpr x) (DerivedTable id)); simpl; try discriminate.
    intros H. injection H as <-. reflexivity. }
  destruct err as [e|]; [destruct (negb (bool_decide _)); [discriminate|]|]; exact R.
Qed.








Lemma findCol_ge column cols : forall idx i, findCol column idx cols = Some i -> idx <= i.
Proof.
  induction cols as [|c cols IH]; intros idx i H; simpl in H; [discriminate|].
  destruct (column =? c); [injection H as <-; lia|].
  specialize (IH _ _ H). lia.
Qed.

Lemma findCol_lookup c cols :
  forall i j, findCol c i cols = Some j -> cols !! Z.to_nat (j - i) = Some c.
Proof.
  induction cols as [|x cols IH]; intros i j H; simpl in H; [discriminate|].
  destruct (Z.eqb_spec c x) as [->|Hne].
  - injection H as <-. rewrite Z.sub_diag. reflexivity.
  - pose proof (findCol_ge _ _ _ _ H) as Hge. specialize (IH _ _ H).
    replace (Z.to_nat (j - i)) with (S (Z.to_nat (j - (i + 1)))) by lia. exact IH.
Qed.








(** ** Gateway-side distinct *)

Lemma addDistinct_loop_app (L : Lib) all pre rest :
  forall i st,
    addDistinct_loop L all i (pre ++ rest) st
    = (st' ← addDistinct_loop L all i pre st; addDistinct_loop L all (i + len pre) rest st').
Proof.
  induction pre as [|x pre IH]; intros i st.
  - unfold len. simpl. rewrite Z.add_0_r. reflexivity.
  - simpl. destruct (addDistinct_step L all i x st) as [st1| | |]; simpl; try reflexivity.
    rewrite IH. unfold len. simpl length.
    replace (i + 1 + Z.of_nat (length pre)) with (i + Z.of_nat (S (length pre))) by lia.
    reflexivity.
Qed.

(** Each item handled by the loop adds one key, whose KeyCol is its index. *)
Lemma addDistinct_loop_keys (L : Lib) all rest :
  forall i st st',
    addDistinct_loop L all i rest st = OK st' ->
    exists keys,
      dsGroupByKeys st' = dsGroupByKeys st ++ keys /\
      length keys = length rest /\
      forall j key, keys !! j = Some key -> KeyCol key = i + Z.of_nat j.
Proof.
  induction rest as [|x rest IH]; intros i st st' H; simpl in H.
  - injection H as <-. exists []. rewrite app_nil_r. repeat split. intros j key Hj.
    rewrite lookup_nil in Hj. discriminate.
  - destruct (addDistinct_step L all i x st) as [st1| | |] eqn:Hstep; try discriminate.
    simpl in H. destruct (IH _ _ _ H) as (keys & Hk & Hl & Hkc).
    unfold addDistinct_step in Hstep.
    destruct (GetAliasedExpr L x) as [ae| | |]; try discriminate. simpl in Hstep.
    destruct (isAmbiguousOrderBy i (aAs ae) all); [discriminate|].
    destruct (if ColIdent_IsEmpty (aAs ae) then _ else _) as [inner ctx1].
    destruct (wrapAndPushExpr L _ _ _ _) as [[[[o w] a] p']| | |]; try discriminate.
    simpl in Hstep. injection Hstep as <-. simpl in Hk.
    eexists (_ :: keys). split; [rewrite Hk, <- app_assoc; reflexivity|].
    split; [simpl; lia|].
    intros [|j] key Hj; simpl in Hj.
    + injection Hj as <-. simpl. lia.
    + rewrite (Hkc _ _ Hj). lia.
Qed.

(** The scan of isAmbiguousOrderBy answers true when an item other than the
    one at [index] is known under the name [col]. *)
Lemma isAmbiguousOrderBy_from_collides index col exprs :
  forall i j ej n,
    exprs !! j = Some ej -> i + Z.of_nat j <> index ->
    itemName ej = Some n -> ColIdent_Equal col n = true ->
    isAmbiguousOrderBy_from index col i exprs = true.
Proof.
  induction exprs as [|x exprs IH]; intros i j ej n Hj Hne Hn Heq.
  - rewrite lookup_nil in Hj. discriminate.
  - simpl. destruct j as [|j]; simpl in Hj.
    + injection Hj as ->. rewrite Z.add_0_r in Hne.
      apply Z.eqb_neq in Hne. rewrite Hne.
      unfold itemName in Hn. destruct (Col ej); try discriminate.
      injection Hn as <-. rewrite Heq. reflexivity.
    + assert (R : isAmbiguousOrderBy_from index col (i + 1) exprs = true).
      { apply (IH (i + 1) j ej n); auto. lia. }
      destruct (i =? index); [exact R|].
      destruct (Col x); try reflexivity.
      match goal with |- (if ?b then _ else _) = _ => destruct b end; [reflexivity|exact R].
Qed.

Lemma isAmbiguousOrderBy_collides exprs k al :
  aliasCollides exprs k al -> isAmbiguousOrderBy (Z.of_nat k) al exprs = true.
Proof.
  intros (Hne & j & ej & n & Hjk & Hj & Hn & Heq). unfold isAmbiguousOrderBy.
  unfold ColIdent_String. destruct (String.eqb_spec al ""); [contradiction|].
  apply (isAmbiguousOrderBy_from_collides _ _ _ 0 j ej n); auto. lia.
Qed.

(** C8, as the code has it.  addDistinct handles the select items in order
    and stops at the first failure.  When the alias of an item is non-empty
    and equals the alias or the bare column name of another item, planning
    never succeeds, and once the items before it are handled without error it
    fails with "generating order by clause: ambiguous symbol reference: ...".
    When planning succeeds, the result is an ordered aggregate without
    aggregates whose GroupByKeys hold one entry per select item, the entry at
    position i having KeyCol = i. *)
Theorem addDistinct_ambiguous_alias (L : Lib) (hp : horizonPlanning) (ctx : planningContext)
    (plan : logicalPlan) (q : QueryProjection) :
  qp hp = Some q ->
  (forall pre ek post ex al,
     qSelectExprs q = pre ++ ek :: post ->
     Col ek = SelAliased ex al ->
     aliasCollides (qSelectExprs q) (length pre) al ->
     (forall out, addDistinct L hp ctx plan <> OK out) /\
     (forall st1,
        addDistinct_loop L (qSelectExprs q) 0 pre (addDistinct_init hp ctx plan) = OK st1 ->
        exists e,
          addDistinct L hp ctx plan = Err e /\
          errCode e = Code_UNIMPLEMENTED /\
          errMsg e = "generating order by clause: ambiguous symbol reference: "
                     +:+ sqlparser_String L (NodeColIdent al))) /\
  (forall out hp' ctx',
     addDistinct L hp ctx plan = OK (out, hp', ctx') ->
     exists inner eaggr,
       out = POrderedAggregate inner eaggr /\
       Aggregates eaggr = [] /\
       length (GroupByKeys eaggr) = length (qSelectExprs q) /\
       forall i key, GroupByKeys eaggr !! i = Some key -> KeyCol key = Z.of_nat i).
Proof.
  intros Hq. split.
  - intros pre ek post ex al Hall HCol Hcol.
    pose proof (isAmbiguousOrderBy_collides _ _ _ Hcol) as Hamb.
    assert (Hstep : forall st1,
              addDistinct_step L (qSelectExprs q) (0 + len pre) ek st1 = Err (errAmbiguous L al)).
    { intros st1. unfold addDistinct_step, GetAliasedExpr. rewrite HCol.
      cbn -[isAmbiguousOrderBy wrapAndPushExpr Z.add Z.of_nat].
      unfold len. rewrite Z.add_0_l, Hamb. reflexivity. }
    assert (Hloop : addDistinct_loop L (qSelectExprs q) 0 (qSelectExprs q)
                      (addDistinct_init hp ctx plan)
                    = (st' ← addDistinct_loop L (qSelectExprs q) 0 pre
                               (addDistinct_init hp ctx plan);
                       Err (errAmbiguous L al))).
    { rewrite Hall at 2. rewrite addDistinct_loop_app.
      destruct (addDistinct_loop L (qSelectExprs q) 0 pre _) as [st1| | |]; try reflexivity.
      simpl. rewrite Hstep. reflexivity. }
    unfold addDistinct, hp_qp. rewrite Hq. simpl.
    fold (addDistinct_init hp ctx plan). rewrite Hloop.
    split.
    + intros out.
      destruct (addDistinct_loop L (qSelectExprs q) 0 pre _); simpl; discriminate.
    + intros st1 ->. simpl. eexists. split; [reflexivity|]. split; reflexivity.
  - intros out hp' ctx' H. unfold addDistinct, hp_qp in H. rewrite Hq in H. simpl in H.
    destruct (addDistinct_loop L (qSelectExprs q) 0 (qSelectExprs q) _) as [st1| | |] eqn:Hl;
      try discriminate.
    simpl in H.
    destruct (planOrderBy L _ _ _ _) as [[innerPlan hp2]| | |]; try discriminate.
    simpl in H. injection H as <- <- <-.
    destruct (addDistinct_loop_keys L _ _ _ _ _ Hl) as (keys & Hk & Hlen & Hkc).
    simpl in Hk. subst keys.
    eexists _, _. split; [reflexivity|]. simpl. split; [reflexivity|].
    split; [exact Hlen|]. intros i key Hi. rewrite (Hkc _ _ Hi). lia.
Qed.

Lemma addDistinct_ambiguous_alias_witness :
  exists e,
    addDistinct Example.lib
      (mkHP Example.emptySelect
         (Some (mkQP [mkSelectExprQP (SelAliased (Example.col "a") "x") false;
                      mkSelectExprQP (SelAliased (Example.col "b") "X") false]
                     false true [] [] true false None))
         false false)
      Example.ctx (PRoute (Example.scatter [])) = Err e /\
    errCode e = Code_UNIMPLEMENTED /\
    errMsg e = "generating order by clause: ambiguous symbol reference: x".
Proof.
  pose (q := mkQP [mkSelectExprQP (SelAliased (Example.col "a") "x") false;
                   mkSelectExprQP (SelAliased (Example.col "b") "X") false]
                  false true [] [] true false None).
  refine (proj2 (proj1 (addDistinct_ambiguous_alias Example.lib
                          (mkHP Example.emptySelect (Some q) false false)
                          Example.ctx (PRoute (Example.scatter [])) q eq_refl)
                   [] (mkSelectExprQP (SelAliased (Example.col "a") "x") false)
                   [mkSelectExprQP (SelAliased (Example.col "b") "X") false]
                   (Example.col "a") "x" eq_refl eq_refl _) _ eq_refl).
  split; [discriminate|].
  exists 1%nat, (mkSelectExprQP (SelAliased (Example.col "b") "X") false), "X".
  repeat split. discriminate.
Defined.

(** C8 as stated fails: in [SELECT DISTINCT a + 1, b AS x, c AS x] the alias x
    is used twice, yet addDistinct fails on the first item, with the error of
    a complex order-by expression. *)
Lemma addDistinct_first_error_counterexample :
  aliasCollides
    [mkSelectExprQP (SelAliased (BinaryExpr "+" (Example.col "a") (Literal "1")) "") false;
     mkSelectExprQP (SelAliased (Example.col "b") "x") false;
     mkSelectExprQP (SelAliased (Example.col "c") "x") false] 1 "x" /\
  addDistinct Example.lib
    (mkHP Example.emptySelect
       (Some (mkQP
                [mkSelectExprQP
                   (SelAliased (BinaryExpr "+" (Example.col "a") (Literal "1")) "") false;
                 mkSelectExprQP (SelAliased (Example.col "b") "x") false;
                 mkSelectExprQP (SelAliased (Example.col "c") "x") false]
                false true [] [] true false None))
       false false)
    Example.ctx (PRoute (Example.scatter []))
  = Err (vterrors_New Code_UNIMPLEMENTED
           "unsupported: in scatter query: complex order by expression: a + 1") /\
  String.prefix "generating order by clause: ambiguous symbol reference"
    "unsupported: in scatter query: complex order by expression: a + 1" = false.
Proof.
  split; [|split; reflexivity].
  split; [discriminate|].
  exists 2%nat, (mkSelectExprQP (SelAliased (Example.col "c") "x") false), "x".
  repeat split. discriminate.
Qed.

(** ** The aggregation planner *)

Lemma groupBysAppended_refl hp : groupBysAppended hp hp.
Proof.
  intros q Hq. exists []. rewrite app_nil_r, Hq. destruct q; reflexivity.
Qed.

Lemma groupBysAppended_trans hp1 hp2 hp3 :
  groupBysAppended hp1 hp2 -> groupBysAppended hp2 hp3 -> groupBysAppended hp1 hp3.
Proof.
  intros H12 H23 q Hq. destruct (H12 q Hq) as (gs1 & H1).
  destruct (H23 _ H1) as (gs2 & H2). exists (gs1 ++ gs2).
  rewrite H2. simpl. rewrite app_assoc. reflexivity.
Qed.

(** One select expression of planAggregations: the input keeps its operators,
    the ordered aggregate stays where it is, the query projection only gains
    group-by expressions. *)
Lemma planAggregations_select_frame (L : Lib) ctx e plan oa hp plan' oa' hp' :
  planAggregations_select L ctx e (plan, oa, hp) = OK (plan', oa', hp') ->
  shape plan' = shape plan /\
  (is_Some oa -> is_Some oa') /\
  groupBysAppended hp hp'.
Proof.
  unfold planAggregations_select. intros H.
  destruct (GetAliasedExpr L e) as [ae| | |]; try discriminate.
  cbn -[pushProjection needDistinctHandling createPushExprAndAlias] in H.
  destruct (if negb (Aggr e) then None else oa) as [eaggr|] eqn:Hoa.
  - assert (Hs : is_Some oa').
    { destruct (aExpr ae); try discriminate.
      destruct (SupportedAggregates L _); try discriminate.
      destruct (needDistinctHandling L ctx _ _ plan) as [[hd ia]| | |]; try discriminate.
      cbn -[pushProjection createPushExprAndAlias] in H.
      destruct (createPushExprAndAlias L hp e hd ia _ eaggr) as [[[[[pe al] op] ea1] hp1]| | |];
        try discriminate.
      cbn -[pushProjection] in H. destruct pe; try discriminate.
      destruct (pushProjection L _ plan _ _ _ _) as [[[o ad] p1]| | |]; try discriminate.
      simpl in H. injection H as <- <- <-. eexists; reflexivity. }
    destruct (aExpr ae); try discriminate.
    destruct (SupportedAggregates L _); try discriminate.
    destruct (needDistinctHandling L ctx _ _ plan) as [[hd ia]| | |]; try discriminate.
    cbn -[pushProjection createPushExprAndAlias] in H.
    destruct (createPushExprAndAlias L hp e hd ia _ eaggr) as [[[[[pe al] op] ea1] hp1]| | |]
      eqn:Hc; try discriminate.
    cbn -[pushProjection] in H. destruct pe; try discriminate.
    destruct (pushProjection L _ plan _ _ _ _) as [[[o ad] p1]| | |] eqn:Hp; try discriminate.
    simpl in H. injection H as <- <- <-.
    split; [exact (pushProjection_shape _ _ _ _ _ _ _ _ _ _ Hp)|].
    split; [intros _; exact Hs|].
    unfold createPushExprAndAlias in Hc.
    destruct (Col e); try (injection Hc as _ _ _ _ <-; apply groupBysAppended_refl).
    destruct hd; [|injection Hc as _ _ _ _ <-; apply groupBysAppended_refl].
    destruct ia; try discriminate.
    unfold hp_qp in Hc. simpl in Hc.
    destruct (qp hp) as [q0|] eqn:Hq0; try discriminate.
    simpl in Hc. injection Hc as _ _ _ _ <-.
    intros q Hq. rewrite Hq0 in Hq. injection Hq as <-.
    eexists. unfold hp_setQP. simpl. reflexivity.
  - destruct (pushProjection L _ plan _ _ _ _) as [[[o ad] p1]| | |] eqn:Hp; try discriminate.
    simpl in H. injection H as <- <- <-.
    split; [exact (pushProjection_shape _ _ _ _ _ _ _ _ _ _ Hp)|].
    split; [tauto|apply groupBysAppended_refl].
Qed.

Lemma planAggregations_selectLoop_frame (L : Lib) ctx es :
  forall plan oa hp plan' oa' hp',
    planAggregations_selectLoop L ctx es (plan, oa, hp) = OK (plan', oa', hp') ->
    shape plan' = shape plan /\
    (is_Some oa -> is_Some oa') /\
    groupBysAppended hp hp'.
Proof.
  induction es as [|e es IH]; intros plan oa hp plan' oa' hp' H;
    cbn [planAggregations_selectLoop] in H.
  - injection H as <- <- <-. split; [reflexivity|]. split; [tauto|apply groupBysAppended_refl].
  - destruct (planAggregations_select L ctx e (plan, oa, hp)) as [[[p1 oa1] hp1]| | |] eqn:Hs;
      try discriminate.
    cbn -[planAggregations_selectLoop] in H.
    destruct (planAggregations_select_frame _ _ _ _ _ _ _ _ _ Hs) as (S1 & O1 & G1).
    destruct (IH _ _ _ _ _ _ H) as (S2 & O2 & G2).
    split; [congruence|]. split; [tauto|].
    exact (groupBysAppended_trans _ _ _ G1 G2).
Qed.

Lemma planHaving_ordered_aggregate (L : Lib) hp ctx input eaggr st ret :
  planHaving L hp ctx (POrderedAggregate input eaggr) = OK (st, ret) ->
  st = POrderedAggregate input eaggr.
Proof.
  unfold planHaving. destruct (Having (sel hp)); simpl.
  - destruct (newFilter L _ _ _); simpl; try discriminate. intros H. injection H as <- _.
    reflexivity.
  - intros H. injection H as <- _. reflexivity.
Qed.

(** C9.  On the ordered-aggregate path with QP.CanPushDownSorting false, when
    the group-by list is empty after the select expressions were handled
    (synthetic distinct keys included): what planAggregations returns, once
    HAVING and the final check pass, is the input plan as the pushes of the
    select expressions left it, with the operators it had; the ordered
    aggregate built around it, holding the recorded Aggregates, is not in the
    result. *)
Theorem planAggregations_discards_aggregate (L : Lib) (hp : horizonPlanning)
    (ctx : planningContext) (plan : logicalPlan) (q : QueryProjection)
    (plan1 : logicalPlan) (oa1 : option engine_OrderedAggregate) (hp1 : horizonPlanning)
    (q1 : QueryProjection) :
  qp hp = Some q ->
  negb (hasUniqueVindex L (vschema ctx) (semTable ctx) (GroupByExprs q)) || isJoin plan = true ->
  ProjectionError q = None ->
  CanPushDownSorting q = false ->
  planAggregations_selectLoop L ctx (qSelectExprs q)
    (plan, Some empty_OrderedAggregate, hp_setVtgateGrouping hp true) = OK (plan1, oa1, hp1) ->
  qp hp1 = Some q1 ->
  GroupByExprs q1 = [] ->
  exists eaggr1,
    oa1 = Some eaggr1 /\
    shape plan1 = shape plan /\
    planAggregations L hp ctx plan
    = (_ ← planHaving L hp1 ctx (POrderedAggregate plan1 eaggr1);
       _ ← (if negb (isRoutePlan plan1) then planAggregations_check L (qSelectExprs q)
            else OK tt);
       OK (plan1, hp1)) /\
    (forall planOut hpOut,
       planAggregations L hp ctx plan = OK (planOut, hpOut) ->
       planOut = plan1 /\ hpOut = hp1).
Proof.
  intros Hq Hpath Herr Hsort Hloop Hq1 Hg1.
  destruct (planAggregations_selectLoop_frame _ _ _ _ _ _ _ _ _ Hloop) as (Hshape & Hsome & Hgs).
  destruct (Hsome ltac:(eexists; reflexivity)) as [eaggr1 ->].
  destruct (Hgs q Hq) as (gs & Hq1'). rewrite Hq1 in Hq1'. injection Hq1' as ->.
  simpl in Hg1. apply app_eq_nil in Hg1. destruct Hg1 as [Hg0 ->].
  exists eaggr1. split; [reflexivity|]. split; [exact Hshape|].
  assert (E : planAggregations L hp ctx plan
    = (_ ← planHaving L hp1 ctx (POrderedAggregate plan1 eaggr1);
       _ ← (if negb (isRoutePlan plan1) then planAggregations_check L (qSelectExprs q)
            else OK tt);
       OK (plan1, hp1))).
  { unfold planAggregations, hp_qp. rewrite Hq.
    cbn -[planAggregations_selectLoop planHaving planOrderBy planAggregations_check
          hasUniqueVindex isJoin].
    rewrite Hpath, Herr.
    cbn -[planAggregations_selectLoop planHaving planOrderBy planAggregations_check
          hasUniqueVindex isJoin].
    rewrite Hg0. unfold len at 1. simpl length. rewrite andb_false_r.
    rewrite Hloop.
    cbn -[planHaving planOrderBy planAggregations_check].
    rewrite Hq1.
    cbn -[planHaving planOrderBy planAggregations_check].
    rewrite Hg0.
    cbn -[planHaving planOrderBy planAggregations_check].
    destruct (planHaving L hp1 ctx (POrderedAggregate plan1 eaggr1)) as [[s ret]| | |] eqn:Hh;
      try reflexivity.
    rewrite (planHaving_ordered_aggregate _ _ _ _ _ _ _ Hh).
    cbn -[planHaving planOrderBy planAggregations_check].
    rewrite ?Hq1.
    cbn -[planHaving planOrderBy planAggregations_check].
    rewrite ?Hsort, ?Hg0.
    cbn -[planHaving planOrderBy planAggregations_check].
    rewrite ?Hq1.
    cbn -[planHaving planOrderBy planAggregations_check].
    change (0 <? len (@nil OrderByQP)) with false.
    cbn -[planHaving planOrderBy planAggregations_check].
    rewrite ?Hq1.
    cbn -[planHaving planOrderBy planAggregations_check].
    reflexivity. }
  split; [exact E|].
  intros planOut hpOut H. rewrite E in H.
  destruct (planHaving L hp1 ctx _) as [[s ret]| | |]; try discriminate.
  simpl in H.
  destruct (if negb (isRoutePlan plan1) then _ else _) as [[]| | |]; try discriminate.
  simpl in H. injection H as <- <-. split; reflexivity.
Qed.

Lemma planAggregations_discards_aggregate_witness :
  planAggregations Example.lib
    (mkHP Example.emptySelect
       (Some (mkQP [mkSelectExprQP
                      (SelAliased (FuncExpr "count" false [SelStar (mkTableName "" "")]) "")
                      true]
                   true false [] [] false false None))
       false false)
    Example.ctx (PRoute (Example.scatter []))
  = OK (PRoute (Example.scatter
                  [SelAliased (FuncExpr "count" false [SelStar (mkTableName "" "")]) ""]),
        mkHP Example.emptySelect
          (Some (mkQP [mkSelectExprQP
                         (SelAliased (FuncExpr "count" false [SelStar (mkTableName "" "")]) "")
                         true]
                      true false [] [] false false None))
          false true).
Proof.
  pose (q := mkQP [mkSelectExprQP
                     (SelAliased (FuncExpr "count" false [SelStar (mkTableName "" "")]) "")
                     true]
                  true false [] [] false false None).
  destruct (planAggregations_discards_aggregate Example.lib
              (mkHP Example.emptySelect (Some q) false false) Example.ctx
              (PRoute (Example.scatter [])) q
              (PRoute (Example.scatter
                         [SelAliased (FuncExpr "count" false [SelStar (mkTableName "" "")]) ""]))
              (Some (mkEAggr false
                       [mkAggregateParams AggregateCount 0 "count(...)"
                          (Some (FuncExpr "count" false [SelStar (mkTableName "" "")]))
                          false 0] [] 0))
              (mkHP Example.emptySelect (Some q) false true) q
              eq_refl eq_refl eq_refl eq_refl eq_refl eq_refl eq_refl)
    as (ea & _ & _ & E & _).
  unfold q in E. rewrite E. reflexivity.
Defined.

(** ** Column addressing of joins *)

Lemma joinColumn_nonneg reuseCol appended column cols idx added cols' :
  joinColumn reuseCol appended column cols = (idx, added, cols') -> 0 <= idx.
Proof.
  unfold joinColumn.
  destruct (if reuseCol && negb appended then findCol column 0 cols else None) as [i|] eqn:E;
    intros H; injection H as <- _ _.
  - destruct (reuseCol && negb appended); [|discriminate]. exact (findCol_ge _ _ _ _ E).
  - unfold len. rewrite length_app. simpl. lia.
Qed.

Lemma findAggregate_nonneg expr aggrs col :
  Forall (fun a => 0 <= agCol a) aggrs -> findAggregate expr aggrs = Some col -> 0 <= col.
Proof.
  induction 1 as [|a aggrs Ha _ IH]; simpl; [discriminate|].
  destruct (EqualsExprOpt _ _); [intros H; injection H as <-; exact Ha|].
  destruct (aExpr expr); try exact IH.
  destruct (ColIdent_EqualString _ _); [intros H; injection H as <-; exact Ha|exact IH].
Qed.

Lemma pushProjection_route_nonneg (L : Lib) e node st i r o a node' :
  pushProjection_route L e node st i r = OK (o, a, node') -> 0 <= o.
Proof.
  unfold pushProjection_route. intros H.
  destruct (routeConvertCheck L e st i) as [[]| | |]; try discriminate. simpl in H.
  unfold routeReuseOrAppend in H. cbv zeta in H.
  destruct r; simpl in H.
  - destruct (negb (checkIfAlreadyExists e (rSelect node) st =? -1)) eqn:Hf.
    + injection H as <- _ _. apply negb_true_iff, Z.eqb_neq in Hf.
      unfold checkIfAlreadyExists in *.
      destruct (checkIfAlreadyExists_from_range e (RecursiveDeps st (aExpr e)) st 0
                  (SelectExprs (GetFirstSelect (rSelect node)))) as [R|R]; [contradiction|lia].
    + destruct (rSelect node); [|discriminate].
      destruct (rewriteProjectionOfDerivedTable L _ st); try discriminate.
      simpl in H. injection H as <- _ _. unfold len. lia.
  - destruct (rSelect node); [|discriminate].
    destruct (rewriteProjectionOfDerivedTable L _ st); try discriminate.
    simpl in H. injection H as <- _ _. unfold len. lia.
Qed.

Section Offsets.

Variable L : Lib.
Hypothesis supply : supplyNonneg L.

Lemma pushLHSColumns_nonneg d :
  nonneg_below L d ->
  forall cols bv left vars st inner l' v',
    (depth left < d)%nat -> offsetsNonneg left ->
    pushLHSColumns (pushProjection L) bv cols left vars st inner = OK (l', v') ->
    offsetsNonneg l'.
Proof.
  intros H cols. induction cols as [|c cols IH]; intros bv left vars st inner l' v' Hd Hw E;
    simpl in E.
  - injection E as <- _. exact Hw.
  - destruct (pushProjection L (AliasedOf c) left st inner true false) as [[[o a] l1]| | |] eqn:Ep;
      try discriminate.
    simpl in E. destruct bv as [|b bv]; [discriminate|].
    destruct (H _ _ _ _ _ _ _ _ _ Hd Hw Ep) as [_ Hw1].
    refine (IH _ _ _ _ _ _ _ _ Hw1 E).
    rewrite (pushProjection_depth _ _ _ _ _ _ _ _ _ _ Ep). lia.
Qed.

Ltac child H E :=
  match type of E with
  | context [pushProjection L ?e ?c ?st ?i ?r ?h] =>
      let Ec := fresh "Ec" in
      destruct (pushProjection L e c st i r h) as [[[? ?] ?]| | |] eqn:Ec; try discriminate;
      let Ho := fresh "Ho" in
      let Hw := fresh "Hw" in
      match type of Ec with
      | _ = OK (?o, _, ?c') =>
          assert (0 <= o /\ offsetsNonneg c') as [Ho Hw]
            by (refine (H _ _ _ _ _ _ _ _ _ _ _ Ec); [simpl in *; lia|simpl in *; tauto])
      end;
      cbn -[pushProjection joinColumn] in E
  end.

Lemma pushProjection_nonneg_step d : nonneg_below L d -> nonneg_below L (S d).
Proof.
  intros H e p st i r h o a p' Hd Hw E.
  rewrite pushProjection_unfold in E. unfold pushProjection_body in E.
  destruct p; simpl in Hd, Hw; cbv zeta in E.
  - (* route *)
    destruct (pushProjection_route L e node st i r) as [[[o1 a1] n1]| | |] eqn:Er;
      try discriminate.
    simpl in E. injection E as <- <- <-.
    split; [exact (pushProjection_route_nonneg _ _ _ _ _ _ _ _ _ Er)|exact I].
  - (* join *)
    destruct (IsSolvedBy L _ (ContainsTables L p1)).
    { child H E.
      destruct (joinColumn r b (- (z + 1)) (jCols node)) as [[idx ad] cs] eqn:Ej.
      injection E as <- <- <-.
      split; [exact (joinColumn_nonneg _ _ _ _ _ _ _ Ej)|simpl; tauto]. }
    destruct (IsSolvedBy L _ (ContainsTables L p2)).
    { child H E.
      destruct (joinColumn r b (z + 1) (jCols node)) as [[idx ad] cs] eqn:Ej.
      injection E as <- <- <-.
      split; [exact (joinColumn_nonneg _ _ _ _ _ _ _ Ej)|simpl; tauto]. }
    destruct h; [discriminate|].
    destruct (breakExpressionInLHSandRHS L _ st _) as [[[bv cols] rw]| | |]; try discriminate.
    cbn -[pushProjection joinColumn pushLHSColumns] in E.
    destruct (pushLHSColumns (pushProjection L) bv cols p1 (jVars node) st i)
      as [[l1 v1]| | |] eqn:El; try discriminate.
    assert (Hl1 : offsetsNonneg l1).
    { refine (pushLHSColumns_nonneg d H _ _ _ _ _ _ _ _ _ (proj1 Hw) El). lia. }
    cbn -[pushProjection joinColumn] in E.
    child H E.
    destruct (joinColumn r b (z + 1) (jCols node)) as [[idx ad] cs] eqn:Ej.
    injection E as <- <- <-.
    split; [exact (joinColumn_nonneg _ _ _ _ _ _ _ Ej)|simpl; tauto].
  - (* hash join *)
    destruct (IsSolvedBy L _ (ContainsTables L p1)).
    { child H E.
      destruct (joinColumn r b (- (z + 1)) (hCols node)) as [[idx ad] cs] eqn:Ej.
      injection E as <- <- <-.
      split; [exact (joinColumn_nonneg _ _ _ _ _ _ _ Ej)|simpl; tauto]. }
    destruct (IsSolvedBy L _ (ContainsTables L p2)).
    { child H E.
      destruct (joinColumn r b (z + 1) (hCols node)) as [[idx ad] cs] eqn:Ej.
      injection E as <- <- <-.
      split; [exact (joinColumn_nonneg _ _ _ _ _ _ _ Ej)|simpl; tauto]. }
    destruct h; discriminate.
  - (* semi join *)
    child H E.
    destruct (joinColumn r b (- (z + 1)) cols) as [[idx ad] cs] eqn:Ej.
    injection E as <- <- <-.
    split; [exact (joinColumn_nonneg _ _ _ _ _ _ _ Ej)|simpl; tauto].
  - (* ordered aggregate *)
    destruct (findAggregate e (Aggregates eaggr)) as [c|] eqn:Ef; [|discriminate].
    injection E as <- <- <-.
    split; [exact (findAggregate_nonneg _ _ _ Hw Ef)|exact Hw].
  - discriminate.
  - (* simple projection *)
    child H E.
    destruct (if r then findCol z 0 eSimpleProjCols else None) as [j|] eqn:Ef;
      injection E as <- <- <-.
    + split; [|exact Hw0]. destruct r; [|discriminate]. exact (findCol_ge _ _ _ _ Ef).
    + split; [|exact Hw0]. unfold len. rewrite length_app. simpl. lia.
  - (* vindex function *)
    destruct (SupplyProjection L node e r) as [[o1 n1]| | |] eqn:Es; try discriminate.
    simpl in E. injection E as <- <- <-.
    split; [exact (supply _ _ _ _ _ Es)|exact I].
  - (* pullout subquery *)
    child H E. injection E as <- <- <-. split; assumption.
  - discriminate.
  - (* limit *)
    child H E. injection E as <- <- <-. split; assumption.
  - (* distinct *)
    child H E. injection E as <- <- <-. split; assumption.
  - (* concatenate *)
    destruct h; [discriminate|]. destruct sources as [|s0 others]; [discriminate|].
    child H E. destruct b; [discriminate|]. injection E as <- <- <-. split; assumption.
  - discriminate.
Qed.

Lemma pushProjection_nonneg e p st i r h o a p' :
  offsetsNonneg p ->
  pushProjection L e p st i r h = OK (o, a, p') -> 0 <= o /\ offsetsNonneg p'.
Proof.
  assert (A : forall d, nonneg_below L d).
  { induction d as [|d IH]; [intros ? ? ? ? ? ? ? ? ? Hd; lia|].
    apply pushProjection_nonneg_step; exact IH. }
  apply (A (S (depth p))). lia.
Qed.

End Offsets.

(** C5.  In a plan whose stored offsets are not negative, a successful push
    onto a join or a hash join either reuses an entry of Cols, which then is
    unchanged, or appends exactly one entry c, and it returns the index of
    that entry.  The entry is not zero, and |c| - 1 is the offset that the
    push onto a child returned: onto the left child when c is negative, onto
    the right child when c is positive. *)
Theorem pushProjection_join_cols (L : Lib) (expr : AliasedExpr) (l r : logicalPlan)
    (st : SemTable) (inner reuseCol hasAggregation : bool)
    (idx : Z) (added : bool) (plan' : logicalPlan) :
  supplyNonneg L ->
  offsetsNonneg l -> offsetsNonneg r ->
  (forall node,
     pushProjection L expr (PJoin l r node) st inner reuseCol hasAggregation
     = OK (idx, added, plan') ->
     exists l' r' node',
       plan' = PJoin l' r' node' /\ jOpcode node' = jOpcode node /\
       colsAfterPush L expr st inner reuseCol hasAggregation (jOpcode node)
         l r l' r' (jCols node) (jCols node') idx added) /\
  (forall node,
     pushProjection L expr (PHashJoin l r node) st inner reuseCol hasAggregation
     = OK (idx, added, plan') ->
     exists l' r' node',
       plan' = PHashJoin l' r' node' /\ hOpcode node' = hOpcode node /\
       colsAfterPush L expr st inner reuseCol hasAggregation (hOpcode node)
         l r l' r' (hCols node) (hCols node') idx added).
Proof.
  intros Hs Hl Hr.
  assert (Left : forall off a l' cols idx' added' cols',
            pushProjection L expr l st inner (passDown expr reuseCol) hasAggregation
            = OK (off, a, l') ->
            joinColumn reuseCol a (- (off + 1)) cols = (idx', added', cols') ->
            forall opcode,
              colsAfterPush L expr st inner reuseCol hasAggregation opcode
                l r l' r cols cols' idx' added').
  { intros off a l' cols idx' added' cols' Ep Ej opcode.
    destruct (pushProjection_nonneg L Hs _ _ _ _ _ _ _ _ _ Hl Ep) as [Ho _].
    destruct (joinColumn_spec _ _ _ _ _ _ _ Ej) as [[-> ->]|(-> & -> & ->)].
    - left. split; reflexivity.
    - right. split; [reflexivity|]. split; [reflexivity|].
      exists (- (off + 1)). split; [reflexivity|].
      exists off. split; [exact Ho|]. split; [lia|]. split; [lia|].
      left. split; [lia|]. split; [reflexivity|]. exists a. exact Ep. }
  assert (Right : forall e' h' off a l' r' cols idx' added' cols' opcode,
            pushProjection L e' r st (inner && negb (bool_decide (opcode = LeftJoin)))
              (passDown expr reuseCol) h'
            = OK (off, a, r') ->
            joinColumn reuseCol a (off + 1) cols = (idx', added', cols') ->
            colsAfterPush L expr st inner reuseCol hasAggregation opcode
              l r l' r' cols cols' idx' added').
  { intros e' h' off a l' r' cols idx' added' cols' opcode Ep Ej.
    destruct (pushProjection_nonneg L Hs _ _ _ _ _ _ _ _ _ Hr Ep) as [Ho _].
    destruct (joinColumn_spec _ _ _ _ _ _ _ Ej) as [[-> ->]|(-> & -> & ->)].
    - left. split; reflexivity.
    - right. split; [reflexivity|]. split; [reflexivity|].
      exists (off + 1). split; [reflexivity|].
      exists off. split; [exact Ho|]. split; [lia|]. split; [lia|].
      right. split; [lia|]. exists e', h', a. exact Ep. }
  split; intros node E; rewrite pushProjection_unfold in E; unfold pushProjection_body in E;
    cbv zeta in E.
  - destruct (IsSolvedBy L _ (ContainsTables L l)).
    { destruct (pushProjection L expr l st inner _ _) as [[[off a] l']| | |] eqn:Ep;
        try discriminate.
      cbn -[pushProjection joinColumn] in E.
      destruct (joinColumn reuseCol a (- (off + 1)) (jCols node)) as [[i' a'] c'] eqn:Ej.
      injection E as <- <- <-.
      eexists _, _, _. split; [reflexivity|]. split; [reflexivity|].
      exact (Left _ _ _ _ _ _ _ eq_refl Ej _). }
    destruct (IsSolvedBy L _ (ContainsTables L r)).
    { destruct (pushProjection L expr r st _ _ _) as [[[off a] r']| | |] eqn:Ep;
        try discriminate.
      cbn -[pushProjection joinColumn] in E.
      destruct (joinColumn reuseCol a (off + 1) (jCols node)) as [[i' a'] c'] eqn:Ej.
      injection E as <- <- <-.
      eexists _, _, _. split; [reflexivity|]. split; [reflexivity|].
      exact (Right _ _ _ _ _ _ _ _ _ _ _ Ep Ej). }
    destruct hasAggregation; [discriminate|].
    destruct (breakExpressionInLHSandRHS L _ st _) as [[[bv cols] rw]| | |]; try discriminate.
    cbn -[pushProjection joinColumn pushLHSColumns] in E.
    destruct (pushLHSColumns (pushProjection L) bv cols l (jVars node) st inner)
      as [[l1 v1]| | |]; try discriminate.
    cbn -[pushProjection joinColumn] in E.
    destruct (pushProjection L _ r st _ _ _) as [[[off a] r']| | |] eqn:Ep; try discriminate.
    cbn -[pushProjection joinColumn] in E.
    destruct (joinColumn reuseCol a (off + 1) (jCols node)) as [[i' a'] c'] eqn:Ej.
    injection E as <- <- <-.
    eexists _, _, _. split; [reflexivity|]. split; [reflexivity|].
    exact (Right _ _ _ _ _ _ _ _ _ _ _ Ep Ej).
  - destruct (IsSolvedBy L _ (ContainsTables L l)).
    { destruct (pushProjection L expr l st inner _ _) as [[[off a] l']| | |] eqn:Ep;
        try discriminate.
      cbn -[pushProjection joinColumn] in E.
      destruct (joinColumn reuseCol a (- (off + 1)) (hCols node)) as [[i' a'] c'] eqn:Ej.
      injection E as <- <- <-.
      eexists _, _, _. split; [reflexivity|]. split; [reflexivity|].
      exact (Left _ _ _ _ _ _ _ eq_refl Ej _). }
    destruct (IsSolvedBy L _ (ContainsTables L r)).
    { destruct (pushProjection L expr r st _ _ _) as [[[off a] r']| | |] eqn:Ep;
        try discriminate.
      cbn -[pushProjection joinColumn] in E.
      destruct (joinColumn reuseCol a (off + 1) (hCols node)) as [[i' a'] c'] eqn:Ej.
      injection E as <- <- <-.
      eexists _, _, _. split; [reflexivity|]. split; [reflexivity|].
      exact (Right _ _ _ _ _ _ _ _ _ _ _ Ep Ej). }
    destruct hasAggregation; discriminate.
Qed.

Lemma pushProjection_join_cols_witness :
  colsAfterPush Example.lib (AliasedOf (Example.qcol "r" "x")) Example.st true false false
    InnerJoin
    (PRoute (Example.scatter [])) (PRoute (Example.scatterR []))
    (PRoute (Example.scatter []))
    (PRoute (Example.scatterR [SelAliased (Example.qcol "r" "x") ""]))
    [] [1] 0 true.
Proof.
  assert (Hs : supplyNonneg Example.lib).
  { intros vf e r i vf' H. simpl in H. unfold Example.supplyProjection in H.
    destruct (aExpr e); try discriminate. injection H as <- _. unfold len. lia. }
  destruct (proj1 (pushProjection_join_cols Example.lib (AliasedOf (Example.qcol "r" "x"))
                     (PRoute (Example.scatter [])) (PRoute (Example.scatterR []))
                     Example.st true false false 0 true
                     (PJoin (PRoute (Example.scatter []))
                            (PRoute (Example.scatterR [SelAliased (Example.qcol "r" "x") ""]))
                            (mkJoin InnerJoin [1] ∅))
                     Hs I I)
              (mkJoin InnerJoin [] ∅) eq_refl)
    as (l' & r' & node' & Hp & _ & Hc).
  injection Hp as <- <- <-. exact Hc.
Defined.

(** The offsets that planAggregations records in the aggregates of the
    ordered aggregate are offsets returned by pushes: plans built by the
    aggregation planner keep their stored offsets non-negative. *)
Lemma planAggregations_select_offsets (L : Lib) ctx e plan oa hp plan' oa' hp' :
  supplyNonneg L ->
  offsetsNonneg plan ->
  (forall ea, oa = Some ea -> Forall (fun a => 0 <= agCol a) (Aggregates ea)) ->
  planAggregations_select L ctx e (plan, oa, hp) = OK (plan', oa', hp') ->
  offsetsNonneg plan' /\
  (forall ea', oa' = Some ea' -> Forall (fun a => 0 <= agCol a) (Aggregates ea')).
Proof.
  intros Hs Hp Ha H. unfold planAggregations_select in H.
  destruct (GetAliasedExpr L e) as [ae| | |]; try discriminate.
  cbn -[pushProjection needDistinctHandling createPushExprAndAlias] in H.
  destruct (if negb (Aggr e) then None else oa) as [eaggr|] eqn:Hoa.
  - assert (Hea : Forall (fun a => 0 <= agCol a) (Aggregates eaggr)).
    { apply Ha. destruct (negb (Aggr e)); [discriminate|exact Hoa]. }
    destruct (aExpr ae); try discriminate.
    destruct (SupportedAggregates L _); try discriminate.
    destruct (needDistinctHandling L ctx _ _ plan) as [[hd ia]| | |]; try discriminate.
    cbn -[pushProjection createPushExprAndAlias] in H.
    destruct (createPushExprAndAlias L hp e hd ia _ eaggr) as [[[[[pe al] op] ea1] hp1]| | |]
      eqn:Hc; try discriminate.
    assert (Hea1 : Aggregates ea1 = Aggregates eaggr).
    { unfold createPushExprAndAlias in Hc.
      destruct (Col e); try (injection Hc as _ _ _ <- _; reflexivity).
      destruct hd; [|injection Hc as _ _ _ <- _; reflexivity].
      destruct ia; try discriminate.
      destruct (hp_qp _); try discriminate.
      simpl in Hc. injection Hc as _ _ _ <- _. reflexivity. }
    cbn -[pushProjection] in H. destruct pe; try discriminate.
    destruct (pushProjection L _ plan _ _ _ _) as [[[o ad] p1]| | |] eqn:Hpush; try discriminate.
    simpl in H. injection H as <- <- <-.
    destruct (pushProjection_nonneg L Hs _ _ _ _ _ _ _ _ _ Hp Hpush) as [Ho Hp1].
    split; [exact Hp1|]. intros ea' E. injection E as <-. simpl.
    rewrite Hea1. apply Forall_app. split; [exact Hea|]. constructor; [exact Ho|constructor].
  - destruct (pushProjection L _ plan _ _ _ _) as [[[o ad] p1]| | |] eqn:Hpush; try discriminate.
    simpl in H. injection H as <- <- <-.
    destruct (pushProjection_nonneg L Hs _ _ _ _ _ _ _ _ _ Hp Hpush) as [_ Hp1].
    split; [exact Hp1|exact Ha].
Qed.

(** ** Termination of the group-by planner *)

Section GroupByFuel.

Variable L : Lib.

Lemma wrapAndPushExpr_shape expr ws plan st o w a plan' :
  wrapAndPushExpr L expr ws plan st = OK (o, w, a, plan') -> shape plan' = shape plan.
Proof.
  unfold wrapAndPushExpr. intros H.
  destruct (pushProjection L (AliasedOf expr) plan st true true false)
    as [[[o1 a1] p1]| | |] eqn:E1; try discriminate.
  pose proof (pushProjection_shape _ _ _ _ _ _ _ _ _ _ E1) as S1.
  cbn -[pushProjection] in H.
  destruct ws as [ws|]; [|injection H as _ _ _ <-; exact S1].
  destruct (weightStringColumn L expr); try discriminate.
  cbn -[pushProjection] in H.
  destruct (match TypeFor st a0 with Some t => if IsNumber L t then false else true | None => true end).
  - destruct (pushProjection L _ p1 st true true false) as [[[o2 a2] p2]| | |] eqn:E2;
      try discriminate.
    simpl in H. injection H as _ _ _ <-.
    rewrite (pushProjection_shape _ _ _ _ _ _ _ _ _ _ E2). exact S1.
  - injection H as _ _ _ <-. exact S1.
Qed.

Lemma wrapAndPushExpr_terminates expr ws plan st :
  Lib_terminates L -> wrapAndPushExpr L expr ws plan st <> Diverge.
Proof.
  intros T. unfold wrapAndPushExpr.
  apply bind_not_Diverge; [apply pushProjection_terminates; exact T|].
  intros [[o a] p1] _. destruct ws as [ws|]; [|discriminate].
  apply bind_not_Diverge.
  - unfold weightStringColumn. destruct (IsColName expr); [discriminate|].
    destruct expr; try discriminate. destruct (IsColName expr); discriminate.
  - intros c _.
    destruct (match TypeFor st c with Some t => if IsNumber L t then false else true | None => true end);
      [|discriminate].
    apply bind_not_Diverge; [apply pushProjection_terminates; exact T|].
    intros [[o2 a2] p2] _. discriminate.
Qed.

Lemma planGroupByGen4_body_sound d f g :
  groupBy_sound_below L d f g ->
  groupBy_sound_below L (S d) (planGroupByGen4_body L f) (planGroupByGen4_body L g).
Proof.
  intros H ge p st w Hd.
  assert (Stop : forall (e : error),
            @Err (bool * logicalPlan) e = Err e /\
            (Lib_terminates L -> @Err (bool * logicalPlan) e <> Diverge) /\
            forall a p', @Err (bool * logicalPlan) e = OK (a, p') -> shape p' = shape p).
  { intros e. split; [reflexivity|]. split; [intros _; discriminate|discriminate]. }
  assert (Wrap : forall q,
            shape q = shape p ->
            (wrapAndPushExpr L (gInner ge) (Some (gWeightStrExpr ge)) q st
               ≫= λ '(_, _, added, plan'), OK (added, plan'))
            = (wrapAndPushExpr L (gInner ge) (Some (gWeightStrExpr ge)) q st
               ≫= λ '(_, _, added, plan'), OK (added, plan')) /\
            (Lib_terminates L ->
             (wrapAndPushExpr L (gInner ge) (Some (gWeightStrExpr ge)) q st
                ≫= λ '(_, _, added, plan'), OK (added, plan')) <> Diverge) /\
            forall a p',
              (wrapAndPushExpr L (gInner ge) (Some (gWeightStrExpr ge)) q st
                 ≫= λ '(_, _, added, plan'), OK (added, plan')) = OK (a, p') ->
              shape p' = shape p).
  { intros q Hq. split; [reflexivity|].
    pose proof (wrapAndPushExpr_terminates (gInner ge) (Some (gWeightStrExpr ge)) q st) as T.
    pose proof (wrapAndPushExpr_shape (gInner ge) (Some (gWeightStrExpr ge)) q st) as S.
    destruct (wrapAndPushExpr L _ _ q st) as [[[[o ws] a] p1]| | |]; simpl.
    - split; [intros _; discriminate|]. intros a' p' E. injection E as <- <-.
      rewrite (S _ _ _ _ eq_refl). exact Hq.
    - split; [intros _; discriminate|discriminate].
    - split; [intros _; discriminate|discriminate].
    - split; [intros HT; destruct (T HT); reflexivity|discriminate]. }
  destruct p; simpl in Hd; unfold planGroupByGen4_body; try apply Stop.
  - (* route *)
    destruct (rSelect node).
    + split; [reflexivity|]. split; [intros _; discriminate|].
      intros a p' E. injection E as <- <-. reflexivity.
    + split; [reflexivity|]. split; [intros _; discriminate|discriminate].
  - (* join *) apply Wrap. reflexivity.
  - (* hash join *) apply Wrap. reflexivity.
  - (* ordered aggregate *)
    pose proof (wrapAndPushExpr_terminates (gInner ge) (Some (gWeightStrExpr ge)) p st) as T.
    pose proof (wrapAndPushExpr_shape (gInner ge) (Some (gWeightStrExpr ge)) p st) as S.
    destruct (wrapAndPushExpr L _ _ p st) as [[[[keyCol wsOffset] colAdded] input1]| | |];
      cbn -[setAggregateWCol].
    2,3: split; [reflexivity|]; split; [intros _; discriminate|discriminate].
    2: split; [reflexivity|]; split; [intros HT; destruct (T HT); reflexivity|discriminate].
    specialize (S _ _ _ _ eq_refl).
    assert (E' : exists r : result engine_OrderedAggregate, r <> Diverge /\
                   (if DistinctAggrIndex ge =? 0
                    then OK (mkEAggr (PreProcess eaggr) (Aggregates eaggr)
                               (GroupByKeys eaggr ++
                                  [mkGroupByParams keyCol wsOffset (Some (gWeightStrExpr ge))
                                     (CollationFor st (gInner ge))])
                               (aTruncateColumnCount eaggr))
                    else if negb (wsOffset =? -1)
                         then setAggregateWCol (Aggregates eaggr) (DistinctAggrIndex ge - 1)
                                wsOffset
                              ≫= λ aggrs', OK (mkEAggr (PreProcess eaggr) aggrs'
                                                 (GroupByKeys eaggr)
                                                 (aTruncateColumnCount eaggr))
                         else OK eaggr) = r).
    { eexists. split; [|reflexivity].
      destruct (DistinctAggrIndex ge =? 0); [discriminate|].
      destruct (negb (wsOffset =? -1)); [|discriminate].
      unfold setAggregateWCol. destruct (_ <? 0); [discriminate|].
      destruct (Aggregates eaggr !! _); discriminate. }
    destruct E' as (re & Hre & ->).
    destruct re as [eaggr'| | |]; simpl;
      [|split; [reflexivity|]; split; [intros _; discriminate|discriminate]
       |split; [reflexivity|]; split; [intros _; discriminate|discriminate]
       |congruence].
    destruct (H ge input1 st (negb (wsOffset =? -1))
                ltac:(rewrite (shape_depth _ _ S); lia)) as (Heq & Hnd & Hsh).
    rewrite <- Heq.
    destruct (f ge input1 st (negb (wsOffset =? -1))) as [[a2 input2]| | |]; simpl.
    + split; [reflexivity|]. split; [intros _; discriminate|].
      intros a p' E. injection E as <- <-. simpl. rewrite (Hsh _ _ eq_refl), S. reflexivity.
    + split; [reflexivity|]. split; [intros _; discriminate|discriminate].
    + split; [reflexivity|]. split; [intros _; discriminate|discriminate].
    + split; [reflexivity|]. split; [intros HT; destruct (Hnd HT); reflexivity|discriminate].
  - (* pullout subquery *)
    destruct (H ge p2 st w ltac:(lia)) as (Heq & Hnd & Hsh).
    rewrite <- Heq.
    destruct (f ge p2 st w) as [[a2 u2]| | |]; simpl.
    + split; [reflexivity|]. split; [intros _; discriminate|].
      intros a p' E. injection E as <- <-. simpl. rewrite (Hsh _ _ eq_refl). reflexivity.
    + split; [reflexivity|]. split; [intros _; discriminate|discriminate].
    + split; [reflexivity|]. split; [intros _; discriminate|discriminate].
    + split; [reflexivity|]. split; [intros HT; destruct (Hnd HT); reflexivity|discriminate].
Qed.

Lemma planGroupByGen4_rec_sound d :
  forall n m, (d <= n)%nat -> (d <= m)%nat ->
    groupBy_sound_below L d (planGroupByGen4_rec L n) (planGroupByGen4_rec L m).
Proof.
  induction d as [|d IH]; intros n m Hn Hm.
  - intros ge p st w Hd. lia.
  - destruct n as [|n]; [lia|]. destruct m as [|m]; [lia|].
    simpl. apply planGroupByGen4_body_sound. apply IH; lia.
Qed.

(** planGroupByGen4 terminates when the collaborators do. *)
Lemma planGroupByGen4_terminates ge p st w :
  Lib_terminates L -> planGroupByGen4 L ge p st w <> Diverge.
Proof.
  unfold planGroupByGen4.
  apply (planGroupByGen4_rec_sound (S (depth p)) (S (depth p)) (S (depth p))); lia.
Qed.

(** planGroupByGen4 satisfies the equation of its body: the Go function. *)
Lemma planGroupByGen4_unfold ge p st w :
  planGroupByGen4 L ge p st w = planGroupByGen4_body L (planGroupByGen4 L) ge p st w.
Proof.
  unfold planGroupByGen4 at 1. simpl.
  apply (planGroupByGen4_body_sound (depth p)); [|lia].
  intros ge' p' st' w' Hd.
  split; [|apply (planGroupByGen4_rec_sound (depth p) (depth p) (depth p)); lia].
  unfold planGroupByGen4.
  apply (planGroupByGen4_rec_sound (S (depth p')) (depth p) (S (depth p'))); lia.
Qed.

End GroupByFuel.

(** * Further properties of the projection pusher *)

(** X2.  When the offsets stored in the plan are not negative and
    vindexFunc.SupplyProjection returns none that is, the offset returned by
    a successful push is not negative, and the plan it leaves is such a plan
    again. *)
Theorem pushProjection_offset_not_negative (L : Lib) (expr : AliasedExpr) (plan : logicalPlan)
    (st : SemTable) (inner reuseCol hasAggregation : bool)
    (offset : Z) (added : bool) (plan' : logicalPlan) :
  supplyNonneg L ->
  offsetsNonneg plan ->
  pushProjection L expr plan st inner reuseCol hasAggregation = OK (offset, added, plan') ->
  0 <= offset /\ offsetsNonneg plan'.
Proof. intros Hs Hp H. exact (pushProjection_nonneg L Hs _ _ _ _ _ _ _ _ _ Hp H). Qed.

Lemma Example_supplyNonneg : supplyNonneg Example.lib.
Proof.
  intros vf e r i vf' H. simpl in H. unfold Example.supplyProjection in H.
  destruct (aExpr e); try discriminate. injection H as <- _. unfold len. lia.
Defined.

Lemma pushProjection_offset_not_negative_witness :
  0 <= 1 /\
  offsetsNonneg
    (PSimpleProjection
       (POrderedAggregate (PRoute (Example.scatter []))
          (mkEAggr false [mkAggregateParams AggregateCount 3 "c" None false 0] [] 0)) [3; 3]).
Proof.
  refine (pushProjection_offset_not_negative Example.lib (AliasedOf (Example.col "c"))
            (PSimpleProjection
               (POrderedAggregate (PRoute (Example.scatter []))
                  (mkEAggr false [mkAggregateParams AggregateCount 3 "c" None false 0] [] 0)) [3])
            Example.st true false false 1 true _ Example_supplyNonneg _ eq_refl).
  simpl. constructor; [simpl; lia|constructor].
Defined.

(** What the search of checkIfAlreadyExists finds is an aliased select
    expression with the dependencies searched for. *)
Lemma checkIfAlreadyExists_from_found expr dep st l :
  forall i0 i,
    0 <= i0 ->
    checkIfAlreadyExists_from expr dep st i0 l = i -> i <> -1 ->
    i0 <= i /\
    exists se al, l !! Z.to_nat (i - i0) = Some (SelAliased se al) /\ RecursiveDeps st se = dep.
Proof.
  induction l as [|x l IH]; intros i0 i Hi0 H Hne; simpl in H; [congruence|].
  assert (Next : checkIfAlreadyExists_from expr dep st (i0 + 1) l = i ->
                 i0 <= i /\
                 exists se al, (x :: l) !! Z.to_nat (i - i0) = Some (SelAliased se al) /\
                               RecursiveDeps st se = dep).
  { intros H'. destruct (IH (i0 + 1) i ltac:(lia) H' Hne) as (Hle & se & al & Hl & Hd).
    split; [lia|]. exists se, al. split; [|exact Hd].
    replace (Z.to_nat (i - i0)) with (S (Z.to_nat (i - (i0 + 1)))) by lia. exact Hl. }
  destruct x as [se sas| |]; try (apply Next; exact H).
  destruct (N.eqb_spec (RecursiveDeps st se) dep) as [Hd|Hd]; simpl in H;
    [|apply Next; exact H].
  assert (Here : i0 = i ->
                 i0 <= i /\
                 exists se' al, (SelAliased se sas :: l) !! Z.to_nat (i - i0)
                                = Some (SelAliased se' al) /\ RecursiveDeps st se' = dep).
  { intros <-. split; [lia|]. exists se, sas. rewrite Z.sub_diag. split; [reflexivity|exact Hd]. }
  destruct (ColIdent_IsEmpty sas).
  - destruct se, (aExpr expr);
      repeat (match type of H with context [if ?b then _ else _] => destruct b end);
      (apply Here; exact H) || (apply Next; exact H).
  - destruct (aExpr expr); try (apply Next; exact H).
    destruct (ColIdent_Equal _ _); [apply Here; exact H|apply Next; exact H].
Qed.

(** The two outcomes of a successful push onto a route. *)
Lemma pushProjection_route_cases (L : Lib) (expr : AliasedExpr) (node : routeGen4)
    (st : SemTable) (inner reuseCol hasAggregation : bool)
    (offset : Z) (added : bool) (plan' : logicalPlan) :
  pushProjection L expr (PRoute node) st inner reuseCol hasAggregation
  = OK (offset, added, plan') ->
  exists node',
    plan' = PRoute node' /\ eroute node' = eroute node /\ tables node' = tables node /\
    ((added = false /\ reuseCol = true /\ node' = node /\ 0 <= offset /\
      exists se al,
        SelectExprs (GetFirstSelect (rSelect node)) !! Z.to_nat offset = Some (SelAliased se al) /\
        RecursiveDeps st se = RecursiveDeps st (aExpr expr)) \/
     (added = true /\ offset = routeWidth node /\
      exists sel e2,
        rSelect node = StmtSelect sel /\
        rSelect node'
        = StmtSelect (Select_setSelectExprs sel (SelectExprs sel ++ [SelAliased e2 (aAs expr)])))).
Proof.
  intros H. rewrite pushProjection_route_eq in H. unfold pushProjection_route in H.
  destruct (routeConvertCheck L expr st inner) as [[]| | |]; try discriminate.
  simpl in H. unfold routeReuseOrAppend in H. cbv zeta in H.
  assert (App : (match rSelect node with
                 | StmtSelect sel =>
                     rewriteProjectionOfDerivedTable L
                       (mkAliased (RemoveKeyspaceFromColName L (aExpr expr)) (aAs expr)) st
                     ≫= λ expr2,
                       OK (len (SelectExprs sel), true,
                           route_setSelect node
                             (StmtSelect (Select_setSelectExprs sel
                                            (SelectExprs sel ++ [SelOfAliased expr2]))))
                 | StmtUnion _ _ _ _ =>
                     Err (vterrors_NewErrorf Code_INVALID_ARGUMENT BadFieldError
                            ("Unknown column '" +:+
                             sqlparser_String L
                               (NodeAliased (mkAliased (RemoveKeyspaceFromColName L (aExpr expr))
                                                       (aAs expr))) +:+ "' in 'order clause'"))
                 end ≫= λ '(offset, added, node'), OK (offset, added, PRoute node'))
                = OK (offset, added, plan') ->
                exists node',
                  plan' = PRoute node' /\ eroute node' = eroute node /\
                  tables node' = tables node /\
                  added = true /\ offset = routeWidth node /\
                  exists sel e2,
                    rSelect node = StmtSelect sel /\
                    rSelect node'
                    = StmtSelect (Select_setSelectExprs sel
                                    (SelectExprs sel ++ [SelAliased e2 (aAs expr)]))).
  { intros H'. destruct (rSelect node) as [sel|] eqn:Hsel; [|discriminate].
    destruct (rewriteProjectionOfDerivedTable L _ st) as [expr2| | |] eqn:Hrw; try discriminate.
    simpl in H'. injection H' as <- <- <-.
    pose proof (rewriteProjectionOfDerivedTable_alias _ _ _ _ Hrw) as Hal. simpl in Hal.
    eexists. split; [reflexivity|]. split; [reflexivity|]. split; [reflexivity|].
    split; [reflexivity|]. split; [unfold routeWidth; rewrite Hsel; reflexivity|].
    exists sel, (aExpr expr2). split; [reflexivity|]. simpl. unfold SelOfAliased.
    rewrite Hal. reflexivity. }
  destruct reuseCol; simpl in H.
  - destruct (negb (checkIfAlreadyExists expr (rSelect node) st =? -1)) eqn:Hf.
    + simpl in H. injection H as <- <- <-.
      exists node. split; [reflexivity|]. split; [reflexivity|]. split; [reflexivity|].
      left. split; [reflexivity|]. split; [reflexivity|]. split; [reflexivity|].
      apply negb_true_iff, Z.eqb_neq in Hf. unfold checkIfAlreadyExists in *.
      destruct (checkIfAlreadyExists_from_found _ _ _ _ 0 _ ltac:(lia) eq_refl Hf)
        as (Hle & se & al & Hl & Hd).
      split; [exact Hle|]. exists se, al. rewrite Z.sub_0_r in Hl. split; assumption.
    + destruct (App H) as (node' & H1 & H2 & H3 & H4 & H5 & H6).
      exists node'. split; [exact H1|]. split; [exact H2|]. split; [exact H3|]. right. tauto.
  - destruct (App H) as (node' & H1 & H2 & H3 & H4 & H5 & H6).
    exists node'. split; [exact H1|]. split; [exact H2|]. split; [exact H3|]. right. tauto.
Qed.

(** X3.  A successful push onto a route touches nothing but the select list,
    and that only by appending.  Either a column is reused (only when
    reuseCol is set): the route is unchanged and the offset is the position
    of an aliased select expression of the first SELECT whose dependencies
    are those of the pushed expression.  Or one select expression is
    appended to a plain SELECT, under the alias of the pushed expression, and
    the offset is its position, the former length of the list.  A route
    holding a UNION is never extended. *)
Theorem pushProjection_route_append_only (L : Lib) (expr : AliasedExpr) (node : routeGen4)
    (st : SemTable) (inner reuseCol hasAggregation : bool)
    (offset : Z) (added : bool) (plan' : logicalPlan) :
  pushProjection L expr (PRoute node) st inner reuseCol hasAggregation
  = OK (offset, added, plan') ->
  exists node',
    plan' = PRoute node' /\ eroute node' = eroute node /\ tables node' = tables node /\
    ((added = false /\ reuseCol = true /\ node' = node /\ 0 <= offset /\
      exists se al,
        SelectExprs (GetFirstSelect (rSelect node)) !! Z.to_nat offset = Some (SelAliased se al) /\
        RecursiveDeps st se = RecursiveDeps st (aExpr expr)) \/
     (added = true /\ offset = routeWidth node /\
      exists sel e2,
        rSelect node = StmtSelect sel /\
        rSelect node'
        = StmtSelect (Select_setSelectExprs sel (SelectExprs sel ++ [SelAliased e2 (aAs expr)])))).
Proof. apply pushProjection_route_cases. Qed.

Lemma pushProjection_route_append_only_witness :
  exists node',
    PRoute (Example.scatter [SelAliased (Example.col "a") ""; SelAliased (Example.col "b") "x"])
    = PRoute node' /\
    rSelect node'
    = StmtSelect (Example.selectOf [SelAliased (Example.col "a") "";
                                    SelAliased (Example.col "b") "x"]).
Proof.
  destruct (pushProjection_route_append_only Example.lib (mkAliased (Example.col "b") "x")
              (Example.scatter [SelAliased (Example.col "a") ""]) Example.st true true false
              1 true _ eq_refl) as (node' & H & _).
  exists node'. split; [exact H|]. injection H as <-. reflexivity.
Defined.

Lemma lookup_app_last (cols : list Z) (c : Z) :
  (cols ++ [c]) !! Z.to_nat (len (cols ++ [c]) - 1) = Some c.
Proof.
  unfold len. rewrite length_app. simpl.
  replace (Z.to_nat (Z.of_nat (length cols + 1) - 1)) with (length cols + 0)%nat by lia.
  rewrite lookup_app_r by lia. replace (length cols + 0 - length cols)%nat with 0%nat by lia.
  reflexivity.
Qed.

Lemma joinColumn_lookup reuseCol appended column cols idx added cols' :
  joinColumn reuseCol appended column cols = (idx, added, cols') ->
  0 <= idx /\ (exists tail, cols' = cols ++ tail) /\ cols' !! Z.to_nat idx = Some column.
Proof.
  intros H. split; [exact (joinColumn_nonneg _ _ _ _ _ _ _ H)|]. revert H. unfold joinColumn.
  destruct (if reuseCol && negb appended then findCol column 0 cols else None) as [i|] eqn:E;
    intros H; injection H as <- <- <-.
  - split; [exists []; rewrite app_nil_r; reflexivity|].
    destruct (reuseCol && negb appended); [|discriminate].
    pose proof (findCol_lookup _ _ _ _ E) as Hl. rewrite Z.sub_0_r in Hl. exact Hl.
  - split; [exists [column]; reflexivity|]. apply lookup_app_last.
Qed.

(** X4.  The index returned by a successful push onto a join or a hash join
    is not negative and addresses an entry of the Cols of the join after the
    push, also when an entry is reused; that entry is -(off+1) for the offset
    off returned by the push onto the left child, or off+1 for the one
    returned by the push onto the right child.  The Cols before the push are
    a prefix of the Cols after it, and the opcode is kept. *)
Theorem pushProjection_join_index_addresses (L : Lib) (expr : AliasedExpr) (l r : logicalPlan)
    (st : SemTable) (inner reuseCol hasAggregation : bool)
    (idx : Z) (added : bool) (plan' : logicalPlan) :
  (forall node,
     pushProjection L expr (PJoin l r node) st inner reuseCol hasAggregation
     = OK (idx, added, plan') ->
     exists l' r' node',
       plan' = PJoin l' r' node' /\ jOpcode node' = jOpcode node /\
       addressesChildColumn L expr st inner reuseCol hasAggregation (jOpcode node)
         l r l' r' (jCols node) (jCols node') idx) /\
  (forall node,
     pushProjection L expr (PHashJoin l r node) st inner reuseCol hasAggregation
     = OK (idx, added, plan') ->
     exists l' r' node',
       plan' = PHashJoin l' r' node' /\ hOpcode node' = hOpcode node /\
       addressesChildColumn L expr st inner reuseCol hasAggregation (hOpcode node)
         l r l' r' (hCols node) (hCols node') idx).
Proof.
  assert (Left : forall off a l' cols idx' added' cols',
            pushProjection L expr l st inner (passDown expr reuseCol) hasAggregation
            = OK (off, a, l') ->
            joinColumn reuseCol a (- (off + 1)) cols = (idx', added', cols') ->
            forall opcode,
              addressesChildColumn L expr st inner reuseCol hasAggregation opcode
                l r l' r cols cols' idx').
  { intros off a l' cols idx' added' cols' Ep Ej opcode.
    destruct (joinColumn_lookup _ _ _ _ _ _ _ Ej) as (H0 & Ht & Hl).
    split; [exact H0|]. split; [exact Ht|]. exists (- (off + 1)). split; [exact Hl|].
    left. exists off, a. split; [exact Ep|]. split; reflexivity. }
  assert (Right : forall e' h' off a l' r' cols idx' added' cols' opcode,
            pushProjection L e' r st (inner && negb (bool_decide (opcode = LeftJoin)))
              (passDown expr reuseCol) h'
            = OK (off, a, r') ->
            joinColumn reuseCol a (off + 1) cols = (idx', added', cols') ->
            addressesChildColumn L expr st inner reuseCol hasAggregation opcode
              l r l' r' cols cols' idx').
  { intros e' h' off a l' r' cols idx' added' cols' opcode Ep Ej.
    destruct (joinColumn_lookup _ _ _ _ _ _ _ Ej) as (H0 & Ht & Hl).
    split; [exact H0|]. split; [exact Ht|]. exists (off + 1). split; [exact Hl|].
    right. exists e', h', off, a. split; [exact Ep|reflexivity]. }
  split; intros node E; rewrite pushProjection_unfold in E; unfold pushProjection_body in E;
    cbv zeta in E.
  - destruct (IsSolvedBy L _ (ContainsTables L l)).
    { destruct (pushProjection L expr l st inner _ _) as [[[off a] l']| | |] eqn:Ep;
        try discriminate.
      cbn -[pushProjection joinColumn] in E.
      destruct (joinColumn reuseCol a (- (off + 1)) (jCols node)) as [[i' a'] c'] eqn:Ej.
      injection E as <- <- <-.
      eexists _, _, _. split; [reflexivity|]. split; [reflexivity|].
      exact (Left _ _ _ _ _ _ _ eq_refl Ej _). }
    destruct (IsSolvedBy L _ (ContainsTables L r)).
    { destruct (pushProjection L expr r st _ _ _) as [[[off a] r']| | |] eqn:Ep;
        try discriminate.
      cbn -[pushProjection joinColumn] in E.
      destruct (joinColumn reuseCol a (off + 1) (jCols node)) as [[i' a'] c'] eqn:Ej.
      injection E as <- <- <-.
      eexists _, _, _. split; [reflexivity|]. split; [reflexivity|].
      exact (Right _ _ _ _ _ _ _ _ _ _ _ Ep Ej). }
    destruct hasAggregation; [discriminate|].
    destruct (breakExpressionInLHSandRHS L _ st _) as [[[bv cols] rw]| | |]; try discriminate.
    cbn -[pushProjection joinColumn pushLHSColumns] in E.
    destruct (pushLHSColumns (pushProjection L) bv cols l (jVars node) st inner)
      as [[l1 v1]| | |]; try discriminate.
    cbn -[pushProjection joinColumn] in E.
    destruct (pushProjection L _ r st _ _ _) as [[[off a] r']| | |] eqn:Ep; try discriminate.
    cbn -[pushProjection joinColumn] in E.
    destruct (joinColumn reuseCol a (off + 1) (jCols node)) as [[i' a'] c'] eqn:Ej.
    injection E as <- <- <-.
    eexists _, _, _. split; [reflexivity|]. split; [reflexivity|].
    exact (Right _ _ _ _ _ _ _ _ _ _ _ Ep Ej).
  - destruct (IsSolvedBy L _ (ContainsTables L l)).
    { destruct (pushProjection L expr l st inner _ _) as [[[off a] l']| | |] eqn:Ep;
        try discriminate.
      cbn -[pushProjection joinColumn] in E.
      destruct (joinColumn reuseCol a (- (off + 1)) (hCols node)) as [[i' a'] c'] eqn:Ej.
      injection E as <- <- <-.
      eexists _, _, _. split; [reflexivity|]. split; [reflexivity|].
      exact (Left _ _ _ _ _ _ _ eq_refl Ej _). }
    destruct (IsSolvedBy L _ (ContainsTables L r)).
    { destruct (pushProjection L expr r st _ _ _) as [[[off a] r']| | |] eqn:Ep;
        try discriminate.
      cbn -[pushProjection joinColumn] in E.
      destruct (joinColumn reuseCol a (off + 1) (hCols node)) as [[i' a'] c'] eqn:Ej.
      injection E as <- <- <-.
      eexists _, _, _. split; [reflexivity|]. split; [reflexivity|].
      exact (Right _ _ _ _ _ _ _ _ _ _ _ Ep Ej). }
    destruct hasAggregation; discriminate.
Qed.

(** X5.  A successful push onto a semi join pushes onto the left-hand side
    only: the right-hand side is untouched, the returned index is not
    negative and addresses the entry -(off+1) of the cols after the push,
    off being the offset that the push onto the left-hand side returned, and
    the cols before the push are a prefix of the cols after it. *)
Theorem pushProjection_semi_join_index (L : Lib) (expr : AliasedExpr) (lhs rhs : logicalPlan)
    (cols : list Z) (st : SemTable) (inner reuseCol hasAggregation : bool)
    (idx : Z) (added : bool) (plan' : logicalPlan) :
  pushProjection L expr (PSemiJoin lhs rhs cols) st inner reuseCol hasAggregation
  = OK (idx, added, plan') ->
  exists lhs' cols' off a,
    plan' = PSemiJoin lhs' rhs cols' /\
    pushProjection L expr lhs st inner (passDown expr reuseCol) hasAggregation
    = OK (off, a, lhs') /\
    0 <= idx /\ cols' !! Z.to_nat idx = Some (- (off + 1)) /\
    (exists tail, cols' = cols ++ tail) /\
    (added = false -> cols' = cols /\ reuseCol = true /\ a = false).
Proof.
  intros E. rewrite pushProjection_unfold in E. unfold pushProjection_body in E. cbv zeta in E.
  destruct (pushProjection L expr lhs st inner _ _) as [[[off a] lhs']| | |] eqn:Ep;
    try discriminate.
  cbn -[pushProjection joinColumn] in E.
  destruct (joinColumn reuseCol a (- (off + 1)) cols) as [[i' a'] c'] eqn:Ej.
  injection E as <- <- <-.
  destruct (joinColumn_lookup _ _ _ _ _ _ _ Ej) as (H0 & Ht & Hl).
  exists lhs', c', off, a. split; [reflexivity|]. split; [reflexivity|].
  split; [exact H0|]. split; [exact Hl|]. split; [exact Ht|].
  intros ->. unfold joinColumn in Ej.
  destruct reuseCol, a; simpl in Ej; try (injection Ej; intros; discriminate).
  destruct (findCol _ 0 cols); [|injection Ej; intros; discriminate].
  injection Ej; intros; subst. repeat split.
Qed.

(** X6.  A successful push onto a simple projection pushes onto the input
    with reuseCol set, whatever reuseCol the caller gave, and records the
    offset off returned there: the returned index is not negative and
    addresses an entry of the Cols after the push that holds off.  The Cols
    are unchanged when an entry is reused, which happens only when the caller
    set reuseCol; otherwise off is appended and its position returned. *)
Theorem pushProjection_simple_projection_index (L : Lib) (expr : AliasedExpr)
    (input : logicalPlan) (cols : list Z) (st : SemTable)
    (inner reuseCol hasAggregation : bool)
    (idx : Z) (added : bool) (plan' : logicalPlan) :
  pushProjection L expr (PSimpleProjection input cols) st inner reuseCol hasAggregation
  = OK (idx, added, plan') ->
  exists input' cols' off a,
    plan' = PSimpleProjection input' cols' /\
    pushProjection L expr input st inner true hasAggregation = OK (off, a, input') /\
    0 <= idx /\ cols' !! Z.to_nat idx = Some off /\
    ((added = false /\ reuseCol = true /\ cols' = cols) \/
     (added = true /\ cols' = cols ++ [off] /\ idx = len cols)).
Proof.
  intros E. rewrite pushProjection_unfold in E. unfold pushProjection_body in E.
  destruct (pushProjection L expr input st inner true _) as [[[off a] input']| | |] eqn:Ep;
    try discriminate.
  cbn -[pushProjection findCol] in E.
  destruct (if reuseCol then findCol off 0 cols else None) as [i|] eqn:Ef;
    injection E as <- <- <-.
  - exists input', cols, off, a. split; [reflexivity|]. split; [reflexivity|].
    destruct reuseCol; [|discriminate].
    pose proof (findCol_ge _ _ _ _ Ef) as Hge.
    pose proof (findCol_lookup _ _ _ _ Ef) as Hl. rewrite Z.sub_0_r in Hl.
    split; [exact Hge|]. split; [exact Hl|]. left. repeat split.
  - exists input', (cols ++ [off]), off, a. split; [reflexivity|]. split; [reflexivity|].
    split; [unfold len; rewrite length_app; simpl; lia|].
    split; [apply lookup_app_last|]. right. split; [reflexivity|]. split; [reflexivity|].
    unfold len. rewrite length_app. simpl. lia.
Qed.

Lemma findAggregate_first expr aggrs :
  match findAggregate expr aggrs with
  | Some col =>
      exists pre a post,
        aggrs = pre ++ a :: post /\ Forall (fun b => aggregateMatches expr b = false) pre /\
        aggregateMatches expr a = true /\ col = agCol a
  | None => Forall (fun b => aggregateMatches expr b = false) aggrs
  end.
Proof.
  induction aggrs as [|a aggrs IH]; simpl; [constructor|].
  assert (Hit : aggregateMatches expr a = true ->
                exists pre a0 post,
                  a :: aggrs = pre ++ a0 :: post /\
                  Forall (fun b => aggregateMatches expr b = false) pre /\
                  aggregateMatches expr a0 = true /\ agCol a = agCol a0).
  { intros Hm. exists [], a, aggrs. repeat split; [constructor|exact Hm]. }
  assert (Miss : aggregateMatches expr a = false ->
                 match findAggregate expr aggrs with
                 | Some col =>
                     exists pre a0 post,
                       a :: aggrs = pre ++ a0 :: post /\
                       Forall (fun b => aggregateMatches expr b = false) pre /\
                       aggregateMatches expr a0 = true /\ col = agCol a0
                 | None => Forall (fun b => aggregateMatches expr b = false) (a :: aggrs)
                 end).
  { intros Hm. destruct (findAggregate expr aggrs) as [col|].
    - destruct IH as (pre & a0 & post & -> & Hpre & Ha0 & ->).
      exists (a :: pre), a0, post. repeat split; [constructor; assumption|exact Ha0].
    - constructor; assumption. }
  destruct (EqualsExprOpt (agExpr a) (Some (aExpr expr))) eqn:E1.
  { apply Hit. unfold aggregateMatches. rewrite E1. reflexivity. }
  destruct (aExpr expr) eqn:E2;
    try (apply Miss; unfold aggregateMatches; rewrite E2, E1; reflexivity).
  destruct (ColIdent_EqualString _ _) eqn:E3.
  - apply Hit. unfold aggregateMatches. rewrite E2, E1, E3. reflexivity.
  - apply Miss. unfold aggregateMatches. rewrite E2, E1, E3. reflexivity.
Qed.

(** X7.  A push onto an ordered aggregate only looks a column up.  It returns
    the column of the first aggregate that has the pushed expression, or
    whose alias is the name of the pushed column, reports that nothing was
    added and leaves the plan as it is; the input of the ordered aggregate is
    not visited.  When no aggregate matches, the push fails with the INTERNAL
    error of the ordered aggregates. *)
Theorem pushProjection_ordered_aggregate_lookup (L : Lib) (expr : AliasedExpr)
    (input : logicalPlan) (eaggr : engine_OrderedAggregate) (st : SemTable)
    (inner reuseCol hasAggregation : bool) :
  (exists pre a post,
     Aggregates eaggr = pre ++ a :: post /\
     Forall (fun b => aggregateMatches expr b = false) pre /\
     aggregateMatches expr a = true /\
     pushProjection L expr (POrderedAggregate input eaggr) st inner reuseCol hasAggregation
     = OK (agCol a, false, POrderedAggregate input eaggr)) \/
  (Forall (fun b => aggregateMatches expr b = false) (Aggregates eaggr) /\
   pushProjection L expr (POrderedAggregate input eaggr) st inner reuseCol hasAggregation
   = Err (vterrors_New Code_INTERNAL "cannot push projections in ordered aggregates")).
Proof.
  rewrite pushProjection_unfold. unfold pushProjection_body.
  pose proof (findAggregate_first expr (Aggregates eaggr)) as H.
  destruct (findAggregate expr (Aggregates eaggr)) as [col|].
  - destruct H as (pre & a & post & Hs & Hpre & Ha & ->). left. exists pre, a, post. tauto.
  - right. tauto.
Qed.

(** X8.  A successful push onto a concatenate was made without aggregation,
    went to the first source only and found an existing column there: the
    other sources are untouched, nothing is reported as added, and the offset
    is the one of the first source.  With aggregation the push is refused as
    UNIMPLEMENTED before any source is visited. *)
Theorem pushProjection_concatenate_first_source (L : Lib) (expr : AliasedExpr)
    (sources : list logicalPlan) (st : SemTable) (inner reuseCol hasAggregation : bool) :
  (hasAggregation = true ->
   pushProjection L expr (PConcatenate sources) st inner reuseCol hasAggregation
   = Err (vterrors_New Code_UNIMPLEMENTED "unsupported: aggregation on unions")) /\
  (forall offset added plan',
     pushProjection L expr (PConcatenate sources) st inner reuseCol hasAggregation
     = OK (offset, added, plan') ->
     hasAggregation = false /\ added = false /\
     exists source0 others source0',
       sources = source0 :: others /\ plan' = PConcatenate (source0' :: others) /\
       pushProjection L expr source0 st inner reuseCol false = OK (offset, false, source0')).
Proof.
  rewrite pushProjection_unfold. unfold pushProjection_body. split.
  - intros ->. reflexivity.
  - intros offset added plan' E. destruct hasAggregation; [discriminate|].
    destruct sources as [|s0 others]; [discriminate|].
    destruct (pushProjection L expr s0 st inner reuseCol false) as [[[off a] s0']| | |] eqn:Ep;
      try discriminate.
    cbn -[pushProjection] in E. destruct a; [discriminate|]. injection E as <- <- <-.
    split; [reflexivity|]. split; [reflexivity|].
    exists s0, others, s0'. split; [reflexivity|]. split; [reflexivity|exact Ep].
Qed.

Lemma pushProjection_join_index_addresses_witness :
  exists l' r' node',
    Sample.joinX = PJoin l' r' node' /\ jOpcode node' = InnerJoin /\
    addressesChildColumn Example.lib (AliasedOf Sample.colRX) Example.st true true false
      InnerJoin Sample.leftEmpty Sample.rightX l' r' [1] (jCols node') 0.
Proof.
  exact (proj1 (pushProjection_join_index_addresses Example.lib (AliasedOf Sample.colRX)
                  Sample.leftEmpty Sample.rightX Example.st true true false
                  0 false Sample.joinX)
               (mkJoin InnerJoin [1] ∅) eq_refl).
Defined.

Lemma pushProjection_semi_join_index_witness :
  exists lhs' cols' off a,
    Sample.semiA = PSemiJoin lhs' Sample.rightEmpty cols' /\
    pushProjection Example.lib (AliasedOf Sample.colA) Sample.leftA Example.st true
      (passDown (AliasedOf Sample.colA) true) false = OK (off, a, lhs') /\
    0 <= 0 /\ cols' !! Z.to_nat 0 = Some (- (off + 1)) /\
    (exists tail, cols' = [-1] ++ tail) /\
    (false = false -> cols' = [-1] /\ true = true /\ a = false).
Proof.
  exact (pushProjection_semi_join_index Example.lib (AliasedOf Sample.colA)
           Sample.leftA Sample.rightEmpty [-1] Example.st true true false
           0 false Sample.semiA eq_refl).
Defined.

Lemma pushProjection_simple_projection_index_witness :
  exists input' cols' off a,
    PSimpleProjection Sample.leftBA [0; 1] = PSimpleProjection input' cols' /\
    pushProjection Example.lib (AliasedOf Sample.colA) Sample.leftB Example.st true true false
    = OK (off, a, input') /\
    0 <= 1 /\ cols' !! Z.to_nat 1 = Some off /\
    ((true = false /\ false = true /\ cols' = [0]) \/
     (true = true /\ cols' = [0] ++ [off] /\ 1 = len [0])).
Proof.
  exact (pushProjection_simple_projection_index Example.lib (AliasedOf Sample.colA)
           Sample.leftB [0] Example.st true false false
           1 true (PSimpleProjection Sample.leftBA [0; 1]) eq_refl).
Defined.

Lemma pushProjection_concatenate_first_source_witness :
  false = false /\ false = false /\
  exists source0 others source0',
    [Sample.leftA; Sample.rightEmpty] = source0 :: others /\
    Sample.unionA = PConcatenate (source0' :: others) /\
    pushProjection Example.lib (AliasedOf Sample.colA) source0 Example.st true true false
    = OK (0, false, source0').
Proof.
  exact (proj2 (pushProjection_concatenate_first_source Example.lib (AliasedOf Sample.colA)
                  [Sample.leftA; Sample.rightEmpty] Example.st true true false)
               0 false Sample.unionA eq_refl).
Defined.

(** * Further properties of truncation, ORDER BY and DISTINCT *)

Lemma truncateColumns_again count count' plan :
  forall plan',
    truncateColumns count plan = OK plan' ->
    shape plan' = shape plan /\
    truncateColumns count' plan' = truncateColumns count' plan.
Proof.
  induction plan; intros plan' H; simpl in H; try discriminate;
    try (injection H as <-; split; reflexivity).
  - destruct (truncateColumns count plan2) as [u| | |] eqn:E; try discriminate.
    simpl in H. injection H as <-. destruct (IHplan2 _ eq_refl) as [S1 T1].
    split; [simpl; rewrite S1; reflexivity|]. simpl. rewrite T1. reflexivity.
  - destruct (truncateColumns count plan) as [u| | |] eqn:E; try discriminate.
    simpl in H. injection H as <-. destruct (IHplan _ eq_refl) as [S1 T1].
    split; [simpl; rewrite S1; reflexivity|]. simpl. rewrite T1. reflexivity.
Qed.

(** X9.  Truncation touches truncate column counts only and can be repeated:
    when truncateColumnsIfNeeded succeeds, the plan it returns has the
    operators of the plan it was given, and running it again on that plan
    returns it unchanged. *)
Theorem truncateColumnsIfNeeded_idempotent (hp : horizonPlanning) (plan plan' : logicalPlan) :
  truncateColumnsIfNeeded hp plan = OK plan' ->
  shape plan' = shape plan /\ truncateColumnsIfNeeded hp plan' = OK plan'.
Proof.
  unfold truncateColumnsIfNeeded. destruct (needsTruncation hp); simpl.
  - intros H.
    destruct (truncateColumns_again _ (Select_GetColumnCount (sel hp)) _ _ H) as [S1 T1].
    split; [exact S1|]. rewrite T1. exact H.
  - intros H. injection H as <-. split; reflexivity.
Qed.

Lemma isAmbiguousOrderBy_from_iff index col exprs :
  forall i,
    isAmbiguousOrderBy_from index col i exprs = true <->
    exists j ej, i + Z.of_nat j <> index /\ exprs !! j = Some ej /\ ambiguousWith col ej.
Proof.
  induction exprs as [|x exprs IH]; intros i; simpl.
  - split; [discriminate|]. intros (j & ej & _ & Hj & _). rewrite lookup_nil in Hj. discriminate.
  - assert (Tail : isAmbiguousOrderBy_from index col (i + 1) exprs = true <->
                   exists j ej, i + Z.of_nat (S j) <> index /\ (x :: exprs) !! S j = Some ej /\
                                ambiguousWith col ej).
    { rewrite IH. split; intros (j & ej & Hne & Hj & Ha); exists j, ej;
        (split; [lia|split; [exact Hj|exact Ha]]). }
    assert (Skip : ~ (i + Z.of_nat 0 <> index /\ ambiguousWith col x) ->
                   (isAmbiguousOrderBy_from index col (i + 1) exprs = true <->
                    exists j ej, i + Z.of_nat j <> index /\ (x :: exprs) !! j = Some ej /\
                                 ambiguousWith col ej)).
    { intros Hn. rewrite Tail. split.
      - intros (j & ej & H). exists (S j), ej. exact H.
      - intros (j & ej & Hne & Hj & Ha). destruct j as [|j].
        + simpl in Hj. injection Hj as <-. exfalso. apply Hn. split; assumption.
        + exists j, ej. split; [exact Hne|]. split; [exact Hj|exact Ha]. }
    assert (Here : i + Z.of_nat 0 <> index -> ambiguousWith col x ->
                   (true = true <->
                    exists j ej, i + Z.of_nat j <> index /\ (x :: exprs) !! j = Some ej /\
                                 ambiguousWith col ej)).
    { intros Hne Ha. split; [|reflexivity]. intros _. exists 0%nat, x.
      split; [exact Hne|]. split; [reflexivity|exact Ha]. }
    destruct (Z.eqb_spec i index) as [Hi|Hi].
    + apply Skip. intros [Hne _]. simpl in Hne. lia.
    + assert (Hne : i + Z.of_nat 0 <> index) by (simpl; lia).
      unfold ambiguousWith, itemName in Skip, Here.
      destruct (Col x) as [e al| |].
      * destruct (ColIdent_Equal col _) eqn:Heq.
        -- apply Here; [exact Hne|]. right. eexists. split; [reflexivity|exact Heq].
        -- apply Skip. intros [_ [Hnone|(n & Hn & Hc)]]; [discriminate|].
           injection Hn as <-. rewrite Heq in Hc. discriminate.
      * apply Here; [exact Hne|]. left. reflexivity.
      * apply Here; [exact Hne|]. left. reflexivity.
Qed.

(** X10.  isAmbiguousOrderBy answers true exactly when the name is not empty
    and a select item other than the one at the given index either is no
    aliased expression (a star, say) or is known under an equal name: its
    alias or, without alias, the name of its bare column. *)
Theorem isAmbiguousOrderBy_iff (index : Z) (col : ColIdent) (exprs : list SelectExprQP) :
  isAmbiguousOrderBy index col exprs = true <->
  col <> "" /\
  exists j ej, Z.of_nat j <> index /\ exprs !! j = Some ej /\ ambiguousWith col ej.
Proof.
  unfold isAmbiguousOrderBy, ColIdent_String.
  destruct (String.eqb_spec col "") as [->|Hne].
  - split; [discriminate|]. intros [H _]. contradiction.
  - rewrite isAmbiguousOrderBy_from_iff. split.
    + intros (j & ej & H1 & H2 & H3). split; [exact Hne|]. exists j, ej.
      split; [lia|]. split; assumption.
    + intros (_ & j & ej & H1 & H2 & H3). exists j, ej. split; [lia|]. split; assumption.
Qed.

Lemma isAmbiguousOrderBy_iff_witness :
  isAmbiguousOrderBy 0 "a" [mkSelectExprQP (SelAliased Sample.colB "a") false;
                            mkSelectExprQP (SelStar (mkTableName "" "")) false] = true.
Proof.
  apply (proj2 (isAmbiguousOrderBy_iff 0 "a" _)). split; [discriminate|].
  exists 1%nat, (mkSelectExprQP (SelStar (mkTableName "" "")) false).
  split; [discriminate|]. split; [reflexivity|]. left. reflexivity.
Defined.

Lemma findInGroupByKeys_found ws keys :
  forall i k w idx,
    findInGroupByKeys ws i keys = Some (k, w, idx) ->
    i <= idx /\
    exists key, keys !! Z.to_nat (idx - i) = Some key /\ KeyCol key = k /\ WeightStringCol key = w.
Proof.
  induction keys as [|key keys IH]; intros i k w idx H; simpl in H; [discriminate|].
  match type of H with (if ?b then _ else _) = _ => destruct b end.
  - injection H as <- <- <-. split; [lia|]. exists key. rewrite Z.sub_diag.
    split; [reflexivity|]. split; reflexivity.
  - destruct (IH _ _ _ _ H) as (Hle & key' & Hl & Hk & Hw). split; [lia|].
    exists key'. split; [|split; assumption].
    replace (Z.to_nat (idx - i)) with (S (Z.to_nat (idx - (i + 1)))) by lia. exact Hl.
Qed.

Lemma findInAggregates_found ws aggrs :
  forall i k w idx, findInAggregates ws i aggrs = Some (k, w, idx) -> w = -1.
Proof.
  induction aggrs as [|a aggrs IH]; intros i k w idx H; simpl in H; [discriminate|].
  match type of H with (if ?b then _ else _) = _ => destruct b end.
  - injection H as _ <- _. reflexivity.
  - exact (IH _ _ _ _ H).
Qed.

Lemma findExprInOrderedAggr_key eaggr order k w idx :
  findExprInOrderedAggr eaggr order = Some (k, w, idx) ->
  w <> -1 ->
  0 <= idx /\
  exists key, GroupByKeys eaggr !! Z.to_nat idx = Some key /\ KeyCol key = k /\
              WeightStringCol key = w.
Proof.
  unfold findExprInOrderedAggr. intros H Hw.
  destruct (findInGroupByKeys _ 0 (GroupByKeys eaggr)) as [[[k' w'] i']|] eqn:E.
  - injection H as -> -> ->. destruct (findInGroupByKeys_found _ _ _ _ _ _ E) as (Hle & key & Hl & Hk).
    rewrite Z.sub_0_r in Hl. split; [exact Hle|]. exists key. split; [exact Hl|exact Hk].
  - pose proof (findInAggregates_found _ _ _ _ _ _ H). contradiction.
Qed.

Lemma createMemorySortPlanOnAggregation_loop_result (L : Lib) eaggr orderExprs :
  forall acc,
    (exists news,
       createMemorySortPlanOnAggregation_loop L eaggr orderExprs acc = OK (acc ++ news) /\
       Forall2 (sortParamFor L eaggr) orderExprs news) \/
    (exists pre order post,
       orderExprs = pre ++ order :: post /\
       Forall (fun o => findExprInOrderedAggr eaggr o <> None) pre /\
       findExprInOrderedAggr eaggr order = None /\
       createMemorySortPlanOnAggregation_loop L eaggr orderExprs acc
       = Err (errOrderNotInAggregate L order)).
Proof.
  induction orderExprs as [|o os IH]; intros acc; simpl.
  - left. exists []. rewrite app_nil_r. split; [reflexivity|constructor].
  - destruct (findExprInOrderedAggr eaggr o) as [[[k w] idx]|] eqn:E.
    + assert (Hc : exists c,
                 (if negb (w =? -1)
                  then match GroupByKeys eaggr !! Z.to_nat idx with
                       | Some key => OK (gbCollationID key)
                       | None => Panic "index out of range"
                       end
                  else OK (collations_Unknown L)) = OK c /\
                 sortParamFor L eaggr o (mkOrderByParams k w (isDesc (Inner o)) k c)).
      { destruct (Z.eqb_spec w (-1)) as [->|Hw]; simpl.
        - exists (collations_Unknown L). split; [reflexivity|]. exists idx. simpl.
          split; [exact E|]. split; [reflexivity|]. split; [reflexivity|].
          split; [reflexivity|]. intros Hn. contradiction.
        - destruct (findExprInOrderedAggr_key _ _ _ _ _ E Hw) as (_ & key & Hl & Hk & Hws).
          rewrite Hl. exists (gbCollationID key). split; [reflexivity|]. exists idx. simpl.
          split; [exact E|]. split; [reflexivity|]. split; [reflexivity|].
          split; [intros Hn; contradiction|]. intros _. exists key. tauto. }
      destruct Hc as (c & -> & Hp). simpl.
      destruct (IH (acc ++ [mkOrderByParams k w (isDesc (Inner o)) k c]))
        as [(news & -> & HF)|(pre & order & post & -> & Hpre & Hnone & ->)].
      * left. exists (mkOrderByParams k w (isDesc (Inner o)) k c :: news).
        rewrite <- app_assoc. split; [reflexivity|]. constructor; assumption.
      * right. exists (o :: pre), order, post. split; [reflexivity|].
        split; [constructor; [rewrite E; discriminate|exact Hpre]|]. split; [exact Hnone|reflexivity].
    + right. exists [], o, os. split; [reflexivity|]. split; [constructor|].
      split; [exact E|reflexivity].
Qed.

(** X11.  createMemorySortPlanOnAggregation never indexes GroupByKeys out of
    range.  Either every order expression is found among the group keys or
    the aggregates of the ordered aggregate: then the result is a memory sort
    over the untouched ordered aggregate, with one sort parameter per order
    expression, in order, holding the columns found (StarColFixedIndex equal
    to Col) and the collation of the group key found when that key has a
    weight string, the unknown collation otherwise.  Or it fails with the
    INTERNAL error of the first order expression that is not found. *)
Theorem createMemorySortPlanOnAggregation_result (L : Lib) (input : logicalPlan)
    (eaggr : engine_OrderedAggregate) (orderExprs : list OrderByQP) :
  (exists orderBy,
     createMemorySortPlanOnAggregation L input eaggr orderExprs
     = OK (PMemorySort (POrderedAggregate input eaggr) (mkEMemorySort orderBy 0)) /\
     Forall2 (sortParamFor L eaggr) orderExprs orderBy) \/
  (exists pre order post,
     orderExprs = pre ++ order :: post /\
     Forall (fun o => findExprInOrderedAggr eaggr o <> None) pre /\
     findExprInOrderedAggr eaggr order = None /\
     createMemorySortPlanOnAggregation L input eaggr orderExprs
     = Err (errOrderNotInAggregate L order)).
Proof.
  unfold createMemorySortPlanOnAggregation.
  destruct (createMemorySortPlanOnAggregation_loop_result L eaggr orderExprs [])
    as [(news & -> & HF)|(pre & order & post & Hs & Hpre & Hnone & ->)].
  - left. exists news. split; [reflexivity|exact HF].
  - right. exists pre, order, post. tauto.
Qed.

Lemma truncateColumnsIfNeeded_idempotent_witness :
  shape (PMemorySort Sample.leftA (mkEMemorySort [] 1)) = shape (PMemorySort Sample.leftA (mkEMemorySort [] 0)) /\
  truncateColumnsIfNeeded
    (hp_setNeedsTruncation (Example.hpOf (Example.selectOf [SelAliased Sample.colA ""])) true)
    (PMemorySort Sample.leftA (mkEMemorySort [] 1))
  = OK (PMemorySort Sample.leftA (mkEMemorySort [] 1)).
Proof.
  exact (truncateColumnsIfNeeded_idempotent
           (hp_setNeedsTruncation (Example.hpOf (Example.selectOf [SelAliased Sample.colA ""])) true)
           (PMemorySort Sample.leftA (mkEMemorySort [] 0))
           (PMemorySort Sample.leftA (mkEMemorySort [] 1)) eq_refl).
Defined.

Lemma sameButTruncation_refl hp : sameButTruncation hp hp.
Proof. repeat split; auto. Qed.

Lemma sameButTruncation_trans hp1 hp2 hp3 :
  sameButTruncation hp1 hp2 -> sameButTruncation hp2 hp3 -> sameButTruncation hp1 hp3.
Proof.
  intros (A1 & A2 & A3 & A4) (B1 & B2 & B3 & B4).
  repeat split; try congruence. auto.
Qed.

Lemma sameButTruncation_haveToTruncate hp v : sameButTruncation hp (haveToTruncate hp v).
Proof.
  unfold haveToTruncate, hp_setNeedsTruncation. repeat split; simpl. intros ->. reflexivity.
Qed.

(** A push onto a route hands a route back, with the engine primitive and the
    tables it had, at an offset that is not negative. *)
Lemma pushProjection_route_frame (L : Lib) expr node st inner reuseCol hasAggregation o a p' :
  pushProjection L expr (PRoute node) st inner reuseCol hasAggregation = OK (o, a, p') ->
  exists node', p' = PRoute node' /\ eroute node' = eroute node /\ tables node' = tables node /\
                0 <= o.
Proof.
  intros H. destruct (pushProjection_route_cases _ _ _ _ _ _ _ _ _ _ H)
    as (node' & -> & He & Ht & [(_ & _ & _ & Ho & _)|(_ & -> & _)]);
    exists node'; (split; [reflexivity|]); (split; [exact He|]); (split; [exact Ht|]).
  - exact Ho.
  - unfold routeWidth, len. lia.
Qed.

Lemma wrapAndPushExpr_route (L : Lib) expr ws node st o w a p' :
  wrapAndPushExpr L expr ws (PRoute node) st = OK (o, w, a, p') ->
  exists node', p' = PRoute node' /\ eroute node' = eroute node /\ tables node' = tables node /\
                0 <= o.
Proof.
  unfold wrapAndPushExpr. intros H.
  destruct (pushProjection L (AliasedOf expr) (PRoute node) st true true false)
    as [[[o1 a1] p1]| | |] eqn:E1; try discriminate.
  destruct (pushProjection_route_frame _ _ _ _ _ _ _ _ _ _ E1) as (n1 & -> & He1 & Ht1 & Ho1).
  cbn -[pushProjection] in H.
  destruct ws as [ws|].
  - destruct (weightStringColumn L expr); try discriminate.
    cbn -[pushProjection] in H.
    destruct (match TypeFor st _ with Some t => if IsNumber L t then false else true | None => true end).
    + destruct (pushProjection L _ (PRoute n1) st true true false) as [[[o2 a2] p2]| | |] eqn:E2;
        try discriminate.
      destruct (pushProjection_route_frame _ _ _ _ _ _ _ _ _ _ E2) as (n2 & -> & He2 & Ht2 & _).
      simpl in H. injection H as <- _ _ <-.
      exists n2. split; [reflexivity|]. split; [congruence|]. split; [congruence|exact Ho1].
    + injection H as <- _ _ <-. exists n1. tauto.
  - injection H as <- _ _ <-. exists n1. tauto.
Qed.

Lemma planOrderByForRoute_loop_appends (L : Lib) st hasStar orderExprs :
  forall plan plan',
    planOrderByForRoute_loop L orderExprs plan st hasStar = OK plan' ->
    tables plan' = tables plan /\
    rOpcode (eroute plan') = rOpcode (eroute plan) /\
    rTruncateColumnCount (eroute plan') = rTruncateColumnCount (eroute plan) /\
    exists params,
      rOrderBy (eroute plan') = rOrderBy (eroute plan) ++ params /\
      Forall2 (routeSortParamFor st)
        (List.filter (fun o => negb (isSpecialOrderBy o)) orderExprs) params.
Proof.
  induction orderExprs as [|order rest IH]; intros plan plan' H;
    cbn [planOrderByForRoute_loop] in H.
  - injection H as <-. repeat split. exists []. rewrite app_nil_r. split; [reflexivity|constructor].
  - destruct (checkOrderExprCanBePlannedInScatter L plan order hasStar); try discriminate.
    cbn -[planOrderByForRoute_loop wrapAndPushExpr isSpecialOrderBy] in H.
    cbn [List.filter].
    destruct (isSpecialOrderBy order); cbn [negb].
    + destruct (IH _ _ H) as (Ht & Ho & Hc & params & Hp & HF). simpl in Ht, Ho, Hc, Hp.
      split; [exact Ht|]. split; [exact Ho|]. split; [exact Hc|]. exists params. tauto.
    + destruct (wrapAndPushExpr L _ _ (PRoute _) st) as [[[[o1 w1] a1] p2]| | |] eqn:Ew;
        try discriminate.
      destruct (wrapAndPushExpr_route _ _ _ _ _ _ _ _ _ Ew) as (n2 & -> & He & Ht2 & Ho2).
      cbn -[planOrderByForRoute_loop] in H.
      destruct (IH _ _ H) as (Ht & Ho & Hc & params & Hp & HF). simpl in Ht, Ho, Hc, Hp, He, Ht2.
      split; [congruence|]. split; [rewrite Ho, He; reflexivity|].
      split; [rewrite Hc, He; reflexivity|].
      eexists (_ :: params). split.
      * rewrite Hp, He, <- app_assoc. reflexivity.
      * constructor; [|exact HF]. repeat split. exact Ho2.
Qed.

(** X12.  Ordering a route keeps it a route over the same tables, with the
    opcode and the truncate column count it had.  The OrderBy of its engine
    primitive grows by one sort parameter for each order expression that is
    neither NULL nor rand(), in the order of the expressions; each holds a
    column offset that is not negative, the direction of its expression and
    the collation that the semantic table has for it.  The flag returned
    tells whether the column count of the statement changed. *)
Theorem planOrderByForRoute_appends (L : Lib) (orderExprs : list OrderByQP) (plan : routeGen4)
    (st : SemTable) (hasStar : bool) (plan' : routeGen4) (truncate : bool) :
  planOrderByForRoute L orderExprs plan st hasStar = OK (plan', truncate) ->
  tables plan' = tables plan /\
  rOpcode (eroute plan') = rOpcode (eroute plan) /\
  rTruncateColumnCount (eroute plan') = rTruncateColumnCount (eroute plan) /\
  (exists params,
     rOrderBy (eroute plan') = rOrderBy (eroute plan) ++ params /\
     Forall2 (routeSortParamFor st)
       (List.filter (fun o => negb (isSpecialOrderBy o)) orderExprs) params) /\
  truncate = negb (GetColumnCount (rSelect plan) =? GetColumnCount (rSelect plan')).
Proof.
  unfold planOrderByForRoute. intros H.
  destruct (planOrderByForRoute_loop L orderExprs plan st hasStar) as [p1| | |] eqn:E;
    try discriminate.
  simpl in H. injection H as <- <-.
  destruct (planOrderByForRoute_loop_appends _ _ _ _ _ _ E) as (Ht & Ho & Hc & Hp).
  repeat split; assumption.
Qed.

Lemma createMemorySortPlan_loop_result (L : Lib) ctx useWeightStr orderExprs :
  forall hp plan acc plan' orderBy hp',
    createMemorySortPlan_loop L hp ctx plan orderExprs useWeightStr acc
    = OK (plan', orderBy, hp') ->
    shape plan' = shape plan /\
    sameButTruncation hp hp' /\
    exists news,
      orderBy = acc ++ news /\ length news = length orderExprs /\
      Forall (fun p => obStarColFixedIndex p = obCol p) news /\
      (useWeightStr = false -> Forall (fun p => obWeightStringCol p = -1) news).
Proof.
  induction orderExprs as [|order rest IH]; intros hp plan acc plan' orderBy hp' H;
    cbn [createMemorySortPlan_loop] in H.
  - injection H as <- <- <-. split; [reflexivity|]. split; [apply sameButTruncation_refl|].
    exists []. rewrite app_nil_r. repeat split; constructor.
  - destruct (wrapAndPushExpr L _ _ plan (semTable ctx)) as [[[[o w] a] p1]| | |] eqn:Ew;
      try discriminate.
    cbn -[createMemorySortPlan_loop] in H.
    destruct (IH _ _ _ _ _ _ H) as (S2 & F2 & news & -> & Hl & Hs & Hw).
    pose proof (wrapAndPushExpr_shape _ _ _ _ _ _ _ _ _ Ew) as S1.
    split; [congruence|].
    split; [exact (sameButTruncation_trans _ _ _ (sameButTruncation_haveToTruncate hp a) F2)|].
    eexists (_ :: news). split; [rewrite <- app_assoc; reflexivity|].
    split; [simpl; rewrite Hl; reflexivity|]. split; [constructor; [reflexivity|exact Hs]|].
    intros ->. constructor; [|apply Hw; reflexivity]. simpl.
    unfold wrapAndPushExpr in Ew.
    destruct (pushProjection L _ plan (semTable ctx) true true false) as [[[o1 a1] q1]| | |];
      try discriminate.
    simpl in Ew. injection Ew as _ <- _ _. reflexivity.
Qed.

(** X13.  A successful createMemorySortPlan puts one memory sort above the
    plan, whose operators it keeps.  The memory sort has one sort parameter
    per order expression, each with StarColFixedIndex equal to Col, and
    without weight-string column (-1) when useWeightStr is false.  Of the
    driver's record only needsTruncation may change, and it is never
    reset. *)
Theorem createMemorySortPlan_result (L : Lib) (hp : horizonPlanning) (ctx : planningContext)
    (plan : logicalPlan) (orderExprs : list OrderByQP) (useWeightStr : bool)
    (plan' : logicalPlan) (hp' : horizonPlanning) :
  createMemorySortPlan L hp ctx plan orderExprs useWeightStr = OK (plan', hp') ->
  exists inner orderBy,
    plan' = PMemorySort inner (mkEMemorySort orderBy 0) /\
    shape inner = shape plan /\
    length orderBy = length orderExprs /\
    Forall (fun p => obStarColFixedIndex p = obCol p) orderBy /\
    (useWeightStr = false -> Forall (fun p => obWeightStringCol p = -1) orderBy) /\
    sameButTruncation hp hp'.
Proof.
  unfold createMemorySortPlan. intros H.
  destruct (createMemorySortPlan_loop L hp ctx plan orderExprs useWeightStr _)
    as [[[p1 ob] hp1]| | |] eqn:E; try discriminate.
  simpl in H. injection H as <- <-.
  destruct (createMemorySortPlan_loop_result _ _ _ _ _ _ _ _ _ _ E)
    as (S1 & F1 & news & -> & Hl & Hs & Hw).
  exists p1, news. split; [reflexivity|]. split; [exact S1|]. split; [exact Hl|].
  split; [exact Hs|]. split; [exact Hw|exact F1].
Qed.

Lemma createMemorySortPlan_frame (L : Lib) hp ctx plan orderExprs useWeightStr plan' hp' :
  createMemorySortPlan L hp ctx plan orderExprs useWeightStr = OK (plan', hp') ->
  sameButTruncation hp hp'.
Proof.
  unfold createMemorySortPlan. intros H.
  destruct (createMemorySortPlan_loop L hp ctx plan orderExprs useWeightStr _)
    as [[[p1 ob] hp1]| | |] eqn:E; try discriminate.
  simpl in H. injection H as _ <-.
  exact (proj1 (proj2 (createMemorySortPlan_loop_result _ _ _ _ _ _ _ _ _ _ E))).
Qed.

Lemma planOrderBy_frame (L : Lib) ctx plan :
  forall hp orderExprs plan' hp',
    planOrderBy L hp ctx orderExprs plan = OK (plan', hp') -> sameButTruncation hp hp'.
Proof.
  induction plan; intros hp orderExprs plan' hp' H; cbn [planOrderBy] in H; try discriminate.
  - (* route *)
    destruct (hp_qp hp); try discriminate. cbn -[planOrderByForRoute] in H.
    destruct (planOrderByForRoute L _ _ _ _) as [[np t]| | |]; try discriminate.
    simpl in H. injection H as _ <-. apply sameButTruncation_haveToTruncate.
  - (* join *)
    destruct (onlySpecialOrderBy orderExprs).
    + destruct (planOrderBy L hp ctx orderExprs plan1) as [[l1 hp1]| | |] eqn:E1; try discriminate.
      cbn -[planOrderBy] in H.
      destruct (planOrderBy L hp1 ctx orderExprs plan2) as [[r1 hp2]| | |] eqn:E2; try discriminate.
      simpl in H. injection H as _ <-.
      exact (sameButTruncation_trans _ _ _ (IHplan1 _ _ _ _ E1) (IHplan2 _ _ _ _ E2)).
    + destruct (orderExprsDependsOnTableSet L orderExprs _ _).
      * destruct (planOrderBy L hp ctx orderExprs plan1) as [[l1 hp1]| | |] eqn:E1; try discriminate.
        simpl in H. injection H as _ <-. exact (IHplan1 _ _ _ _ E1).
      * exact (createMemorySortPlan_frame _ _ _ _ _ _ _ _ H).
  - (* hash join *)
    destruct (onlySpecialOrderBy orderExprs).
    + destruct (planOrderBy L hp ctx orderExprs plan2) as [[r1 hp1]| | |] eqn:E1; try discriminate.
      simpl in H. injection H as _ <-. exact (IHplan2 _ _ _ _ E1).
    + destruct (orderExprsDependsOnTableSet L orderExprs _ _).
      * destruct (planOrderBy L hp ctx orderExprs plan2) as [[r1 hp1]| | |] eqn:E1; try discriminate.
        simpl in H. injection H as _ <-. exact (IHplan2 _ _ _ _ E1).
      * exact (createMemorySortPlan_frame _ _ _ _ _ _ _ _ H).
  - (* semi join *)
    destruct (planOrderBy L hp ctx orderExprs plan1) as [[l1 hp1]| | |] eqn:E1; try discriminate.
    simpl in H. injection H as _ <-. exact (IHplan1 _ _ _ _ E1).
  - (* ordered aggregate *)
    destruct (existsb _ _).
    + destruct (createMemorySortPlanOnAggregation L _ _ _); try discriminate.
      simpl in H. injection H as _ <-. apply sameButTruncation_refl.
    + destruct (planOrderBy L hp ctx _ plan) as [[i1 hp1]| | |] eqn:E1; try discriminate.
      simpl in H. injection H as _ <-. exact (IHplan _ _ _ _ E1).
  - (* memory sort *)
    injection H as _ <-. apply sameButTruncation_refl.
  - (* simple projection *)
    exact (createMemorySortPlan_frame _ _ _ _ _ _ _ _ H).
  - (* vindex function *)
    exact (createMemorySortPlan_frame _ _ _ _ _ _ _ _ H).
  - (* pullout subquery *)
    destruct (planOrderBy L hp ctx orderExprs plan2) as [[u1 hp1]| | |] eqn:E1; try discriminate.
    simpl in H. injection H as _ <-. exact (IHplan2 _ _ _ _ E1).
  - (* filter *)
    destruct (planOrderBy L hp ctx orderExprs plan) as [[i1 hp1]| | |] eqn:E1; try discriminate.
    simpl in H. injection H as _ <-. exact (IHplan _ _ _ _ E1).
  - (* limit *)
    destruct (planOrderBy L hp ctx orderExprs plan) as [[i1 hp1]| | |] eqn:E1; try discriminate.
    simpl in H. injection H as _ <-. exact (IHplan _ _ _ _ E1).
Qed.

(** X14.  Planning ORDER BY, whatever the plan, leaves the statement, the
    query projection and vtgateGrouping of the driver's record as they were;
    needsTruncation may be set, and is never reset.  The same holds for
    planGroupByUsingOrderBy, which plans the group-by expressions missing
    from ORDER BY through planOrderBy. *)
Theorem planOrderBy_keeps_record (L : Lib) (hp : horizonPlanning) (ctx : planningContext)
    (orderExprs : list OrderByQP) (plan plan' : logicalPlan) (hp' : horizonPlanning) :
  (planOrderBy L hp ctx orderExprs plan = OK (plan', hp') -> sameButTruncation hp hp') /\
  (planGroupByUsingOrderBy L hp ctx plan = OK (plan', hp') -> sameButTruncation hp hp').
Proof.
  split; [apply planOrderBy_frame|].
  unfold planGroupByUsingOrderBy. destruct (hp_qp hp); try discriminate. simpl.
  match goal with |- context [if ?b then _ else _] => destruct b end.
  - apply planOrderBy_frame.
  - intros H. injection H as _ <-. apply sameButTruncation_refl.
Qed.

Lemma planOrderByForRoute_appends_witness :
  exists plan' truncate,
    planOrderByForRoute Example.lib [SampleOrder.ordA]
      (Example.scatter [SelAliased Sample.colA ""]) Example.st false = OK (plan', truncate) /\
    tables plan' = 1%N /\
    exists params,
      rOrderBy (eroute plan') = [] ++ params /\
      Forall2 (routeSortParamFor Example.st) [SampleOrder.ordA] params.
Proof.
  eexists _, _. split; [reflexivity|].
  destruct (planOrderByForRoute_appends Example.lib [SampleOrder.ordA]
              (Example.scatter [SelAliased Sample.colA ""]) Example.st false _ _ eq_refl)
    as (Ht & _ & _ & Hp & _).
  split; [exact Ht|exact Hp].
Defined.

Lemma createMemorySortPlan_result_witness :
  exists plan' hp',
    createMemorySortPlan Example.lib SampleOrder.hpA Example.ctx SampleOrder.projA
      [SampleOrder.ordA] true = OK (plan', hp') /\
    exists inner orderBy,
      plan' = PMemorySort inner (mkEMemorySort orderBy 0) /\
      shape inner = shape SampleOrder.projA /\
      length orderBy = 1%nat /\
      sameButTruncation SampleOrder.hpA hp'.
Proof.
  eexists _, _. split; [reflexivity|].
  destruct (createMemorySortPlan_result Example.lib SampleOrder.hpA Example.ctx
              SampleOrder.projA [SampleOrder.ordA] true _ _ eq_refl)
    as (inner & orderBy & H1 & H2 & H3 & _ & _ & H6).
  exists inner, orderBy. split; [exact H1|]. split; [exact H2|]. split; [exact H3|exact H6].
Defined.

Lemma planOrderBy_keeps_record_witness :
  exists plan' hp',
    planOrderBy Example.lib SampleOrder.hpA Example.ctx [SampleOrder.ordA] SampleOrder.projA
    = OK (plan', hp') /\
    sameButTruncation SampleOrder.hpA hp'.
Proof.
  eexists _, _. split; [reflexivity|].
  exact (proj1 (planOrderBy_keeps_record Example.lib SampleOrder.hpA Example.ctx
                  [SampleOrder.ordA] SampleOrder.projA _ _) eq_refl).
Defined.

(** * Further properties of aggregation, DISTINCT and HAVING *)

Lemma needDistinctHandling_cases (L : Lib) ctx funcExpr opcode input hd ia :
  needDistinctHandling L ctx funcExpr opcode input = OK (hd, ia) ->
  (hd = false /\ ia = None) \/
  (hd = true /\ (opcode = AggregateCount \/ opcode = AggregateSum) /\
   exists name e al rest,
     funcExpr = FuncExpr name true (SelAliased e al :: rest) /\
     ia = Some (mkAliased e al) /\
     (isRoutePlan input = true ->
      exprHasUniqueVindex L (vschema ctx) (semTable ctx) e = false)).
Proof.
  unfold needDistinctHandling. intros H.
  destruct funcExpr as [| name fd fexprs | | | | | |]; try discriminate.
  destruct fd; simpl in H; [|injection H as <- <-; left; split; reflexivity].
  destruct (bool_decide (opcode = AggregateCount)) eqn:Hc;
    [|destruct (bool_decide (opcode = AggregateSum)) eqn:Hs];
    simpl in H; try (injection H as <- <-; left; split; reflexivity).
  - apply bool_decide_eq_true in Hc.
    destruct fexprs as [|[e al| |] rest]; try discriminate.
    destruct (isRoutePlan input) eqn:Hr; simpl in H.
    + destruct (exprHasUniqueVindex L _ _ e) eqn:Hu; injection H as <- <-.
      * left. split; reflexivity.
      * right. split; [reflexivity|]. split; [left; exact Hc|].
        exists name, e, al, rest. split; [reflexivity|]. split; [reflexivity|]. intros _. exact Hu.
    + injection H as <- <-. right. split; [reflexivity|]. split; [left; exact Hc|].
      exists name, e, al, rest. split; [reflexivity|]. split; [reflexivity|]. discriminate.
  - apply bool_decide_eq_true in Hs.
    destruct fexprs as [|[e al| |] rest]; try discriminate.
    destruct (isRoutePlan input) eqn:Hr; simpl in H.
    + destruct (exprHasUniqueVindex L _ _ e) eqn:Hu; injection H as <- <-.
      * left. split; reflexivity.
      * right. split; [reflexivity|]. split; [right; exact Hs|].
        exists name, e, al, rest. split; [reflexivity|]. split; [reflexivity|]. intros _. exact Hu.
    + injection H as <- <-. right. split; [reflexivity|]. split; [right; exact Hs|].
      exists name, e, al, rest. split; [reflexivity|]. split; [reflexivity|]. discriminate.
Qed.

(** X15.  needDistinctHandling asks for distinct handling only for a DISTINCT
    aggregate with opcode count or sum whose first argument is an aliased
    expression, which it then hands over; on a route it does so only when
    that argument has no unique vindex.  When it does not ask for distinct
    handling it hands no expression over. *)
Theorem needDistinctHandling_requested (L : Lib) (ctx : planningContext) (funcExpr : Expr)
    (opcode : AggregateOpcode) (input : logicalPlan) (hd : bool) (ia : option AliasedExpr) :
  needDistinctHandling L ctx funcExpr opcode input = OK (hd, ia) ->
  (hd = false /\ ia = None) \/
  (hd = true /\ (opcode = AggregateCount \/ opcode = AggregateSum) /\
   exists name e al rest,
     funcExpr = FuncExpr name true (SelAliased e al :: rest) /\
     ia = Some (mkAliased e al) /\
     (isRoutePlan input = true ->
      exprHasUniqueVindex L (vschema ctx) (semTable ctx) e = false)).
Proof. apply needDistinctHandling_cases. Qed.

Lemma needDistinctHandling_requested_witness :
  (true = false /\ Some (mkAliased (Example.col "d") "") = None) \/
  (true = true /\ (AggregateCount = AggregateCount \/ AggregateCount = AggregateSum) /\
   exists name e al rest,
     SampleDistinct.countD = FuncExpr name true (SelAliased e al :: rest) /\
     Some (mkAliased (Example.col "d") "") = Some (mkAliased e al) /\
     (isRoutePlan Sample.leftEmpty = true ->
      exprHasUniqueVindex Example.lib (vschema Example.ctx) (semTable Example.ctx) e = false)).
Proof.
  exact (needDistinctHandling_requested Example.lib Example.ctx SampleDistinct.countD
           AggregateCount Sample.leftEmpty true (Some (mkAliased (Example.col "d") "")) eq_refl).
Defined.

Lemma pointsAtDistinctAggregate_app ea ea' news g :
  Aggregates ea' = Aggregates ea ++ news ->
  pointsAtDistinctAggregate ea g -> pointsAtDistinctAggregate ea' g.
Proof.
  intros Ha [H0|(a & H1 & Hl & Ho)]; [left; exact H0|].
  right. exists a. split; [exact H1|]. split; [|exact Ho].
  rewrite Ha. apply lookup_app_l_Some. exact Hl.
Qed.

Lemma planAggregations_select_distinct_index (L : Lib) ctx e plan ea hp q plan' oa' hp' :
  planAggregations_select L ctx e (plan, Some ea, hp) = OK (plan', oa', hp') ->
  qp hp = Some q ->
  distinctIndexesValid q ea ->
  exists ea' q',
    oa' = Some ea' /\ qp hp' = Some q' /\ distinctIndexesValid q' ea'.
Proof.
  unfold planAggregations_select. intros H Hq Hinv.
  destruct (GetAliasedExpr L e) as [ae| | |] eqn:Hae; try discriminate.
  cbn -[pushProjection needDistinctHandling createPushExprAndAlias] in H.
  destruct (negb (Aggr e)); cbn -[pushProjection needDistinctHandling createPushExprAndAlias] in H.
  { destruct (pushProjection L ae plan _ true false false) as [[[o a] p1]| | |]; try discriminate.
    simpl in H. injection H as _ <- <-. exists ea, q. tauto. }
  destruct (aExpr ae) as [| fName fd fexprs | | | | | |] eqn:Hfe; try discriminate.
  destruct (SupportedAggregates L _) as [opcode|]; try discriminate.
  destruct (needDistinctHandling L ctx _ opcode plan) as [[hd ia]| | |] eqn:Hn; try discriminate.
  cbn -[pushProjection createPushExprAndAlias] in H.
  unfold GetAliasedExpr in Hae. unfold createPushExprAndAlias in H.
  destruct (Col e) as [ex al| |]; try discriminate. injection Hae as <-. simpl in Hfe.
  destruct (needDistinctHandling_cases _ _ _ _ _ _ _ Hn)
    as [[-> ->]|(-> & Hop & name & ie & ial & rest & Hf & -> & _)].
  - cbn -[pushProjection] in H.
    destruct (pushProjection L _ plan _ true false true) as [[[o a] p1]| | |]; try discriminate.
    simpl in H. injection H as _ <- <-. eexists _, q. split; [reflexivity|]. split; [exact Hq|].
    unfold distinctIndexesValid in *. eapply Forall_impl; [exact Hinv|].
    intros g Hg. refine (pointsAtDistinctAggregate_app ea _ _ g _ Hg). reflexivity.
  - injection Hf as -> -> ->.
    unfold hp_qp, haveToTruncate, hp_setNeedsTruncation in H. simpl in H. rewrite Hq in H.
    cbn -[pushProjection] in H.
    destruct (pushProjection L _ plan _ true false true) as [[[o a] p1]| | |]; try discriminate.
    simpl in H. injection H as _ <- <-. eexists _, _. split; [reflexivity|].
    split; [reflexivity|]. unfold distinctIndexesValid. simpl.
    apply Forall_app. split.
    + eapply Forall_impl; [exact Hinv|].
      intros g Hg. refine (pointsAtDistinctAggregate_app ea _ _ g _ Hg). reflexivity.
    + constructor; [|constructor]. right. simpl.
      eexists. split; [unfold len; lia|]. split.
      * replace (Z.to_nat (len (Aggregates ea) + 1 - 1)) with (length (Aggregates ea) + 0)%nat
          by (unfold len; lia).
        rewrite lookup_app_r by lia.
        replace (length (Aggregates ea) + 0 - length (Aggregates ea))%nat with 0%nat by lia.
        reflexivity.
      * simpl. destruct Hop as [-> | ->]; [left|right]; reflexivity.
Qed.

Lemma planAggregations_selectLoop_distinct_index (L : Lib) ctx es :
  forall plan ea hp q plan' oa' hp',
    planAggregations_selectLoop L ctx es (plan, Some ea, hp) = OK (plan', oa', hp') ->
    qp hp = Some q ->
    distinctIndexesValid q ea ->
    exists ea' q',
      oa' = Some ea' /\ qp hp' = Some q' /\ distinctIndexesValid q' ea'.
Proof.
  induction es as [|e es IH]; intros plan ea hp q plan' oa' hp' H Hq Hinv;
    cbn [planAggregations_selectLoop] in H.
  - injection H as _ <- <-. exists ea, q. tauto.
  - destruct (planAggregations_select L ctx e (plan, Some ea, hp)) as [[[p1 oa1] hp1]| | |] eqn:Hs;
      try discriminate.
    cbn -[planAggregations_selectLoop] in H.
    destruct (planAggregations_select_distinct_index _ _ _ _ _ _ _ _ _ _ Hs Hq Hinv)
      as (ea1 & q1 & -> & Hq1 & Hinv1).
    exact (IH _ _ _ _ _ _ _ H Hq1 Hinv1).
Qed.

(** X16.  On the ordered-aggregate path the loop of planAggregations over the
    select expressions keeps the distinct-aggr-indexes valid: when every
    group-by expression of the query projection either has index 0 or points
    (counted from one) at a recorded aggregate with opcode count distinct or
    sum distinct, then so does every group-by expression after the loop, the
    synthetic ones it appended included; and for such a group-by expression
    the write of the weight-string column into Aggregates[index-1] that
    planGroupByGen4 makes is in range. *)
Theorem planAggregations_distinct_index_valid (L : Lib) (ctx : planningContext)
    (es : list SelectExprQP) (plan : logicalPlan) (ea : engine_OrderedAggregate)
    (hp : horizonPlanning) (q : QueryProjection)
    (plan' : logicalPlan) (oa' : option engine_OrderedAggregate) (hp' : horizonPlanning) :
  planAggregations_selectLoop L ctx es (plan, Some ea, hp) = OK (plan', oa', hp') ->
  qp hp = Some q ->
  distinctIndexesValid q ea ->
  exists ea' q',
    oa' = Some ea' /\ qp hp' = Some q' /\ distinctIndexesValid q' ea' /\
    forall g wsOffset,
      In g (GroupByExprs q') -> DistinctAggrIndex g <> 0 ->
      exists aggrs,
        setAggregateWCol (Aggregates ea') (DistinctAggrIndex g - 1) wsOffset = OK aggrs /\
        length aggrs = length (Aggregates ea').
Proof.
  intros H Hq Hinv.
  destruct (planAggregations_selectLoop_distinct_index _ _ _ _ _ _ _ _ _ _ H Hq Hinv)
    as (ea' & q' & -> & Hq' & Hinv').
  exists ea', q'. split; [reflexivity|]. split; [exact Hq'|]. split; [exact Hinv'|].
  intros g wsOffset Hg Hne. unfold distinctIndexesValid in Hinv'.
  rewrite Forall_forall in Hinv'.
  destruct (Hinv' g (proj2 (list_elem_of_In _ _) Hg))
    as [H0|(a & H1 & Hl & _)]; [contradiction|].
  unfold setAggregateWCol. destruct (Z.ltb_spec (DistinctAggrIndex g - 1) 0); [lia|].
  rewrite Hl. eexists. split; [reflexivity|]. apply length_insert.
Qed.

Lemma planAggregations_distinct_index_valid_witness :
  exists plan' oa' hp',
    planAggregations_selectLoop Example.lib Example.ctx [SampleDistinct.item]
      (Sample.leftEmpty, Some empty_OrderedAggregate, SampleDistinct.hp0) = OK (plan', oa', hp') /\
    exists ea' q',
      oa' = Some ea' /\ qp hp' = Some q' /\ distinctIndexesValid q' ea' /\
      forall g wsOffset,
        In g (GroupByExprs q') -> DistinctAggrIndex g <> 0 ->
        exists aggrs,
          setAggregateWCol (Aggregates ea') (DistinctAggrIndex g - 1) wsOffset = OK aggrs /\
          length aggrs = length (Aggregates ea').
Proof.
  eexists _, _, _. split; [reflexivity|].
  refine (planAggregations_distinct_index_valid Example.lib Example.ctx [SampleDistinct.item]
            Sample.leftEmpty empty_OrderedAggregate SampleDistinct.hp0 SampleDistinct.qp0
            _ _ _ eq_refl eq_refl _).
  constructor.
Defined.

Lemma planDistinctOA_key_sound st curr expr al sExpr key :
  Col sExpr = SelAliased expr al ->
  planDistinctOA_key st curr expr = Some key ->
  distinctKeyFor st curr sExpr key.
Proof.
  intros Hc. unfold planDistinctOA_key.
  destruct (List.find _ (GroupByKeys curr)) as [g|] eqn:Eg.
  - intros H. injection H as <-. destruct (find_some _ _ Eg) as [Hin Heq].
    exists expr, al. split; [exact Hc|]. left. split; assumption.
  - destruct (List.find _ (Aggregates curr)) as [a|] eqn:Ea; [|discriminate].
    intros H. injection H as <-. destruct (find_some _ _ Ea) as [Hin Heq].
    exists expr, al. split; [exact Hc|]. right. split.
    + apply List.Forall_forall. intros k Hk.
      pose proof (find_none _ _ Eg k Hk) as Hn. exact Hn.
    + exists a. split; [exact Hin|]. split; [exact Heq|reflexivity].
Qed.

Lemma planDistinctOA_loop_keys (L : Lib) st curr sExprs :
  forall acc keys,
    planDistinctOA_loop L st curr sExprs acc = OK keys ->
    exists news, keys = acc ++ news /\ Forall2 (distinctKeyFor st curr) sExprs news.
Proof.
  induction sExprs as [|s rest IH]; intros acc keys H; cbn [planDistinctOA_loop] in H.
  - injection H as <-. exists []. rewrite app_nil_r. split; [reflexivity|constructor].
  - unfold GetExpr in H. destruct (Col s) as [ex al| |] eqn:Hc; try discriminate.
    cbn -[planDistinctOA_loop planDistinctOA_key] in H.
    destruct (planDistinctOA_key st curr ex) as [key|] eqn:Hk; [|discriminate].
    destruct (IH _ _ H) as (news & -> & HF).
    exists (key :: news). rewrite <- app_assoc. split; [reflexivity|].
    constructor; [|exact HF]. exact (planDistinctOA_key_sound _ _ _ _ _ _ Hc Hk).
Qed.

(** X17.  A successful planDistinctOA puts a new ordered aggregate without
    aggregates above the current one, which it leaves untouched.  The new one
    has one group key per select expression of the query projection, in
    order: a group key of the current ordered aggregate whose expression
    equals the select expression, or, when there is none, a key on the column
    of an aggregate of the current one with that expression, with
    WeightStringCol = -1. *)
Theorem planDistinctOA_keys (L : Lib) (hp : horizonPlanning) (st : SemTable)
    (input : logicalPlan) (curr : engine_OrderedAggregate) (q : QueryProjection)
    (plan' : logicalPlan) :
  qp hp = Some q ->
  planDistinctOA L hp st input curr = OK plan' ->
  exists keys,
    plan' = POrderedAggregate (POrderedAggregate input curr) (mkEAggr false [] keys 0) /\
    Forall2 (distinctKeyFor st curr) (qSelectExprs q) keys.
Proof.
  unfold planDistinctOA, hp_qp. intros -> H. cbn -[planDistinctOA_loop] in H.
  destruct (planDistinctOA_loop L st curr (qSelectExprs q) []) as [keys| | |] eqn:E;
    try discriminate.
  simpl in H. injection H as <-.
  destruct (planDistinctOA_loop_keys _ _ _ _ _ _ E) as (news & -> & HF).
  exists news. split; [reflexivity|exact HF].
Qed.

Lemma selectHasUniqueVindex_spec (L : Lib) vs st sel :
  selectHasUniqueVindex L vs st sel = true <->
  exists pre e ex al post,
    sel = pre ++ e :: post /\ Forall (noUniqueVindex L vs st) pre /\
    Col e = SelAliased ex al /\ exprHasUniqueVindex L vs st ex = true.
Proof.
  induction sel as [|x sel IH]; cbn [selectHasUniqueVindex].
  - split; [discriminate|]. intros (pre & e0 & ex0 & al0 & post & H & _).
    destruct pre; discriminate.
  - unfold GetExpr. destruct (Col x) as [ex al| |] eqn:Hc.
    + destruct (exprHasUniqueVindex L vs st ex) eqn:Hu.
      * split; [|reflexivity]. intros _. exists [], x, ex, al, sel.
        split; [reflexivity|]. split; [constructor|]. split; assumption.
      * rewrite IH. split.
        -- intros (pre & e0 & ex' & al' & post & -> & Hpre & He & Hu').
           exists (x :: pre), e0, ex', al', post. split; [reflexivity|].
           split; [constructor; [exists ex, al; split; assumption|exact Hpre]|].
           split; assumption.
        -- intros (pre & e0 & ex' & al' & post & Hs & Hpre & He & Hu').
           destruct pre as [|y pre]; simpl in Hs; injection Hs as -> ->.
           ++ rewrite Hc in He. injection He as -> _. rewrite Hu in Hu'. discriminate.
           ++ exists pre, e0, ex', al', post. split; [reflexivity|].
              inversion Hpre; subst. split; [assumption|]. split; assumption.
    + split; [discriminate|]. intros (pre & e0 & ex' & al' & post & Hs & Hpre & He & Hu').
      destruct pre as [|y pre]; simpl in Hs; injection Hs as -> ->.
      * rewrite Hc in He. discriminate.
      * inversion Hpre as [|? ? (ex1 & al1 & Hx & _) _]; subst. rewrite Hc in Hx. discriminate.
    + split; [discriminate|]. intros (pre & e0 & ex' & al' & post & Hs & Hpre & He & Hu').
      destruct pre as [|y pre]; simpl in Hs; injection Hs as -> ->.
      * rewrite Hc in He. discriminate.
      * inversion Hpre as [|? ? (ex1 & al1 & Hx & _) _]; subst. rewrite Hc in Hx. discriminate.
Qed.

(** X18.  selectHasUniqueVindex is true exactly when some select expression
    is an aliased expression with a unique vindex and every select expression
    before it is an aliased expression without one: a select expression that
    is no aliased expression (a star) ends the search, so that a unique
    vindex after it is not seen. *)
Theorem selectHasUniqueVindex_iff (L : Lib) (vs : ContextVSchema) (st : SemTable)
    (sel : list SelectExprQP) :
  selectHasUniqueVindex L vs st sel = true <->
  exists pre e ex al post,
    sel = pre ++ e :: post /\ Forall (noUniqueVindex L vs st) pre /\
    Col e = SelAliased ex al /\ exprHasUniqueVindex L vs st ex = true.
Proof. apply selectHasUniqueVindex_spec. Qed.

Lemma selectHasUniqueVindex_iff_witness :
  selectHasUniqueVindex Example.lib (vschema Example.ctx) Example.st
    [mkSelectExprQP (SelAliased Sample.colA "") false;
     mkSelectExprQP (SelAliased (Example.col "id") "") false] = true.
Proof.
  apply (proj2 (selectHasUniqueVindex_iff Example.lib (vschema Example.ctx) Example.st _)).
  exists [mkSelectExprQP (SelAliased Sample.colA "") false],
         (mkSelectExprQP (SelAliased (Example.col "id") "") false), (Example.col "id"), "", [].
  split; [reflexivity|]. split.
  - constructor; [|constructor]. exists Sample.colA, "". split; reflexivity.
  - split; reflexivity.
Defined.

Lemma pushHaving_cases (L : Lib) expr st plan :
  forall mutated ret,
    pushHaving L expr plan st = OK (mutated, ret) ->
    shape mutated = shape plan /\
    ((exists node,
        underPullouts plan = PRoute node /\
        ret = PRoute (route_setSelect node
                        (SetFirstSelect (rSelect node)
                           (AddHaving (GetFirstSelect (rSelect node)) expr))) /\
        underPullouts mutated = ret) \/
     (exists input eaggr,
        underPullouts plan = POrderedAggregate input eaggr /\
        mutated = plan /\
        newFilter L st (POrderedAggregate input eaggr) expr = OK ret)).
Proof.
  induction plan; intros mutated ret H; cbn [pushHaving] in H; try discriminate.
  - injection H as <- <-. split; [reflexivity|]. left. exists node.
    split; [reflexivity|]. split; reflexivity.
  - destruct (newFilter L st _ expr) as [r| | |] eqn:E; try discriminate.
    simpl in H. injection H as <- <-. split; [reflexivity|]. right.
    exists plan, eaggr. split; [reflexivity|]. split; [reflexivity|exact E].
  - destruct (pushHaving L expr plan2 st) as [[u r]| | |] eqn:E; try discriminate.
    simpl in H. injection H as <- <-.
    destruct (IHplan2 _ _ eq_refl) as [S1 [(node & Hu & Hr & Hm)|(i & ea & Hu & Hm & Hf)]].
    + split; [simpl; rewrite S1; reflexivity|]. left. exists node. simpl. tauto.
    + split; [simpl; rewrite S1; reflexivity|]. right. exists i, ea. simpl.
      split; [exact Hu|]. split; [rewrite Hm; reflexivity|exact Hf].
Qed.

(** X19.  A successful pushHaving keeps the operators of the plan and reaches
    through the pullout subqueries at its root.  Under them it finds a route,
    whose first SELECT receives the predicate: the plan returned is then that
    route, without the pullout subqueries above it.  Or it finds an ordered
    aggregate: the plan is left as it is and what newFilter builds over that
    ordered aggregate is returned. *)
Theorem pushHaving_reaches_under_pullouts (L : Lib) (expr : Expr) (st : SemTable)
    (plan mutated ret : logicalPlan) :
  pushHaving L expr plan st = OK (mutated, ret) ->
  shape mutated = shape plan /\
  ((exists node,
      underPullouts plan = PRoute node /\
      ret = PRoute (route_setSelect node
                      (SetFirstSelect (rSelect node)
                         (AddHaving (GetFirstSelect (rSelect node)) expr))) /\
      underPullouts mutated = ret) \/
   (exists input eaggr,
      underPullouts plan = POrderedAggregate input eaggr /\
      mutated = plan /\
      newFilter L st (POrderedAggregate input eaggr) expr = OK ret)).
Proof. apply pushHaving_cases. Qed.

Lemma pushHaving_reaches_under_pullouts_witness :
  exists mutated ret,
    pushHaving Example.lib Sample.colA (PPulloutSubquery Sample.rightEmpty Sample.leftA) Example.st
    = OK (mutated, ret) /\
    shape mutated = shape (PPulloutSubquery Sample.rightEmpty Sample.leftA) /\
    exists node, ret = PRoute node /\ underPullouts mutated = ret.
Proof.
  eexists _, _. split; [reflexivity|].
  destruct (pushHaving_reaches_under_pullouts Example.lib Sample.colA Example.st
              (PPulloutSubquery Sample.rightEmpty Sample.leftA) _ _ eq_refl)
    as [S1 [(node & _ & Hr & Hm)|(i & ea & Hu & _)]].
  - split; [exact S1|]. eexists. split; [exact Hr|exact Hm].
  - discriminate Hu.
Defined.

Lemma planDistinctOA_keys_witness :
  exists keys,
    POrderedAggregate (POrderedAggregate Sample.leftA SampleGroup.curr)
      (mkEAggr false [] [SampleGroup.keyA] 0)
    = POrderedAggregate (POrderedAggregate Sample.leftA SampleGroup.curr)
        (mkEAggr false [] keys 0) /\
    Forall2 (distinctKeyFor Example.st SampleGroup.curr) (qSelectExprs SampleGroup.qpG) keys.
Proof.
  exact (planDistinctOA_keys Example.lib SampleGroup.hpG Example.st Sample.leftA
           SampleGroup.curr SampleGroup.qpG _ eq_refl eq_refl).
Defined.

(** * Further properties of grouping and of the driver *)

Lemma planGroupByGen4_shape (L : Lib) ge p st w a p' :
  planGroupByGen4 L ge p st w = OK (a, p') -> shape p' = shape p.
Proof.
  unfold planGroupByGen4.
  apply (planGroupByGen4_rec_sound L (S (depth p)) (S (depth p)) (S (depth p))); lia.
Qed.

(** X20.  A successful planGroupByGen4 keeps the operators of the plan.  On
    an ordered aggregate it keeps the number of aggregates and PreProcess; an
    ordinary group-by expression (distinct-aggr-index 0) appends exactly one
    group key, which carries the weight-string expression, while the group-by
    expression of a distinct aggregate appends none. *)
Theorem planGroupByGen4_keeps_operators (L : Lib) (groupExpr : GroupByQP) (plan : logicalPlan)
    (st : SemTable) (wsAdded added : bool) (plan' : logicalPlan) :
  planGroupByGen4 L groupExpr plan st wsAdded = OK (added, plan') ->
  shape plan' = shape plan /\
  forall input eaggr,
    plan = POrderedAggregate input eaggr ->
    exists input' eaggr',
      plan' = POrderedAggregate input' eaggr' /\
      length (Aggregates eaggr') = length (Aggregates eaggr) /\
      PreProcess eaggr' = PreProcess eaggr /\
      (DistinctAggrIndex groupExpr = 0 ->
       exists key,
         GroupByKeys eaggr' = GroupByKeys eaggr ++ [key] /\
         gbExpr key = Some (gWeightStrExpr groupExpr)) /\
      (DistinctAggrIndex groupExpr <> 0 -> GroupByKeys eaggr' = GroupByKeys eaggr).
Proof.
  intros H. split; [exact (planGroupByGen4_shape _ _ _ _ _ _ _ H)|].
  intros input eaggr ->. rewrite planGroupByGen4_unfold in H. unfold planGroupByGen4_body in H.
  destruct (wrapAndPushExpr L _ _ input st) as [[[[k w] c] i1]| | |]; try discriminate.
  cbn -[planGroupByGen4 setAggregateWCol] in H.
  destruct (Z.eqb_spec (DistinctAggrIndex groupExpr) 0) as [H0|H0].
  - cbn -[planGroupByGen4] in H.
    destruct (planGroupByGen4 L groupExpr i1 st _) as [[c2 i2]| | |]; try discriminate.
    simpl in H. injection H as _ <-. eexists _, _. split; [reflexivity|]. simpl.
    split; [reflexivity|]. split; [reflexivity|]. split; [|intros Hn; contradiction].
    intros _. eexists. split; reflexivity.
  - destruct (negb (w =? -1)).
    + unfold setAggregateWCol in H.
      destruct (DistinctAggrIndex groupExpr - 1 <? 0); try discriminate.
      destruct (Aggregates eaggr !! _) as [ag|]; try discriminate.
      cbn -[planGroupByGen4] in H.
      destruct (planGroupByGen4 L groupExpr i1 st _) as [[c2 i2]| | |]; try discriminate.
      simpl in H. injection H as _ <-. eexists _, _. split; [reflexivity|]. simpl.
      split; [apply length_insert|]. split; [reflexivity|].
      split; [intros Hn; contradiction|reflexivity].
    + cbn -[planGroupByGen4] in H.
      destruct (planGroupByGen4 L groupExpr i1 st _) as [[c2 i2]| | |]; try discriminate.
      simpl in H. injection H as _ <-. eexists _, _. split; [reflexivity|].
      split; [reflexivity|]. split; [reflexivity|].
      split; [intros Hn; contradiction|reflexivity].
Qed.

Lemma planGroupByGen4_keeps_operators_witness :
  exists added plan',
    planGroupByGen4 Example.lib SampleGroup.groupA
      (POrderedAggregate Sample.leftA empty_OrderedAggregate) Example.st false
    = OK (added, plan') /\
    shape plan' = shape (POrderedAggregate Sample.leftA empty_OrderedAggregate).
Proof.
  eexists _, _. split; [reflexivity|].
  exact (proj1 (planGroupByGen4_keeps_operators Example.lib SampleGroup.groupA
                  (POrderedAggregate Sample.leftA empty_OrderedAggregate) Example.st false
                  _ _ eq_refl)).
Defined.

Lemma pushProjections_route_items (L : Lib) ctx es :
  forall r sel plan',
    rSelect r = StmtSelect sel ->
    pushProjections L ctx (PRoute r) es = OK plan' ->
    exists news,
      plan' = PRoute (route_setSelect r
                        (StmtSelect (Select_setSelectExprs sel (SelectExprs sel ++ news)))) /\
      Forall2 pushedItemFor es news.
Proof.
  induction es as [|e es IH]; intros r sel plan' Hsel H; cbn [pushProjections] in H.
  - injection H as <-. exists []. split; [|constructor].
    rewrite app_nil_r. destruct r as [s t er]. simpl in Hsel. subst s.
    destruct sel. reflexivity.
  - unfold GetAliasedExpr in H. destruct (Col e) as [ex al| |] eqn:Hc; try discriminate.
    cbn -[pushProjections pushProjection] in H.
    destruct (pushProjection L _ (PRoute r) _ true false false) as [[[o a] p1]| | |] eqn:Ep;
      try discriminate.
    cbn -[pushProjections] in H.
    destruct (pushProjection_route_cases _ _ _ _ _ _ _ _ _ _ Ep)
      as (r1 & -> & He & Ht & [(_ & Hr & _)|(_ & _ & sel0 & e2 & Hs0 & Hs1)]); [discriminate|].
    rewrite Hsel in Hs0. injection Hs0 as <-. simpl in Hs1.
    destruct (IH _ _ _ Hs1 H) as (news & -> & HF).
    exists (SelAliased e2 al :: news). split.
    + destruct r as [s t er], r1 as [s1 t1 er1]. simpl in *. subst.
      unfold route_setSelect, Select_setSelectExprs. simpl. rewrite <- app_assoc. reflexivity.
    + constructor; [|exact HF]. exists ex, al, e2. split; [exact Hc|reflexivity].
Qed.

(** X21.  pushProjections onto a route whose statement is a plain SELECT
    appends exactly one select expression per select item, in the order of
    the items and under the alias of each, and changes nothing else of the
    route: the item at position i of the list is found at offset
    (former length + i) of the select list. *)
Theorem pushProjections_route_appends (L : Lib) (ctx : planningContext) (r : routeGen4)
    (sel : Select) (es : list SelectExprQP) (plan' : logicalPlan) :
  rSelect r = StmtSelect sel ->
  pushProjections L ctx (PRoute r) es = OK plan' ->
  exists news,
    plan' = PRoute (route_setSelect r
                      (StmtSelect (Select_setSelectExprs sel (SelectExprs sel ++ news)))) /\
    Forall2 pushedItemFor es news.
Proof. apply pushProjections_route_items. Qed.

Lemma pushProjections_route_appends_witness :
  exists news,
    Sample.leftBA
    = PRoute (route_setSelect (Example.scatter [SelAliased Sample.colB ""])
                (StmtSelect (Select_setSelectExprs (Example.selectOf [SelAliased Sample.colB ""])
                               ([SelAliased Sample.colB ""] ++ news)))) /\
    Forall2 pushedItemFor [mkSelectExprQP (SelAliased Sample.colA "") false] news.
Proof.
  exact (pushProjections_route_appends Example.lib Example.ctx
           (Example.scatter [SelAliased Sample.colB ""])
           (Example.selectOf [SelAliased Sample.colB ""])
           [mkSelectExprQP (SelAliased Sample.colA "") false] Sample.leftBA eq_refl eq_refl).
Defined.

(** X22.  planGroupByUsingOrderBy plans nothing when every group-by
    expression already has an equal ORDER BY expression: the plan and the
    driver's record are returned as they are. *)
Theorem planGroupByUsingOrderBy_noop (L : Lib) (hp : horizonPlanning) (ctx : planningContext)
    (plan : logicalPlan) (q : QueryProjection) :
  qp hp = Some q ->
  groupBysOrdered q ->
  planGroupByUsingOrderBy L hp ctx plan = OK (plan, hp).
Proof.
  unfold planGroupByUsingOrderBy, hp_qp, groupBysOrdered. intros -> H. cbn -[planOrderBy].
  assert (E : flat_map
                (fun groupExpr =>
                   if existsb (fun orderExpr =>
                                 EqualsExpr (gInner groupExpr) (oExpr (Inner orderExpr)))
                              (OrderExprs q)
                   then []
                   else [mkOrderBy (mkOrder (gInner groupExpr) AscOrder)
                                   (gWeightStrExpr groupExpr)])
                (GroupByExprs q) = []).
  { induction H as [|g gs (o & Hin & Heq) _ IH]; [reflexivity|]. simpl.
    assert (Hex : existsb (fun orderExpr => EqualsExpr (gInner g) (oExpr (Inner orderExpr)))
                          (OrderExprs q) = true).
    { apply existsb_exists. exists o. split; assumption. }
    rewrite Hex. exact IH. }
  rewrite E. reflexivity.
Qed.

Lemma planGroupByUsingOrderBy_noop_witness :
  planGroupByUsingOrderBy Example.lib SampleGroup.hpG Example.ctx Sample.leftA
  = OK (Sample.leftA, SampleGroup.hpG).
Proof.
  apply (planGroupByUsingOrderBy_noop Example.lib SampleGroup.hpG Example.ctx Sample.leftA
           SampleGroup.qpG eq_refl).
  constructor; [|constructor]. exists SampleOrder.ordA. split; [left; reflexivity|reflexivity].
Defined.

Lemma planAggregations_selectLoop_route (L : Lib) ctx es :
  forall r hp p1 oa1 hp1,
    planAggregations_selectLoop L ctx es (PRoute r, None, hp) = OK (p1, oa1, hp1) ->
    exists r1, p1 = PRoute r1 /\ eroute r1 = eroute r /\ tables r1 = tables r /\
               oa1 = None /\ hp1 = hp.
Proof.
  induction es as [|e es IH]; intros r hp p1 oa1 hp1 H; cbn [planAggregations_selectLoop] in H.
  - injection H as <- <- <-. exists r. repeat split.
  - unfold planAggregations_select in H.
    destruct (GetAliasedExpr L e) as [ae| | |]; try discriminate.
    cbn -[pushProjection planAggregations_selectLoop] in H.
    replace (if negb (Aggr e) then None else None) with (@None engine_OrderedAggregate) in H
      by (destruct (negb (Aggr e)); reflexivity).
    destruct (pushProjection L ae (PRoute r) _ true false false) as [[[o a] p]| | |] eqn:Ep;
      try discriminate.
    cbn -[planAggregations_selectLoop] in H.
    destruct (pushProjection_route_frame _ _ _ _ _ _ _ _ _ _ Ep) as (r0 & -> & He0 & Ht0 & _).
    destruct (IH _ _ _ _ _ H) as (r1 & -> & He1 & Ht1 & -> & ->).
    exists r1. split; [reflexivity|]. split; [congruence|]. split; [congruence|].
    split; reflexivity.
Qed.

Lemma planAggregations_groupLoop_route (L : Lib) ctx gs :
  forall r hp p2 oa2 hp2,
    planAggregations_groupLoop L ctx gs (PRoute r, None, hp) = OK (p2, oa2, hp2) ->
    exists r2, p2 = PRoute r2 /\ eroute r2 = eroute r /\ tables r2 = tables r /\
               oa2 = None /\ sameRecord hp hp2.
Proof.
  induction gs as [|g gs IH]; intros r hp p2 oa2 hp2 H; cbn [planAggregations_groupLoop] in H.
  - injection H as <- <- <-. exists r. repeat split.
  - cbn [newPlanOf] in H. rewrite planGroupByGen4_unfold in H.
    unfold planGroupByGen4_body in H.
    destruct (rSelect r) as [sel0|]; try discriminate.
    cbn -[planAggregations_groupLoop] in H.
    destruct (IH _ _ _ _ _ H) as (r2 & -> & He & Ht & -> & (H1 & H2 & H3 & H4)).
    exists r2. split; [reflexivity|]. split; [exact He|]. split; [exact Ht|].
    split; [reflexivity|]. unfold haveToTruncate, hp_setNeedsTruncation in *. simpl in *.
    repeat split; try assumption. rewrite H3. apply orb_false_r.
Qed.

(** X23.  Aggregation over a route that is grouped on a unique vindex is
    pushed into the route: when planAggregations succeeds the plan is still
    that route, with the engine primitive and the tables it had, no ordered
    aggregate is built, vtgateGrouping is not set and needsTruncation is as
    it was.  The query projection may carry a projection error: that error
    is raised only where the ordered aggregate is built, and the example
    below plans a query projection that carries one. *)
Theorem planAggregations_route_unique_vindex (L : Lib) (hp : horizonPlanning)
    (ctx : planningContext) (r : routeGen4) (q : QueryProjection)
    (planOut : logicalPlan) (hp' : horizonPlanning) :
  qp hp = Some q ->
  hasUniqueVindex L (vschema ctx) (semTable ctx) (GroupByExprs q) = true ->
  planAggregations L hp ctx (PRoute r) = OK (planOut, hp') ->
  exists r',
    planOut = PRoute r' /\ eroute r' = eroute r /\ tables r' = tables r /\
    needsTruncation hp' = needsTruncation hp /\
    vtgateGrouping hp' = vtgateGrouping hp.
Proof.
  intros Hq Hu H. unfold planAggregations in H.
  assert (Hq' : hp_qp hp = OK q) by (unfold hp_qp; rewrite Hq; reflexivity).
  rewrite Hq' in H.
  cbn -[planAggregations_selectLoop planAggregations_groupLoop planHaving planOrderBy
        planAggregations_check hasUniqueVindex hp_qp splitNewPlan newPlanOf] in H.
  rewrite Hu in H.
  cbn -[planAggregations_selectLoop planAggregations_groupLoop planHaving planOrderBy
        planAggregations_check hp_qp splitNewPlan newPlanOf] in H.
  destruct (planAggregations_selectLoop L ctx (qSelectExprs q) (PRoute r, None, hp))
    as [[[p1 oa1] hp1]| | |] eqn:E1; try discriminate.
  destruct (planAggregations_selectLoop_route _ _ _ _ _ _ _ _ E1)
    as (r1 & -> & He1 & Ht1 & -> & ->).
  cbn -[planAggregations_groupLoop planHaving planOrderBy planAggregations_check
        hp_qp splitNewPlan newPlanOf] in H.
  rewrite Hq' in H.
  cbn -[planAggregations_groupLoop planHaving planOrderBy planAggregations_check
        hp_qp splitNewPlan newPlanOf] in H.
  destruct (planAggregations_groupLoop L ctx (GroupByExprs q) (PRoute r1, None, hp))
    as [[[p2 oa2] hp2]| | |] eqn:E2; try discriminate.
  destruct (planAggregations_groupLoop_route _ _ _ _ _ _ _ _ E2)
    as (r2 & -> & He2 & Ht2 & -> & Hsame).
  cbn -[planHaving planOrderBy planAggregations_check hp_qp] in H.
  assert (Hh : forall st ret, planHaving L hp2 ctx (PRoute r2) = OK (st, ret) ->
                 exists r3, ret = PRoute r3 /\ st = PRoute r3 /\ eroute r3 = eroute r2 /\
                            tables r3 = tables r2).
  { unfold planHaving. intros st ret. destruct (Having (sel hp2)); simpl; intros Hh;
      injection Hh as <- <-; eexists; repeat split. }
  destruct (planHaving L hp2 ctx (PRoute r2)) as [[st ret]| | |] eqn:E3; try discriminate.
  destruct (Hh _ _ eq_refl) as (r3 & -> & -> & He3 & Ht3).
  cbn -[planOrderBy planAggregations_check hp_qp] in H.
  destruct (hp_qp hp2) as [q2| | |]; try discriminate.
  cbn -[planOrderBy planAggregations_check hp_qp] in H.
  replace (if negb (CanPushDownSorting q2) then None else None)
    with (@None engine_OrderedAggregate) in H by (destruct (negb (CanPushDownSorting q2)); reflexivity).
  cbn -[planAggregations_check hp_qp] in H.
  destruct (hp_qp hp2) as [q3| | |]; try discriminate.
  simpl in H. injection H as <- <-.
  exists r3. split; [reflexivity|]. split; [congruence|]. split; [congruence|].
  destruct Hsame as (_ & _ & Hn & Hv). split; assumption.
Qed.

Lemma planAggregations_route_unique_vindex_witness :
  exists planOut hp',
    planAggregations Example.lib SampleUnique.hpErr Example.ctx
      (PRoute (Example.scatter [])) = OK (planOut, hp') /\
    exists r',
      planOut = PRoute r' /\ eroute r' = eroute (Example.scatter []) /\
      tables r' = tables (Example.scatter []) /\
      needsTruncation hp' = needsTruncation SampleUnique.hpErr /\
      vtgateGrouping hp' = vtgateGrouping SampleUnique.hpErr.
Proof.
  eexists _, _. split; [reflexivity|].
  exact (planAggregations_route_unique_vindex Example.lib SampleUnique.hpErr Example.ctx
           (Example.scatter []) SampleUnique.qpErr _ _ eq_refl eq_refl eq_refl).
Defined.

(** X24.  The shortcut for a plain scatter query: on a route that is not
    single shard, when the query projection needs no aggregation, the
    statement has no HAVING, there is no ORDER BY, no DISTINCT is needed and
    no truncation is pending, planHorizon builds the query projection and
    hands the whole statement to planSingleShardRoutePlan; nothing is pushed,
    and no ordering, distinct or truncation step changes the route. *)
Theorem planHorizon_scatter_shortcut (L : Lib) (hp : horizonPlanning) (ctx : planningContext)
    (r : routeGen4) (q : QueryProjection) :
  isSingleShard L r = false ->
  CreateQPFromSelect L (sel hp) (semTable ctx) = OK q ->
  NeedsAggregation L q = false ->
  Having (sel hp) = None ->
  OrderExprs q = [] ->
  NeedsDistinct L q = false ->
  needsTruncation hp = false ->
  planHorizon L hp ctx (PRoute r)
  = (r' ← planSingleShardRoutePlan L (sel hp) r; OK (PRoute r', hp_setQP hp q, ctx)).
Proof.
  intros Hss Hq Hna Hh Ho Hd Ht. unfold planHorizon. cbn [isRoutePlan negb]. rewrite Hss, Hq.
  cbn -[planAggregations pushProjections planOrderBy planGroupByUsingOrderBy planDistinct
        truncateColumnsIfNeeded hp_setQP].
  assert (Hb : bool_decide (Having (sel (hp_setQP hp q)) <> None) = false).
  { apply bool_decide_eq_false. simpl. rewrite Hh. intros X. apply X. reflexivity. }
  rewrite Hna, Hb, Ho. change (sel (hp_setQP hp q)) with (sel hp).
  change (len (@nil OrderByQP) =? 0) with true. cbn [negb orb andb].
  destruct (planSingleShardRoutePlan L (sel hp) r) as [r'| | |]; try reflexivity.
  cbn -[hp_setQP planDistinct truncateColumnsIfNeeded].
  unfold planDistinct, hp_qp. cbn [qp hp_setQP]. cbn -[truncateColumnsIfNeeded hp_setQP].
  rewrite Hd. cbn -[hp_setQP].
  unfold truncateColumnsIfNeeded. cbn [needsTruncation hp_setQP]. rewrite Ht. reflexivity.
Qed.

Lemma planHorizon_scatter_shortcut_witness :
  planHorizon Example.lib (Example.hpOf (Example.selectOf [SelAliased Sample.colA ""]))
    Example.ctx (PRoute (Example.scatter []))
  = OK (Sample.leftA,
        hp_setQP (Example.hpOf (Example.selectOf [SelAliased Sample.colA ""]))
          (mkQP [mkSelectExprQP (SelAliased Sample.colA "") false] false false [] [] true false
                None),
        Example.ctx).
Proof.
  rewrite (planHorizon_scatter_shortcut Example.lib
             (Example.hpOf (Example.selectOf [SelAliased Sample.colA ""])) Example.ctx
             (Example.scatter [])
             (mkQP [mkSelectExprQP (SelAliased Sample.colA "") false] false false [] [] true
                   false None)
             eq_refl eq_refl eq_refl eq_refl eq_refl eq_refl eq_refl).
  reflexivity.
Defined.

Lemma pushLHSColumns_vars (L : Lib) st inner cols :
  forall bvName left vars left' vars',
    pushLHSColumns (pushProjection L) bvName cols left vars st inner = OK (left', vars') ->
    shape left' = shape left /\
    (length cols <= length bvName)%nat /\
    (forall bv, bv ∈ take (length cols) bvName -> is_Some (vars' !! bv)) /\
    (forall k, k ∉ take (length cols) bvName -> vars' !! k = vars !! k).
Proof.
  induction cols as [|col cols IH]; intros bvName left vars left' vars' H;
    cbn [pushLHSColumns] in H.
  - injection H as <- <-. split; [reflexivity|]. split; [simpl; lia|].
    split; [|reflexivity]. intros bv Hbv. rewrite take_0 in Hbv. inversion Hbv.
  - destruct (pushProjection L (AliasedOf col) left st inner true false)
      as [[[off a] left1]| | |] eqn:Ep; try discriminate.
    cbn -[pushLHSColumns] in H.
    destruct bvName as [|bv bvName]; [discriminate|].
    destruct (IH _ _ _ _ _ H) as (S2 & Hlen & Hsome & Hother).
    pose proof (pushProjection_shape _ _ _ _ _ _ _ _ _ _ Ep) as S1.
    split; [congruence|]. split; [simpl; lia|]. simpl. split.
    + intros k Hk. destruct (decide (k ∈ take (length cols) bvName)) as [Hin|Hnin].
      * exact (Hsome _ Hin).
      * rewrite (Hother _ Hnin). apply elem_of_cons in Hk as [->|Hk]; [|contradiction].
        rewrite lookup_insert_eq. eexists. reflexivity.
    + intros k Hk. rewrite not_elem_of_cons in Hk. destruct Hk as [Hne Hnin].
      rewrite (Hother _ Hnin). apply lookup_insert_ne. congruence.
Qed.

(** X25.  The loop of the join case that pushes the left-hand columns of a
    split expression: when it succeeds, the left child keeps its operators,
    there were at least as many bind-variable names as columns, every name
    used has an entry in Vars afterwards, and every other entry of Vars is as
    it was. *)
Theorem pushLHSColumns_binds_every_name (L : Lib) (st : SemTable) (inner : bool)
    (bvName : list string) (cols : list Expr) (left : logicalPlan) (vars : gmap string Z)
    (left' : logicalPlan) (vars' : gmap string Z) :
  pushLHSColumns (pushProjection L) bvName cols left vars st inner = OK (left', vars') ->
  shape left' = shape left /\
  (length cols <= length bvName)%nat /\
  (forall bv, bv ∈ take (length cols) bvName -> is_Some (vars' !! bv)) /\
  (forall k, k ∉ take (length cols) bvName -> vars' !! k = vars !! k).
Proof. apply pushLHSColumns_vars. Qed.

Lemma pushLHSColumns_binds_every_name_witness :
  exists left' vars',
    pushLHSColumns (pushProjection Example.lib) ["a"] [Sample.colA] Sample.leftEmpty ∅
      Example.st true = OK (left', vars') /\
    shape left' = shape Sample.leftEmpty /\
    (forall bv, bv ∈ take 1 ["a"] -> is_Some (vars' !! bv)).
Proof.
  eexists _, _. split; [reflexivity|].
  destruct (pushLHSColumns_binds_every_name Example.lib Example.st true ["a"] [Sample.colA]
              Sample.leftEmpty ∅ _ _ eq_refl) as (S1 & _ & Hs & _).
  split; [exact S1|exact Hs].
Defined.

Lemma pushProjections_over_aggregate (L : Lib) ctx input ea es :
  forall cols plan',
    pushProjections L ctx (PSimpleProjection (POrderedAggregate input ea) cols) es = OK plan' ->
    exists news,
      plan' = PSimpleProjection (POrderedAggregate input ea) (cols ++ news) /\
      Forall2 (aggregateColumnFor ea) es news.
Proof.
  induction es as [|e es IH]; intros cols plan' H; cbn [pushProjections] in H.
  - injection H as <-. exists []. rewrite app_nil_r. split; [reflexivity|constructor].
  - unfold GetAliasedExpr in H. destruct (Col e) as [ex al| |] eqn:Hc; try discriminate.
    cbn -[pushProjections pushProjection] in H.
    rewrite pushProjection_unfold in H. unfold pushProjection_body in H.
    rewrite pushProjection_unfold in H. unfold pushProjection_body at 1 in H.
    pose proof (findAggregate_first (mkAliased ex al) (Aggregates ea)) as Hf.
    destruct (findAggregate (mkAliased ex al) (Aggregates ea)) as [c|]; [|discriminate].
    cbn -[pushProjections] in H.
    destruct (IH _ _ H) as (news & -> & HF).
    exists (c :: news). rewrite <- app_assoc. split; [reflexivity|].
    constructor; [|exact HF].
    destruct Hf as (pre & a & post & Hs & _ & Hm & ->).
    exists ex, al, a. split; [exact Hc|]. split; [|split; [exact Hm|reflexivity]].
    rewrite Hs. apply in_or_app. right. left. reflexivity.
Qed.

(** X26.  pushProjections onto a simple projection over an ordered aggregate,
    the plan that planHorizon builds for a query over an aggregating derived
    table, only reads the ordered aggregate: the ordered aggregate and its
    input are unchanged, and the Cols of the simple projection grow by one
    entry per select item, in order, each the column of an aggregate that has
    the expression of the item or whose alias is the name of its column. *)
Theorem pushProjections_over_ordered_aggregate (L : Lib) (ctx : planningContext)
    (input : logicalPlan) (ea : engine_OrderedAggregate) (cols : list Z)
    (es : list SelectExprQP) (plan' : logicalPlan) :
  pushProjections L ctx (PSimpleProjection (POrderedAggregate input ea) cols) es = OK plan' ->
  exists news,
    plan' = PSimpleProjection (POrderedAggregate input ea) (cols ++ news) /\
    Forall2 (aggregateColumnFor ea) es news.
Proof. apply pushProjections_over_aggregate. Qed.

Lemma pushProjections_over_ordered_aggregate_witness :
  exists plan',
    pushProjections Example.lib Example.ctx
      (PSimpleProjection
         (POrderedAggregate Sample.leftA
            (mkEAggr false [mkAggregateParams AggregateCount 3 "c" None false 0] [] 0)) [])
      [mkSelectExprQP (SelAliased (Example.col "c") "") false] = OK plan' /\
    exists news,
      plan'
      = PSimpleProjection
          (POrderedAggregate Sample.leftA
             (mkEAggr false [mkAggregateParams AggregateCount 3 "c" None false 0] [] 0))
          ([] ++ news) /\
      length news = 1%nat.
Proof.
  eexists. split; [reflexivity|].
  destruct (pushProjections_over_ordered_aggregate Example.lib Example.ctx Sample.leftA
              (mkEAggr false [mkAggregateParams AggregateCount 3 "c" None false 0] [] 0) []
              [mkSelectExprQP (SelAliased (Example.col "c") "") false] _ eq_refl)
    as (news & Hp & HF).
  exists news. split; [exact Hp|]. symmetry. exact (Forall2_length _ _ _ HF).
Defined.

(** * What a projection push writes *)

Lemma projectionsOnly_shape p p' : projectionsOnly p p' -> shape p' = shape p.
Proof.
  induction 1; simpl; try congruence.
Qed.

Section ProjectionsOnly.

Variable L : Lib.

Lemma pushLHSColumns_projectionsOnly d :
  projectionsOnly_below L d ->
  forall cols bv left vars st inner l' v',
    (depth left < d)%nat ->
    pushLHSColumns (pushProjection L) bv cols left vars st inner = OK (l', v') ->
    projectionsOnly left l'.
Proof.
  intros H cols. induction cols as [|c cols IH]; intros bv left vars st inner l' v' Hd E;
    simpl in E.
  - injection E as <- _. apply po_refl.
  - destruct (pushProjection L (AliasedOf c) left st inner true false) as [[[o a] l1]| | |] eqn:Ep;
      try discriminate.
    simpl in E. destruct bv as [|b bv]; [discriminate|].
    apply (po_trans _ l1); [exact (H _ _ _ _ _ _ _ _ _ Hd Ep)|].
    refine (IH _ _ _ _ _ _ _ _ E).
    rewrite (pushProjection_depth _ _ _ _ _ _ _ _ _ _ Ep). lia.
Qed.

Lemma joinColumn_tail reuseCol appended column cols idx added cols' :
  joinColumn reuseCol appended column cols = (idx, added, cols') ->
  exists tail, cols' = cols ++ tail.
Proof.
  intros H. destruct (joinColumn_lookup _ _ _ _ _ _ _ H) as (_ & Ht & _). exact Ht.
Qed.

Ltac pushed H E :=
  match type of E with
  | context [pushProjection L ?e ?c ?st ?i ?r ?h] =>
      let Ec := fresh "Ec" in
      destruct (pushProjection L e c st i r h) as [[[? ?] ?]| | |] eqn:Ec; try discriminate;
      let Hp := fresh "Hp" in
      match type of Ec with
      | _ = OK (_, _, ?c') =>
          assert (projectionsOnly c c') as Hp
            by (refine (H _ _ _ _ _ _ _ _ _ _ Ec); simpl in *; lia)
      end;
      cbn -[pushProjection joinColumn] in E
  end.

Lemma pushProjection_projectionsOnly_step d :
  projectionsOnly_below L d -> projectionsOnly_below L (S d).
Proof.
  intros H e p st i r h o a p' Hd E.
  pose proof E as E0.
  rewrite pushProjection_unfold in E. unfold pushProjection_body in E.
  destruct p; simpl in Hd; cbv zeta in E.
  - (* route *)
    clear E.
    destruct (pushProjection_route_cases _ _ _ _ _ _ _ _ _ _ E0)
      as (node' & -> & He & Ht & [(_ & _ & -> & _)|(_ & _ & sel & e2 & Hs & Hs')]).
    + apply po_refl.
    + exact (po_route _ _ _ [_] He Ht Hs Hs').
  - (* join *)
    destruct (IsSolvedBy L _ (ContainsTables L p1)).
    { pushed H E.
      destruct (joinColumn r b (- (z + 1)) (jCols node)) as [[idx ad] cs] eqn:Ej.
      injection E as <- <- <-. destruct (joinColumn_tail _ _ _ _ _ _ _ Ej) as [tail ->].
      apply po_join; [exact Hp|apply po_refl]. }
    destruct (IsSolvedBy L _ (ContainsTables L p2)).
    { pushed H E.
      destruct (joinColumn r b (z + 1) (jCols node)) as [[idx ad] cs] eqn:Ej.
      injection E as <- <- <-. destruct (joinColumn_tail _ _ _ _ _ _ _ Ej) as [tail ->].
      apply po_join; [apply po_refl|exact Hp]. }
    destruct h; [discriminate|].
    destruct (breakExpressionInLHSandRHS L _ st _) as [[[bv cols] rw]| | |]; try discriminate.
    cbn -[pushProjection joinColumn pushLHSColumns] in E.
    destruct (pushLHSColumns (pushProjection L) bv cols p1 (jVars node) st i)
      as [[l1 v1]| | |] eqn:El; try discriminate.
    assert (Hl1 : projectionsOnly p1 l1).
    { refine (pushLHSColumns_projectionsOnly d H _ _ _ _ _ _ _ _ _ El). lia. }
    cbn -[pushProjection joinColumn] in E.
    pushed H E.
    destruct (joinColumn r b (z + 1) (jCols node)) as [[idx ad] cs] eqn:Ej.
    injection E as <- <- <-. destruct (joinColumn_tail _ _ _ _ _ _ _ Ej) as [tail ->].
    apply po_join; assumption.
  - (* hash join *)
    destruct (IsSolvedBy L _ (ContainsTables L p1)).
    { pushed H E.
      destruct (joinColumn r b (- (z + 1)) (hCols node)) as [[idx ad] cs] eqn:Ej.
      injection E as <- <- <-. destruct (joinColumn_tail _ _ _ _ _ _ _ Ej) as [tail ->].
      apply po_hashJoin; [exact Hp|apply po_refl]. }
    destruct (IsSolvedBy L _ (ContainsTables L p2)).
    { pushed H E.
      destruct (joinColumn r b (z + 1) (hCols node)) as [[idx ad] cs] eqn:Ej.
      injection E as <- <- <-. destruct (joinColumn_tail _ _ _ _ _ _ _ Ej) as [tail ->].
      apply po_hashJoin; [apply po_refl|exact Hp]. }
    destruct h; discriminate.
  - (* semi join *)
    pushed H E.
    destruct (joinColumn r b (- (z + 1)) cols) as [[idx ad] cs] eqn:Ej.
    injection E as <- <- <-. destruct (joinColumn_tail _ _ _ _ _ _ _ Ej) as [tail ->].
    apply po_semiJoin. exact Hp.
  - (* ordered aggregate *)
    destruct (findAggregate e (Aggregates eaggr)) as [c|]; [|discriminate].
    injection E as <- <- <-. apply po_refl.
  - discriminate.
  - (* simple projection *)
    pushed H E.
    destruct (if r then findCol z 0 eSimpleProjCols else None) as [j|];
      injection E as <- <- <-.
    + rewrite <- (app_nil_r eSimpleProjCols) at 2. apply po_simpleProjection. exact Hp.
    + apply po_simpleProjection. exact Hp.
  - (* vindex function *)
    destruct (SupplyProjection L node e r) as [[o1 n1]| | |]; try discriminate.
    simpl in E. injection E as <- <- <-. apply po_vindexFunc.
  - (* pullout subquery *)
    pushed H E. injection E as <- <- <-. apply po_pulloutSubquery. exact Hp.
  - discriminate.
  - (* limit *)
    pushed H E. injection E as <- <- <-. apply po_limit. exact Hp.
  - (* distinct *)
    pushed H E. injection E as <- <- <-. apply po_distinct. exact Hp.
  - (* concatenate *)
    destruct h; [discriminate|]. destruct sources as [|s0 others]; [discriminate|].
    pushed H E. destruct b; [discriminate|]. injection E as <- <- <-.
    apply po_concatenate. exact Hp.
  - discriminate.
Qed.

Lemma pushProjection_projectionsOnly e p st i r h o a p' :
  pushProjection L e p st i r h = OK (o, a, p') -> projectionsOnly p p'.
Proof.
  assert (A : forall d, projectionsOnly_below L d).
  { induction d as [|d IH]; [intros ? ? ? ? ? ? ? ? ? Hd; lia|].
    apply pushProjection_projectionsOnly_step; exact IH. }
  apply (A (S (depth p))). lia.
Qed.

End ProjectionsOnly.

(** X1.  A successful push leaves the operators of the plan and their nesting
    as they were: no operator is added, removed or replaced, whatever the
    variant.  What it changes are projections only: select expressions
    appended to the select list of a route holding a plain SELECT, entries
    appended to the Cols of joins, hash joins, semi joins and simple
    projections, bind variables of joins and the node of a vindex function;
    opcodes, engine primitives of routes, ordered aggregates and the untouched
    children stay as they are. *)
Theorem pushProjection_keeps_operators (L : Lib) (expr : AliasedExpr) (plan : logicalPlan)
    (st : SemTable) (inner reuseCol hasAggregation : bool)
    (offset : Z) (added : bool) (plan' : logicalPlan) :
  pushProjection L expr plan st inner reuseCol hasAggregation = OK (offset, added, plan') ->
  shape plan' = shape plan /\ projectionsOnly plan plan'.
Proof.
  intros H. split; [exact (pushProjection_shape _ _ _ _ _ _ _ _ _ _ H)|].
  exact (pushProjection_projectionsOnly _ _ _ _ _ _ _ _ _ _ H).
Qed.

Lemma pushProjection_keeps_operators_witness :
  shape (PJoin Sample.leftA Sample.rightEmpty (mkJoin InnerJoin [-1] ∅))
  = shape (PJoin Sample.leftEmpty Sample.rightEmpty (mkJoin InnerJoin [] ∅)) /\
  projectionsOnly (PJoin Sample.leftEmpty Sample.rightEmpty (mkJoin InnerJoin [] ∅))
                  (PJoin Sample.leftA Sample.rightEmpty (mkJoin InnerJoin [-1] ∅)).
Proof.
  exact (pushProjection_keeps_operators Example.lib (AliasedOf Sample.colA)
           (PJoin Sample.leftEmpty Sample.rightEmpty (mkJoin InnerJoin [] ∅))
           Example.st true true false 0 true _ eq_refl).
Defined.
